(** * CLDRPluralRuleParser: a shallow embedding of [pluralRuleParser]

    The development follows [src/CLDRPluralRuleParser.js].  The JavaScript
    function is one closure over the rule text, the number and a shared
    cursor [pos]; here the rule and the number are Section variables, the
    cursor is threaded explicitly, and every parsing function of the source
    is a [parser]: a function from the cursor to a JavaScript value and the
    new cursor.

    Conventions of the model.
    - Strings are [String.string]; a character is a code unit in the range
      U+0000..U+00FF.
    - Numbers are exact decimals [m / 10^e] together with [NaN] and the two
      infinities.  The arithmetic of the productions ([%], [+] and the
      comparisons) is exact, so the model agrees with JavaScript wherever
      the double operation is exact.  Rounding is modelled at the two
      places of the source that depend on it: [parseInt] rounds the
      integer it reads from the digits of a rule to the nearest double
      ([binary64]), and the loop of [range] does not end normally once
      its counter stops growing at [2^53] ([range_trips]).  Up to
      [max_safe_integer] nothing is rounded ([binary64_safe]).
    - Arrays are lists.  An array holds at most [2^32 - 1] elements; this
      is modelled where a rule can ask for more: in the loop of [range]
      and in the concatenations of [rangeList] ([fits]).  The other
      arrays are short: [sequence] holds one element for each parser it
      lists, [nOrMore] at most one for each character it reads.
    - [null] is the value [VNull]; the [option] layer of a [parser]
      records that a call returns no value: [range] or [rangeList] ended
      with a [RangeError], or the fuel given to a loop or to a recursive
      production ran out.  The latter is shown never to happen with the
      fuel the driver supplies. *)

From Stdlib Require Import ZArith List String Ascii Bool Lia.
Import ListNotations.
Set Warnings "-register-all".
Open Scope string_scope.
Open Scope Z_scope.

(** ** JavaScript numbers *)

Inductive num : Type :=
| NaN
| Inf (neg : bool)
| Fin (m : Z) (e : nat).

(** Canonical representative: the scale [e] is as small as possible. *)
Fixpoint norm (m : Z) (e : nat) : num :=
  match e with
  | O => Fin m 0
  | S e' => if m mod 10 =? 0 then norm (m / 10) e' else Fin m e
  end.

Definition pow10 (e : nat) : Z := 10 ^ Z.of_nat e.

Definition num_of_Z (z : Z) : num := Fin z 0.

(** [x === y] on numbers. *)
Definition num_eqb (x y : num) : bool :=
  match x, y with
  | Fin m1 e1, Fin m2 e2 => m1 * pow10 e2 =? m2 * pow10 e1
  | Inf a, Inf b => Bool.eqb a b
  | _, _ => false
  end.

(** [x < y] on numbers. *)
Definition num_ltb (x y : num) : bool :=
  match x, y with
  | Fin m1 e1, Fin m2 e2 => m1 * pow10 e2 <? m2 * pow10 e1
  | Inf true, Inf false => true
  | Inf true, Fin _ _ => true
  | Fin _ _, Inf false => true
  | _, _ => false
  end.

(** [x <= y] and [x >= y] on numbers. *)
Definition num_leb (x y : num) : bool := num_ltb x y || num_eqb x y.
Definition num_geb (x y : num) : bool := num_leb y x.

(** [x + y] on numbers. *)
Definition num_add (x y : num) : num :=
  match x, y with
  | Fin m1 e1, Fin m2 e2 => norm (m1 * pow10 e2 + m2 * pow10 e1) (e1 + e2)
  | Inf a, Inf b => if Bool.eqb a b then Inf a else NaN
  | Inf a, Fin _ _ => Inf a
  | Fin _ _, Inf b => Inf b
  | _, _ => NaN
  end.

(** [x % y]: the remainder has the sign of the dividend. *)
Definition num_rem (x y : num) : num :=
  match x, y with
  | Fin m1 e1, Fin m2 e2 =>
      if m2 =? 0 then NaN
      else norm (Z.rem (m1 * pow10 e2) (m2 * pow10 e1)) (e1 + e2)
  | Fin m1 e1, Inf _ => Fin m1 e1
  | _, _ => NaN
  end.

(** *** Doubles *)

(** [Number.MAX_SAFE_INTEGER].  Every integer up to it is a double, and
    so is its successor: reading its digits with [parseInt] is exact, and
    so is counting up to it with [i++]. *)
Definition max_safe_integer : Z := 2 ^ 53 - 1.

(** The significand of a non-negative integer [z] that is cut at [2^k]:
    [z = q * 2^k + r], rounded on [r] to [q] or to [q + 1], the even one
    when [r] is half of [2^k]. *)
Definition round_at (k z : Z) : Z :=
  let q := z / 2 ^ k in
  let r := z mod 2 ^ k in
  if (2 ^ (k - 1) <? r) || ((r =? 2 ^ (k - 1)) && Z.odd q) then q + 1 else q.

(** The double nearest to the integer [z], ties going to the even
    significand: below [2^53] it is [z] itself; from there on [z] is
    cut to the 53 bits of a significand and rounded; a result of
    [2^1024] or more is [Infinity]. *)
Definition binary64 (z : Z) : num :=
  let a := Z.abs z in
  if a <? 2 ^ 53 then Fin z 0
  else
    let k := Z.log2 a - 52 in
    let m := round_at k a * 2 ^ k in
    if 2 ^ 1024 <=? m then Inf (z <? 0) else Fin (Z.sgn z * m) 0.

(** ** Strings *)

Definition char_code (c : ascii) : Z := Z.of_nat (nat_of_ascii c).

(** WhiteSpace and LineTerminator code units below U+0100: the class of
    [\s], of [trim] and of the prefix skipped by [parseInt]. *)
Definition is_whitespace (c : ascii) : bool :=
  let n := char_code c in
  ((9 <=? n) && (n <=? 13)) || (n =? 32) || (n =? 160).

(** The class of [\d]. *)
Definition is_digit (c : ascii) : bool :=
  let n := char_code c in (48 <=? n) && (n <=? 57).

Fixpoint take_while (f : ascii -> bool) (s : string) : string :=
  match s with
  | EmptyString => EmptyString
  | String c s' => if f c then String c (take_while f s') else EmptyString
  end.

Fixpoint drop_while (f : ascii -> bool) (s : string) : string :=
  match s with
  | EmptyString => EmptyString
  | String c s' => if f c then drop_while f s' else s
  end.

Definition trim_start (s : string) : string := drop_while is_whitespace s.

(** [s] without the characters of class [cls] at its end. *)
Fixpoint drop_end (cls : ascii -> bool) (s : string) : string :=
  match s with
  | EmptyString => EmptyString
  | String c s' =>
      match drop_end cls s' with
      | EmptyString => if cls c then EmptyString else String c EmptyString
      | kept => String c kept
      end
  end.

Definition trim_end (s : string) : string := drop_end is_whitespace s.

(** [s.trim()]. *)
Definition trim (s : string) : string := trim_end (trim_start s).

(** [s.substr(start, len)]: a negative length is an empty result and the
    result is cut at the end of [s]. *)
Definition substr (s : string) (start : nat) (len : Z) : string :=
  substring start (Z.to_nat len) s.

(** [s.substr(start)]. *)
Definition substr_from (s : string) (start : nat) : string :=
  substring start (String.length s - start) s.

(** [s.indexOf(pat)]: [-1] when [pat] does not occur. *)
Definition indexOf (s pat : string) : Z :=
  match index 0 pat s with
  | Some i => Z.of_nat i
  | None => -1
  end.

Definition digit_char (d : Z) : ascii := ascii_of_nat (Z.to_nat (48 + d)).

(** The decimal digits of [z], most significant first, put before [acc]. *)
Fixpoint digits_of (fuel : nat) (z : Z) (acc : string) : string :=
  match fuel with
  | O => acc
  | S fuel' =>
      let acc' := String (digit_char (z mod 10)) acc in
      if z <? 10 then acc' else digits_of fuel' (z / 10) acc'
  end.

(** The decimal digits of a positive integer; it has no more decimal
    digits than binary ones. *)
Definition string_of_pos_Z (z : Z) : string :=
  digits_of (S (Z.to_nat (Z.log2 z))) z EmptyString.

Definition string_of_nat (n : nat) : string :=
  if (n =? 0)%nat then "0" else string_of_pos_Z (Z.of_nat n).

Fixpoint zeros (n : nat) : string :=
  match n with
  | O => EmptyString
  | S n' => String "0" (zeros n')
  end.

Definition is_zero_char (c : ascii) : bool := char_code c =? 48.

(** [s.replace(/0$/, '')]: one trailing zero character is removed. *)
Fixpoint replace_trailing_zero (s : string) : string :=
  match s with
  | EmptyString => EmptyString
  | String c EmptyString => if is_zero_char c then EmptyString else s
  | String c s' => String c (replace_trailing_zero s')
  end.

(** Number::toString of a positive decimal [m / 10^e]. *)
Definition pos_to_string (m : Z) (e : nat) : string :=
  let all := string_of_pos_Z m in
  let digits := drop_end is_zero_char all in
  let k := String.length digits in
  let n := Z.of_nat (String.length all) - Z.of_nat e in
  if (Z.of_nat k <=? n) && (n <=? 21) then
    digits ++ zeros (Z.to_nat n - k)
  else if (0 <? n) && (n <=? 21) then
    substring 0 (Z.to_nat n) digits ++ "." ++
    substring (Z.to_nat n) (k - Z.to_nat n) digits
  else if (-6 <? n) && (n <=? 0) then
    "0." ++ zeros (Z.to_nat (- n)) ++ digits
  else
    let ex := n - 1 in
    let sign := if ex <? 0 then "-" else "+" in
    let mant :=
      if (k =? 1)%nat then digits
      else substring 0 1 digits ++ "." ++ substring 1 (k - 1) digits in
    mant ++ "e" ++ sign ++ string_of_pos_Z (Z.abs ex).

(** Number::toString. *)
Definition num_to_string (x : num) : string :=
  match x with
  | NaN => "NaN"
  | Inf false => "Infinity"
  | Inf true => "-Infinity"
  | Fin m e =>
      if m =? 0 then "0"
      else if m <? 0 then "-" ++ pos_to_string (- m) e
      else pos_to_string m e
  end.

(** ** JavaScript values *)

Inductive jsval : Type :=
| VNull
| VUndefined
| VBool (b : bool)
| VNum (x : num)
| VStr (s : string)
| VArr (l : list jsval).

Definition is_null (v : jsval) : bool :=
  match v with VNull => true | _ => false end.

(** ToBoolean. *)
Definition truthy (v : jsval) : bool :=
  match v with
  | VNull | VUndefined => false
  | VBool b => b
  | VNum NaN => false
  | VNum (Inf _) => true
  | VNum (Fin m _) => negb (m =? 0)
  | VStr s => negb (s =? "")%string
  | VArr _ => true
  end.

(** ToString; an array is its elements joined by commas, [null] and
    [undefined] elements printing as the empty string. *)
Fixpoint to_string (v : jsval) : string :=
  match v with
  | VNull => "null"
  | VUndefined => "undefined"
  | VBool true => "true"
  | VBool false => "false"
  | VNum x => num_to_string x
  | VStr s => s
  | VArr l =>
      String.concat ","
        (map (fun e => match e with
                       | VNull | VUndefined => ""
                       | _ => to_string e
                       end) l)
  end.

(** [a === b].  Two arrays are equal only when they are the same object;
    the program never compares arrays, and the model answers [false]. *)
Definition strict_eq (a b : jsval) : bool :=
  match a, b with
  | VNull, VNull => true
  | VUndefined, VUndefined => true
  | VBool x, VBool y => Bool.eqb x y
  | VNum x, VNum y => num_eqb x y
  | VStr x, VStr y => (x =? y)%string
  | _, _ => false
  end.

(** [a && b] and [a || b] return one of their operands. *)
Definition js_and (a b : jsval) : jsval := if truthy a then b else a.
Definition js_or (a b : jsval) : jsval := if truthy a then a else b.

(** [v[i]]: [undefined] outside the array. *)
Definition get_index (v : jsval) (i : Z) : jsval :=
  match v with
  | VArr l => if i <? 0 then VUndefined else nth (Z.to_nat i) l VUndefined
  | VStr s =>
      if i <? 0 then VUndefined
      else match String.get (Z.to_nat i) s with
           | Some c => VStr (String c EmptyString)
           | None => VUndefined
           end
  | _ => VUndefined
  end.

(** [v.length]: a number has no such property. *)
Definition get_length (v : jsval) : jsval :=
  match v with
  | VArr l => VNum (num_of_Z (Z.of_nat (List.length l)))
  | VStr s => VNum (num_of_Z (Z.of_nat (String.length s)))
  | _ => VUndefined
  end.

(** [l.concat(v)]: an array argument is spread, anything else is appended
    as one element. *)
Definition js_concat (l : list jsval) (v : jsval) : list jsval :=
  match v with
  | VArr l' => l ++ l'
  | _ => l ++ [v]
  end.

(** *** parseInt *)

Definition digit_value (c : ascii) : option Z :=
  let n := char_code c in
  if (48 <=? n) && (n <=? 57) then Some (n - 48)
  else if (97 <=? n) && (n <=? 122) then Some (n - 87)
  else if (65 <=? n) && (n <=? 90) then Some (n - 55)
  else None.

Definition is_radix_digit (R : Z) (c : ascii) : bool :=
  match digit_value c with
  | Some d => d <? R
  | None => false
  end.

Fixpoint digits_value (R : Z) (s : string) (acc : Z) : Z :=
  match s with
  | EmptyString => acc
  | String c s' =>
      match digit_value c with
      | Some d => digits_value R s' (acc * R + d)
      | None => acc
      end
  end.

Definition starts_with (p s : string) : bool := prefix p s.

(** The integer that [parseInt] reads from a text: the sign, the radix
    and the digits of the text; [NaN] when there is no digit.
    [radix = 0] stands for a missing radix. *)
Definition read_int (s : string) (radix : Z) : num :=
  let s := trim_start s in
  let neg := starts_with "-" s in
  let s1 := if neg || starts_with "+" s then substr_from s 1 else s in
  if negb (radix =? 0) && ((radix <? 2) || (36 <? radix)) then NaN
  else
    let strip := (radix =? 0) || (radix =? 16) in
    let hex := strip && (starts_with "0x" s1 || starts_with "0X" s1) in
    let R := if hex then 16 else if radix =? 0 then 10 else radix in
    let s2 := if hex then substr_from s1 2 else s1 in
    let ds := take_while (is_radix_digit R) s2 in
    if (ds =? "")%string then NaN
    else
      let z := digits_value R ds 0 in
      num_of_Z (if neg then - z else z).

(** The double nearest to an integer. *)
Definition to_double (x : num) : num :=
  match x with
  | Fin z 0 => binary64 z
  | _ => x
  end.

(** [parseInt(input, radix)]: the integer read from the text of [input],
    rounded to the nearest double.  When the input is itself a number,
    a double, the integer read from its text is a double too: nothing
    is rounded then. *)
Definition parseInt (input : jsval) (radix : Z) : num :=
  let n := read_int (to_string input) radix in
  match input with
  | VNum _ => n
  | _ => to_double n
  end.

(** [parseFloat(x)] of a number [x]: the text of [x] reads back as [x]. *)
Definition parseFloat_num (x : num) : num := x.



(** ** The parsing functions of [pluralRuleParser] *)

(** A parsing function reads and moves the shared cursor.  [None] records
    that the call returns no value: the fuel of the model ran out, or
    [range] or [rangeList] ended with a [RangeError].  JavaScript's
    [null] is [Some (VNull, pos)]. *)
Definition parser : Type := nat -> option (jsval * nat).

Notation "'let*' ( r , p ) := c 'in' k" :=
  (match c with
   | Some (r, p) => k
   | None => None
   end)
  (at level 10, r name, p name, c at level 100, k at level 200).

(** A regular expression of the source is the function that gives the
    matched text [s.match(re)[0]] when there is a match. *)
Definition regex : Type := string -> option string.

(** [/^c+/] for a character class [c]. *)
Definition re_plus (cls : ascii -> bool) : regex :=
  fun s =>
    let m := take_while cls s in
    if (m =? "")%string then None else Some m.

Section Parser.

Variable rule : string.
Variable number : num.

(** Bound on the iterations of a loop and on the depth of a recursive
    production: enough for every parser that consumes text when it
    succeeds (see [nOrMore_total_from], [rangeList_fuel_le],
    [condition_total]). *)
Definition max_fuel : nat := S (String.length rule).

(** *** Combinators *)

Fixpoint choice (parserSyntax : list parser) : parser :=
  fun pos =>
    match parserSyntax with
    | [] => Some (VNull, pos)
    | p :: rest =>
        let* (result, pos) := p pos in
        if is_null result then choice rest pos else Some (result, pos)
    end.

Fixpoint sequence_loop (parserSyntax : list parser) (originalPos : nat)
    (result : list jsval) (pos : nat) : option (jsval * nat) :=
  match parserSyntax with
  | [] => Some (VArr result, pos)
  | p :: rest =>
      let* (res, pos) := p pos in
      if is_null res then Some (VNull, originalPos)
      else sequence_loop rest originalPos (result ++ [res]) pos
  end.

Definition sequence (parserSyntax : list parser) : parser :=
  fun pos => sequence_loop parserSyntax pos [] pos.

(** The [while] loop of [nOrMore]: [p] is called until it returns [null];
    the cursor is left where the last call left it. *)
Fixpoint nOrMore_loop (fuel : nat) (p : parser) (result : list jsval)
    (pos : nat) : option (list jsval * nat) :=
  match fuel with
  | O => None
  | S fuel' =>
      let* (parsed, pos) := p pos in
      if is_null parsed then Some (result, pos)
      else nOrMore_loop fuel' p (result ++ [parsed]) pos
  end.

Definition nOrMore (n : nat) (p : parser) : parser :=
  fun originalPos =>
    let* (result, pos) := nOrMore_loop max_fuel p [] originalPos in
    if (List.length result <? n)%nat then Some (VNull, originalPos)
    else Some (VArr result, pos).

Definition makeStringParser (s : string) : parser :=
  let len := String.length s in
  fun pos =>
    if (substr rule pos (Z.of_nat len) =? s)%string
    then Some (VStr s, (pos + len)%nat)
    else Some (VNull, pos).

Definition makeRegexParser (re : regex) : parser :=
  fun pos =>
    match re (substr_from rule pos) with
    | None => Some (VNull, pos)
    | Some m => Some (VStr m, (pos + String.length m)%nat)
    end.

(** *** Tokens *)

Definition whitespace : parser := makeRegexParser (re_plus is_whitespace).
Definition value : parser := makeRegexParser (re_plus is_digit).
Definition _n_ : parser := makeStringParser "n".
Definition _i_ : parser := makeStringParser "i".
Definition _f_ : parser := makeStringParser "f".
Definition _t_ : parser := makeStringParser "t".
Definition _v_ : parser := makeStringParser "v".
Definition _w_ : parser := makeStringParser "w".
Definition _is_ : parser := makeStringParser "is".
Definition _isnot_ : parser := makeStringParser "is not".
Definition _isnot_sign_ : parser := makeStringParser "!=".
Definition _equal_ : parser := makeStringParser "=".
Definition _mod_ : parser := makeStringParser "mod".
Definition _percent_ : parser := makeStringParser "%".
Definition _not_ : parser := makeStringParser "not".
Definition _in_ : parser := makeStringParser "in".
Definition _within_ : parser := makeStringParser "within".
Definition _range_ : parser := makeStringParser "..".
Definition _comma_ : parser := makeStringParser ",".
Definition _or_ : parser := makeStringParser "or".
Definition _and_ : parser := makeStringParser "and".

(** *** Operands *)

Definition one : num := Fin 1 0.
Definition zero : num := Fin 0 0.

(** [(number % 1) + ''] with one trailing zero character removed. *)
Definition fraction_text : jsval :=
  VStr (replace_trailing_zero (num_to_string (num_rem number one) ++ "")).

Definition i : parser :=
  fun pos =>
    let* (result, pos) := _i_ pos in
    if is_null result then Some (result, pos)
    else Some (VNum (parseInt (VNum number) 0), pos).

Definition n : parser :=
  fun pos =>
    let* (result, pos) := _n_ pos in
    if is_null result then Some (result, pos)
    else Some (VNum (parseFloat_num number), pos).

Definition f : parser :=
  fun pos =>
    let* (result, pos) := _f_ pos in
    if is_null result then Some (result, pos)
    else Some (VNum (num_rem number one), pos).

Definition t : parser :=
  fun pos =>
    let* (result, pos) := _t_ pos in
    if is_null result then Some (result, pos)
    else Some (js_or (VNum (parseInt fraction_text 0)) (VNum zero), pos).

(** [''.length] is [0]. *)
Definition v : parser :=
  fun pos =>
    let* (result, pos) := _v_ pos in
    if is_null result then Some (result, pos)
    else Some (VNum (num_add (parseInt (VNum (num_rem number one)) 0)
                             (num_of_Z (Z.of_nat (String.length "")))), pos).

(** The token parser of [w] is [_v_], as in the source. *)
Definition w : parser :=
  fun pos =>
    let* (result, pos) := _v_ pos in
    if is_null result then Some (result, pos)
    else Some (js_or (get_length (VNum (parseInt fraction_text 0)))
                     (VNum zero), pos).

Definition operand : parser := choice [n; i; f; t; v; w].

(** *** Expressions *)

Definition mod_ : parser :=
  fun pos =>
    let* (result, pos) :=
      sequence [operand; whitespace; choice [_mod_; _percent_];
                whitespace; value] pos in
    if is_null result then Some (VNull, pos)
    else Some (VNum (num_rem (parseInt (get_index result 0) 10)
                             (parseInt (get_index result 4) 10)), pos).

Definition expression : parser := choice [mod_; operand].

Definition not_ : parser :=
  fun pos =>
    let* (result, pos) := sequence [whitespace; _not_] pos in
    if is_null result then Some (VNull, pos)
    else Some (get_index result 1, pos).

(** *** Range lists *)

(** The [for] loop of [range]: [i] runs from [left] while [i <= right];
    [trips] bounds the number of its steps. *)
Fixpoint range_loop (trips : nat) (i right : num) (array : list jsval)
  : list jsval :=
  match trips with
  | O => array
  | S trips' =>
      if num_leb i right
      then range_loop trips' (num_add i one) right (array ++ [VNum i])
      else array
  end.

(** The largest length of an array in the language; the engines stop
    earlier. *)
Definition max_array_length : Z := 2 ^ 32 - 1.

(** The elements make an array. *)
Definition fits (l : list jsval) : bool :=
  Z.of_nat (List.length l) <=? max_array_length.

(** The number of steps after which the loop of [range] ends, if it
    does.  With [left > right] it ends at once.  Up to
    [max_safe_integer] counting is exact: the loop ends after
    [right - left + 1] steps when the array takes that many elements.
    From [2^53] on [i + 1] is no double and [i++] rounds it: back to
    [i], except where [i] is below [2^54] with an odd significand
    ([i mod 4 = 2]), where the even neighbour is [i + 2].  So with
    [right] at [2^53] or more the loop ends, after one step, only when
    [left = right] is such a number; otherwise the counter stops before
    it passes [right], the array grows until it is full, and the call
    ends with a [RangeError] instead of a value: that is [None].  Both
    bounds are [parseInt] of digits, so a non-negative integer or
    [Infinity]. *)
Definition range_trips (left right : num) : option nat :=
  if negb (num_leb left right) then Some 0%nat
  else
    match left, right with
    | Fin a 0, Fin b 0 =>
        if b <=? max_safe_integer then
          if b - a + 1 <=? max_array_length
          then Some (Z.to_nat (b - a + 1))
          else None
        else if (a =? b) && (a <? 2 ^ 54) && (a mod 4 =? 2) then Some 1%nat
        else None
    | _, _ => None
    end.

Definition range : parser :=
  fun pos =>
    let* (result, pos) := sequence [value; _range_; value] pos in
    if negb (is_null result) then
      let left := parseInt (get_index result 0) 10 in
      let right := parseInt (get_index result 2) 10 in
      match range_trips left right with
      | Some trips => Some (VArr (range_loop trips left right []), pos)
      | None => None
      end
    else Some (VNull, pos).

Definition rangeTail (rangeList : parser) : parser :=
  fun pos =>
    let* (result, pos) := sequence [_comma_; rangeList] pos in
    if negb (is_null result) then Some (get_index result 1, pos)
    else Some (VNull, pos).

(** [rangeList] and [rangeTail] call each other; [fuel] bounds the depth.
    [concat] ends with a [RangeError] when the array it builds would hold
    more than [max_array_length] elements.  The first call copies one
    value or the array of one range, so the test is made on the list
    that is returned. *)
Fixpoint rangeList (fuel : nat) : parser :=
  match fuel with
  | O => fun _ => None
  | S fuel' =>
      fun pos =>
        let* (result, pos) :=
          sequence [choice [range; value];
                    nOrMore 0 (rangeTail (rangeList fuel'))] pos in
        let resultList : list jsval := [] in
        if negb (is_null result) then
          let resultList := js_concat resultList (get_index result 0) in
          let resultList :=
            if truthy (get_index (get_index result 1) 0)
            then js_concat resultList (get_index (get_index result 1) 0)
            else resultList in
          if fits resultList then Some (VArr resultList, pos) else None
        else Some (VNull, pos)
  end.

(** *** Relations *)

Definition is_ : parser :=
  fun pos =>
    let* (result, pos) :=
      sequence [expression; whitespace; _is_; whitespace; value] pos in
    if negb (is_null result) then
      Some (VBool (strict_eq (get_index result 0)
                             (VNum (parseInt (get_index result 4) 10))), pos)
    else Some (VNull, pos).

Definition isnot : parser :=
  fun pos =>
    let* (result, pos) :=
      sequence [expression; whitespace; choice [_isnot_; _isnot_sign_];
                whitespace; value] pos in
    if negb (is_null result) then
      Some (VBool (negb (strict_eq (get_index result 0)
                           (VNum (parseInt (get_index result 4) 10)))), pos)
    else Some (VNull, pos).

(** The membership loops of [not_in] and [_in]: is some
    [parseInt(range_list[i], 10)] strictly equal to [x]? *)
Fixpoint member (x : jsval) (range_list : list jsval) : bool :=
  match range_list with
  | [] => false
  | e :: rest =>
      if strict_eq (VNum (parseInt e 10)) x then true else member x rest
  end.

Definition elements (v : jsval) : list jsval :=
  match v with VArr l => l | _ => [] end.

Definition not_in : parser :=
  fun pos =>
    let* (result, pos) :=
      sequence [expression; whitespace; _isnot_sign_; whitespace;
                rangeList max_fuel] pos in
    if negb (is_null result) then
      let range_list := get_index result 4 in
      Some (VBool (negb (member (get_index result 0) (elements range_list))),
            pos)
    else Some (VNull, pos).

Definition _in : parser :=
  fun pos =>
    let* (result, pos) :=
      sequence [expression; nOrMore 0 not_; whitespace;
                choice [_in_; _equal_]; whitespace; rangeList max_fuel] pos in
    if negb (is_null result) then
      let range_list := get_index result 5 in
      let is_not := get_index (get_index result 1) 0 in
      if member (get_index result 0) (elements range_list)
      then Some (VBool (negb (strict_eq is_not (VStr "not"))), pos)
      else Some (VBool (strict_eq is_not (VStr "not")), pos)
    else Some (VNull, pos).

(** [a >= b] and [a < b]; both operands are numbers wherever the program
    compares (see [expression_number]). *)
Definition js_ge (a b : jsval) : bool :=
  match a, b with
  | VNum x, VNum y => num_geb x y
  | _, _ => false
  end.

Definition js_lt (a b : jsval) : bool :=
  match a, b with
  | VNum x, VNum y => num_ltb x y
  | _, _ => false
  end.

(** [range_list.length - 1]. *)
Definition last_index (range_list : jsval) : Z :=
  Z.of_nat (List.length (elements range_list)) - 1.

Definition within : parser :=
  fun pos =>
    let* (result, pos) :=
      sequence [expression; nOrMore 0 not_; whitespace; _within_;
                whitespace; rangeList max_fuel] pos in
    if negb (is_null result) then
      let range_list := get_index result 5 in
      let is_not := get_index (get_index result 1) 0 in
      if js_ge (get_index result 0)
               (VNum (parseInt (get_index range_list 0) 0))
         && js_lt (get_index result 0)
               (VNum (parseInt (get_index range_list (last_index range_list))
                               0))
      then Some (VBool (negb (strict_eq is_not (VStr "not"))), pos)
      else Some (VBool (strict_eq is_not (VStr "not")), pos)
    else Some (VNull, pos).

Definition relation : parser := choice [is_; not_in; isnot; _in; within].

(** *** Conditions *)

Definition and_ (condition : parser) : parser :=
  fun pos =>
    let* (result, pos) :=
      sequence [relation; whitespace; _and_; whitespace; condition] pos in
    if truthy result
    then Some (js_and (get_index result 0) (get_index result 4), pos)
    else Some (VNull, pos).

Definition or_ (condition : parser) : parser :=
  fun pos =>
    let* (result, pos) :=
      sequence [relation; whitespace; _or_; whitespace; condition] pos in
    if truthy result
    then Some (js_or (get_index result 0) (get_index result 4), pos)
    else Some (VNull, pos).

(** [condition] calls itself through [and] and [or]; [fuel] bounds the
    depth. *)
Fixpoint condition (fuel : nat) : parser :=
  match fuel with
  | O => fun _ => None
  | S fuel' =>
      fun pos =>
        let* (result, pos) :=
          sequence [choice [and_ (condition fuel'); or_ (condition fuel');
                            relation]] pos in
        if truthy result then Some (get_index result 0, pos)
        else Some (VBool false, pos)
  end.

Definition start : parser := condition max_fuel.

End Parser.

(** ** The driver *)

(** How a call ends: a returned value or a thrown [Error]. *)
Inductive completion : Type :=
| Return (v : jsval)
| Throw (message : string).

(** The result of a call: how it ended and the lines written with
    [console.log]. *)
Record outcome : Type := mkOutcome {
  completed : completion;
  console : list string
}.

Definition pluralRuleParser (rule : string) (number : num) : option outcome :=
  let rule := trim (substr rule 0 (indexOf rule "@")) in
  if (String.length rule =? 0)%nat then
    Some (mkOutcome (Return (VBool true)) [])
  else
    let* (result, pos) := start rule number 0%nat in
    if is_null result then
      Some (mkOutcome
              (Throw ("Parse error at position " ++ string_of_nat pos
                      ++ " for rule: " ++ rule)) [])
    else if negb (pos =? String.length rule)%nat then
      Some (mkOutcome (Return result)
              ["Warning: Rule not parsed completely. Parser stopped at "
               ++ substr rule 0 (Z.of_nat pos) ++ " for rule: " ++ rule])
    else Some (mkOutcome (Return result) []).

Definition run (rule : string) (x : num) : option completion :=
  option_map completed (pluralRuleParser rule x).

(** The text that [pluralRuleParser] parses: the rule cut at its first
    [@] and trimmed. *)
Definition parsed_text (rule : string) : string :=
  trim (substr rule 0 (indexOf rule "@")).

(** ** Cursor discipline and termination, as predicates on parsers *)

(** [p] returns [v] at [pos] and leaves the cursor at [pos']. *)
Definition returns (p : parser) (pos : nat) (v : jsval) (pos' : nat) : Prop :=
  p pos = Some (v, pos').

(** A failing call leaves the cursor where it was; any call moves it
    along [R]. *)
Definition moves (R : nat -> nat -> Prop) (p : parser) : Prop :=
  forall pos v pos',
    returns p pos v pos' -> (v = VNull -> pos' = pos) /\ R pos pos'.

(** The cursor contract of the combinators: restored on failure, never
    moved backward. *)
Definition restoring : parser -> Prop := moves le.

(** The contract of the productions of one rule: the cursor is unchanged
    or moved forward inside the rule text. *)
Definition inside (rule : string) (a b : nat) : Prop :=
  a = b \/ (a < b /\ b <= String.length rule)%nat.

Definition safe (rule : string) : parser -> Prop := moves (inside rule).

(** A successful call consumes text. *)
Definition consuming (p : parser) : Prop :=
  forall pos v pos', returns p pos v pos' -> v <> VNull -> (pos < pos')%nat.

(** [p] returns (its fuel suffices) at every position from [lo] on. *)
Definition total_from (lo : nat) (p : parser) : Prop :=
  forall pos, (lo <= pos)%nat -> exists v pos', p pos = Some (v, pos').

Definition total (p : parser) : Prop := total_from 0 p.

(** Whatever [p] returns, [p'] returns too. *)
Definition refines (p p' : parser) : Prop :=
  forall pos r, p pos = Some r -> p' pos = Some r.

(** ** What a successful [sequence] and a [nOrMore] loop did *)

(** [seq_run ps pos l pos']: the parsers [ps], run one after the other
    from [pos], returned the values [l], none of them [null], and left
    the cursor at [pos']. *)
Inductive seq_run : list parser -> nat -> list jsval -> nat -> Prop :=
| seq_nil (pos : nat) : seq_run [] pos [] pos
| seq_cons (p : parser) (ps : list parser) (pos q pos' : nat)
    (r : jsval) (l : list jsval) :
    p pos = Some (r, q) -> r <> VNull -> seq_run ps q l pos' ->
    seq_run (p :: ps) pos (r :: l) pos'.

(** [rep_run p pos l pos']: [p], called again and again from [pos],
    returned the values [l] and then [null], leaving the cursor at
    [pos']. *)
Inductive rep_run (p : parser) : nat -> list jsval -> nat -> Prop :=
| rep_stop (pos q : nat) : p pos = Some (VNull, q) -> rep_run p pos [] q
| rep_step (pos q pos' : nat) (r : jsval) (l : list jsval) :
    p pos = Some (r, q) -> r <> VNull -> rep_run p q l pos' ->
    rep_run p pos (r :: l) pos'.

(** ** Productions that test the result of one call *)

(** [q] calls [p] once, returns [null] when [p] did and [g] of its result
    otherwise; the cursor is where [p] left it. *)
Definition wraps (q p : parser) (g : jsval -> jsval) : Prop :=
  forall pos,
    match p pos with
    | None => q pos = None
    | Some (r, pos') => q pos = Some (if is_null r then VNull else g r, pos')
    end.

(** [g] turns no result of [p] into [null]. *)
Definition keeps (p : parser) (g : jsval -> jsval) : Prop :=
  forall pos v pos', returns p pos v pos' -> v <> VNull -> g v <> VNull.

(** The list that [rangeList] builds from the result of its
    [sequence]. *)
Definition list_of (result : jsval) : list jsval :=
  let resultList := js_concat [] (get_index result 0) in
  if truthy (get_index (get_index result 1) 0)
  then js_concat resultList (get_index (get_index result 1) 0)
  else resultList.

(** Every range list of the rule is built: [rangeList] returns wherever
    it is called.  It does not where the loop of a range does not end or
    the list is longer than an array can be. *)
Definition halting (rule : string) : Prop :=
  total (rangeList rule (max_fuel rule)).

(** Safe and consuming, and total when the range lists are built: the
    tokens, operands and relations. *)
Definition good (rule : string) (p : parser) : Prop :=
  safe rule p /\ consuming p /\ (halting rule -> total p).

(** Every result of [p] is [null] or satisfies [P]. *)
Definition yields (P : jsval -> Prop) (p : parser) : Prop :=
  forall pos v pos', returns p pos v pos' -> v = VNull \/ P v.

Definition is_number (v : jsval) : Prop := exists x, v = VNum x.

Definition is_boolean (v : jsval) : Prop := exists b, v = VBool b.

(** ** Names for parts of the productions *)

(** [parseInt(...) || 0] and [parseInt(...).length || 0] are numbers. *)
Definition t_value (number : num) : num :=
  match js_or (VNum (parseInt (fraction_text number) 0)) (VNum zero) with
  | VNum x => x
  | _ => NaN
  end.

Definition v_value (number : num) : num :=
  num_add (parseInt (VNum (num_rem number one)) 0)
          (num_of_Z (Z.of_nat (String.length ""))).

(** Whether the first element of the parsed [not]s is ['not']. *)
Definition negated (result : jsval) : bool :=
  strict_eq (get_index (get_index result 1) 0) (VStr "not").

(** The containment test of [within]. *)
Definition contained (result : jsval) : bool :=
  let range_list := get_index result 5 in
  js_ge (get_index result 0) (VNum (parseInt (get_index range_list 0) 0))
  && js_lt (get_index result 0)
       (VNum (parseInt (get_index range_list (last_index range_list)) 0)).

(** The sequence of [and] and of [or]: a relation, a keyword, and the
    rest of the condition. *)
Definition junction (rule : string) (number : num) (kw c : parser)
  : list parser :=
  [relation rule number; whitespace rule; kw; whitespace rule; c].

(** The alternatives of [condition]. *)
Definition alternatives (rule : string) (number : num) (c : parser)
  : list parser :=
  [and_ rule number c; or_ rule number c; relation rule number].

(** Every call of [sequence] and of [nOrMore] that the productions make,
    in the order of the source: [mod], [not], [is], [isnot], [not_in],
    [rangeList] (both combinators), [rangeTail], [range], [_in] (both),
    [within], [and], [or], [condition]. *)
Definition invocations (rule : string) (number : num) (fuel : nat)
  : list parser :=
  [ sequence [operand rule number; whitespace rule;
              choice [_mod_ rule; _percent_ rule]; whitespace rule;
              value rule];
    sequence [whitespace rule; _not_ rule];
    sequence [expression rule number; whitespace rule; _is_ rule;
              whitespace rule; value rule];
    sequence [expression rule number; whitespace rule;
              choice [_isnot_ rule; _isnot_sign_ rule]; whitespace rule;
              value rule];
    sequence [expression rule number; whitespace rule; _isnot_sign_ rule;
              whitespace rule; rangeList rule (max_fuel rule)];
    sequence [choice [range rule; value rule];
              nOrMore rule 0 (rangeTail rule (rangeList rule fuel))];
    nOrMore rule 0 (rangeTail rule (rangeList rule fuel));
    sequence [_comma_ rule; rangeList rule fuel];
    sequence [value rule; _range_ rule; value rule];
    sequence [expression rule number; nOrMore rule 0 (not_ rule);
              whitespace rule; choice [_in_ rule; _equal_ rule];
              whitespace rule; rangeList rule (max_fuel rule)];
    nOrMore rule 0 (not_ rule);
    sequence [expression rule number; nOrMore rule 0 (not_ rule);
              whitespace rule; _within_ rule; whitespace rule;
              rangeList rule (max_fuel rule)];
    sequence (junction rule number (_and_ rule) (condition rule number fuel));
    sequence (junction rule number (_or_ rule) (condition rule number fuel));
    sequence [choice (alternatives rule number (condition rule number fuel))]
  ].

(** ** Rule texts *)

(** Does the character [c] occur in [s]? *)
Fixpoint occurs (c : ascii) (s : string) : bool :=
  match s with
  | EmptyString => false
  | String b s' => Ascii.eqb c b || occurs c s'
  end.

(** Is every character of [s] in the class [cls]? *)
Fixpoint all_chars (cls : ascii -> bool) (s : string) : bool :=
  match s with
  | EmptyString => true
  | String b s' => cls b && all_chars cls s'
  end.

(** ** Range lists as the specification describes them *)

(** An item of a range list, as written: a bare value or a range
    [left..right]. *)
Inductive item : Type :=
| Bare (digits : string)
| Span (left right : string).

(** A value of the grammar: one or more digits. *)
Definition is_value (d : string) : Prop :=
  d <> "" /\ all_chars is_digit d = true.

Definition well_formed (it : item) : Prop :=
  match it with
  | Bare d => is_value d
  | Span a b => is_value a /\ is_value b
  end.

(** The integer that a value denotes. *)
Definition integer (d : string) : Z := digits_value 10 d 0.

(** The inclusive integer sequence [a, a+1, ..., b]; empty when [a > b]. *)
Definition inclusive (a b : Z) : list Z :=
  map (fun k => a + Z.of_nat k) (seq 0 (Z.to_nat (b - a + 1))).

(** What an item contributes: a bare value contributes itself, a range
    its inclusive integer sequence. *)
Definition item_values (it : item) : list jsval :=
  match it with
  | Bare d => [VStr d]
  | Span a b => map (fun z => VNum (num_of_Z z)) (inclusive (integer a) (integer b))
  end.

Definition item_text (it : item) : string :=
  match it with
  | Bare d => d
  | Span a b => a ++ ".." ++ b
  end.

(** The items separated by commas. *)
Definition list_text (items : list item) : string :=
  String.concat "," (map item_text items).

(** The rule text between two cursor positions. *)
Definition reads (rule : string) (pos pos' : nat) (s : string) : Prop :=
  (pos <= pos')%nat /\ substring pos (pos' - pos) rule = s.

(** The number that an element of a range list stands for: a number
    itself, the digits of a value the double nearest to their integer. *)
Definition element (e : jsval) : num :=
  match e with
  | VNum x => x
  | VStr d => binary64 (integer d)
  | _ => NaN
  end.

(** What a parsed range list holds: the digits of bare values, and the
    integers, below [2^54], that the loop of [range] built. *)
Definition list_element (e : jsval) : Prop :=
  (exists d, e = VStr d /\ is_value d) \/
  (exists z, e = VNum (num_of_Z z) /\ 0 <= z < 2 ^ 54).

(** [first <= x < last] for the first and the last listed element; no
    element, no containment. *)
Definition between (x : num) (range_list : list jsval) : bool :=
  match range_list with
  | [] => false
  | first :: _ =>
      num_leb (element first) x && num_ltb x (element (last range_list first))
  end.

Definition is_nil {A : Type} (l : list A) : bool :=
  match l with [] => true | _ => false end.

(** ** Further notions used to state what the productions compute *)

(** Is [x] equal to the number of some element of the range list? *)
Definition listed (x : num) (range_list : list jsval) : bool :=
  existsb (fun e => num_eqb (element e) x) range_list.

(** Every parser of the list returns [null] at [pos] without moving. *)
Definition all_fail (ps : list parser) (pos : nat) : Prop :=
  Forall (fun p : parser => p pos = Some (VNull, pos)) ps.

(** The token [whitespace] succeeded at [pos] and left the cursor at
    [pos']. *)
Definition consumed_whitespace (rule : string) (pos pos' : nat) : Prop :=
  exists w, whitespace rule pos = Some (w, pos') /\ w <> VNull.

(** A number that prints without an exponent and without a sign: zero,
    or at least [10^-6] and below [10^21]. *)
Definition plain (x : num) : Prop :=
  match x with
  | Fin m e => m = 0 \/ (0 < m /\ pow10 e <= m * 10 ^ 6 /\ m < 10 ^ 21 * pow10 e)
  | _ => False
  end.

(** The integer part of a non-negative number. *)
Definition integer_part (x : num) : Z :=
  match x with
  | Fin m e => m / pow10 e
  | _ => 0
  end.

(** The rule text [n is d] for a value [d]. *)
Definition n_is_text (d : string) : string := "n is " ++ d.

(** ** Where the decimals of the model are the doubles of the source *)

(** A value of a rule whose integer is read exactly. *)
Definition safe_value (d : string) : Prop := integer d <= max_safe_integer.

(** A number of elements that an array takes.  The language allows
    [2^32 - 1] elements and the engines fewer; that a written range list
    is read to its end is stated for lists of at most this length. *)
Definition array_capacity : Z := 2 ^ 24.

(** An item whose range, if it is one, ends at a value that is read
    exactly: counting up to it is exact. *)
Definition modest (it : item) : Prop :=
  match it with
  | Bare _ => True
  | Span _ b => safe_value b
  end.

(** A written range list whose ranges end at values that are read
    exactly, so that every loop of [range] ends, and whose elements fit
    into an array. *)
Definition modest_list (items : list item) : Prop :=
  Forall modest items /\
  Z.of_nat (List.length (flat_map item_values items)) <= array_capacity.

(** The double nearest to [a] is at most the one nearest to [b]: the
    test [left <= right] of the loop of [range] on the values [a] and
    [b]. *)
Definition meet (a b : string) : bool :=
  num_leb (binary64 (integer a)) (binary64 (integer b)).

(** An item on which the loop of [range], if it is a range, ends. *)
Definition halts_on (it : item) : Prop :=
  match it with
  | Bare _ => True
  | Span a b =>
      exists trips,
        range_trips (binary64 (integer a)) (binary64 (integer b)) = Some trips
  end.

(** ** Texts that end a value or a range list *)

(** [rest] does not continue a value: it is empty or starts with a
    character that is no digit. *)
Definition ends_value (rest : string) : Prop :=
  match rest with
  | EmptyString => True
  | String c _ => is_digit c = false
  end.

(** [rest] does not start with the character [c]. *)
Definition head_is_not (c : ascii) (rest : string) : Prop :=
  match rest with
  | EmptyString => True
  | String b _ => b <> c
  end.

(** [rest] does not continue a range list: it starts with no digit, no
    dot and no comma. *)
Definition stops (rest : string) : Prop :=
  ends_value rest /\ head_is_not "." rest /\ head_is_not "," rest.

(** ** A keyword between two relations *)

(** From [q] on, the rule holds whitespace, the keyword read by [kw], and
    whitespace again, up to [q3]. *)
Definition joined (rule : string) (kw : parser) (q q3 : nat) : Prop :=
  exists q1 k q2,
    consumed_whitespace rule q q1 /\
    kw q1 = Some (k, q2) /\ k <> VNull /\
    consumed_whitespace rule q2 q3.

(** ** The model on the examples of the specification *)

Example parseInt_half : parseInt (VNum (Fin 5 1)) 0 = Fin 0 0.
Proof. reflexivity. Qed.

Example to_string_samples :
  map num_to_string
      [Fin 150 2; Fin 5 1; Fin 12345 0; Fin 1 7; Fin 1 6; Fin 1 0;
       Fin (-25) 1; Fin 1000000000000000000000 0; Fin 123 25]
  = ["1.5"; "0.5"; "12345"; "1e-7"; "0.000001"; "1";
     "-2.5"; "1e+21"; "1.23e-23"].
Proof. vm_compute. reflexivity. Qed.

Example ex_is_1 : map (run "n is 1 @integer 1")
    [Fin 1 0; Fin 2 0; Fin 15 1; Fin 10 1]
  = map (fun b => Some (Return (VBool b))) [true; false; false; true].
Proof. vm_compute. reflexivity. Qed.

Example ex_mod : map (run "n mod 10 is 1 and n mod 100 is not 11@")
    [Fin 1 0; Fin 21 0; Fin 31 0; Fin 11 0; Fin 111 0]
  = map (fun b => Some (Return (VBool b))) [true; true; true; false; false].
Proof. vm_compute. reflexivity. Qed.

Example ex_in : map (run "n in 0..5@")
    [Fin 0 0; Fin 5 0; Fin 6 0; Fin 25 1]
  = map (fun b => Some (Return (VBool b))) [true; true; false; false].
Proof. vm_compute. reflexivity. Qed.

Example ex_within : map (run "n within 0..5@")
    [Fin 25 1; Fin 5 0; Fin 6 0]
  = map (fun b => Some (Return (VBool b))) [true; false; false].
Proof. vm_compute. reflexivity. Qed.

Example ex_list : map (run "n in 1..2,4,6..7@")
    [Fin 1 0; Fin 2 0; Fin 3 0; Fin 4 0; Fin 5 0; Fin 6 0; Fin 7 0; Fin 8 0]
  = map (fun b => Some (Return (VBool b)))
      [true; true; false; true; false; true; true; false].
Proof. vm_compute. reflexivity. Qed.

(** ** Facts about strings *)

Lemma is_null_true (v : jsval) : is_null v = true <-> v = VNull.
Proof. destruct v; simpl; split; intro H; congruence. Qed.

Lemma is_null_false (v : jsval) : is_null v = false <-> v <> VNull.
Proof. destruct v; simpl; split; intro H; congruence. Qed.

Lemma substring_length (s : string) :
  forall a k, String.length (substring a k s) = Nat.min k (String.length s - a).
Proof.
  induction s as [|c s IH]; intros a k.
  - destruct a, k; reflexivity.
  - destruct a as [|a].
    + destruct k as [|k]; simpl; [reflexivity|].
      rewrite IH. now rewrite Nat.sub_0_r.
    + simpl. apply IH.
Qed.

Lemma substring_split (s : string) :
  forall a j k,
    substring a (j + k) s = substring a j s ++ substring (a + j) k s.
Proof.
  induction s as [|c s IH]; intros a j k.
  - destruct a, j, k; reflexivity.
  - destruct a as [|a].
    + destruct j as [|j]; simpl.
      * destruct k; reflexivity.
      * now rewrite IH.
    + simpl. apply IH.
Qed.

Lemma substring_substring (s : string) :
  forall a m k, (k <= m)%nat ->
    substring 0 k (substring a m s) = substring a k s.
Proof.
  induction s as [|c s IH]; intros a m k Hk.
  - destruct a, m, k; reflexivity.
  - destruct a as [|a].
    + destruct k as [|k].
      * destruct m; simpl; [reflexivity|]. reflexivity.
      * destruct m as [|m]; [lia|]. simpl. f_equal. apply IH. lia.
    + simpl. apply IH. exact Hk.
Qed.

Lemma take_while_prefix (cls : ascii -> bool) (s : string) :
  substring 0 (String.length (take_while cls s)) s = take_while cls s.
Proof.
  induction s as [|c s IH]; simpl; [reflexivity|].
  destruct (cls c); simpl; [now rewrite IH | reflexivity].
Qed.

Lemma take_while_length (cls : ascii -> bool) (s : string) :
  (String.length (take_while cls s) <= String.length s)%nat.
Proof.
  induction s as [|c s IH]; simpl; [lia|].
  destruct (cls c); simpl; lia.
Qed.

(** The text matched by [/^c+/] is what the rule holds at the cursor. *)
Lemma re_plus_match (cls : ascii -> bool) (rule : string) (pos : nat) (m : string) :
  re_plus cls (substr_from rule pos) = Some m ->
  m <> "" /\ m = take_while cls (substr_from rule pos) /\
  substring pos (String.length m) rule = m /\
  (pos + String.length m <= String.length rule)%nat /\
  (0 < String.length m)%nat.
Proof.
  unfold re_plus. intros H.
  destruct (String.eqb_spec (take_while cls (substr_from rule pos)) "") as [E|E];
    [discriminate|].
  injection H as <-.
  set (m := take_while cls (substr_from rule pos)) in *.
  assert (Hlen : (String.length m <= String.length rule - pos)%nat).
  { pose proof (take_while_length cls (substr_from rule pos)) as L.
    unfold substr_from in L. rewrite substring_length in L. fold m.
    unfold m, substr_from. lia. }
  assert (Hpos : (0 < String.length m)%nat).
  { destruct m; [congruence | simpl; lia]. }
  repeat split; try assumption; try lia.
  rewrite <- (substring_substring rule pos (String.length rule - pos)) by exact Hlen.
  apply take_while_prefix.
Qed.

(** ** The cursor discipline of the combinators *)

Section Moves.

(** How far a parser may move the cursor, as a preorder on positions. *)
Variable R : nat -> nat -> Prop.
Hypothesis R_refl : forall a, R a a.
Hypothesis R_trans : forall a b c, R a b -> R b c -> R a c.

Lemma choice_moves (ps : list parser) :
  Forall (moves R) ps -> moves R (choice ps).
Proof.
  induction 1 as [|p ps Hp _ IH]; intros pos v pos'; unfold returns; simpl.
  - intros [= <- <-]. auto.
  - destruct (p pos) as [[r q]|] eqn:E; [|discriminate].
    destruct (Hp _ _ _ E) as [Hnull HR].
    destruct (is_null r) eqn:N.
    + apply is_null_true in N. rewrite (Hnull N). apply IH.
    + intros [= <- <-]. split; [|exact HR].
      intros ->. discriminate.
Qed.

Lemma sequence_loop_moves (ps : list parser) :
  Forall (moves R) ps ->
  forall orig acc pos v pos',
    R orig pos ->
    sequence_loop ps orig acc pos = Some (v, pos') ->
    (v = VNull -> pos' = orig) /\ R orig pos'.
Proof.
  induction 1 as [|p ps Hp _ IH]; intros orig acc pos v pos' HR; simpl.
  - intros [= <- <-]. split; [discriminate | exact HR].
  - destruct (p pos) as [[r q]|] eqn:E; [|discriminate].
    destruct (is_null r).
    + intros [= <- <-]. auto.
    + apply IH. apply R_trans with pos; [exact HR|]. apply (Hp _ _ _ E).
Qed.

Lemma sequence_moves (ps : list parser) :
  Forall (moves R) ps -> moves R (sequence ps).
Proof.
  intros H pos v pos' E. apply (sequence_loop_moves ps H pos [] pos); auto.
Qed.

Lemma nOrMore_loop_moves (p : parser) :
  moves R p ->
  forall fuel acc pos res pos',
    nOrMore_loop fuel p acc pos = Some (res, pos') -> R pos pos'.
Proof.
  intros Hp. induction fuel as [|fuel IH]; intros acc pos res pos'; simpl;
    [discriminate|].
  destruct (p pos) as [[r q]|] eqn:E; [|discriminate].
  destruct (Hp _ _ _ E) as [_ HR].
  destruct (is_null r).
  - intros [= <- <-]. exact HR.
  - intros H. apply R_trans with q; [exact HR | exact (IH _ _ _ _ H)].
Qed.

Lemma nOrMore_moves (rule : string) (k : nat) (p : parser) :
  moves R p -> moves R (nOrMore rule k p).
Proof.
  intros Hp pos v pos'. unfold returns, nOrMore.
  destruct (nOrMore_loop (max_fuel rule) p [] pos) as [[res q]|] eqn:E;
    [|discriminate].
  destruct (List.length res <? k)%nat.
  - intros [= <- <-]. auto.
  - intros [= <- <-]. split; [discriminate|].
    exact (nOrMore_loop_moves p Hp _ _ _ _ _ E).
Qed.

End Moves.

Lemma inside_refl (rule : string) (a : nat) : inside rule a a.
Proof. now left. Qed.

Lemma inside_trans (rule : string) (a b c : nat) :
  inside rule a b -> inside rule b c -> inside rule a c.
Proof. unfold inside. lia. Qed.

Lemma inside_le (rule : string) (a b : nat) : inside rule a b -> (a <= b)%nat.
Proof. unfold inside. lia. Qed.

Lemma safe_restoring (rule : string) (p : parser) :
  safe rule p -> restoring p.
Proof.
  intros H pos v pos' E. destruct (H _ _ _ E) as [Hn HR].
  split; [exact Hn | exact (inside_le _ _ _ HR)].
Qed.

Create HintDb cursor.
#[local] Hint Resolve inside_refl inside_trans Nat.le_refl Nat.le_trans : cursor.

(** *** Inversion of [sequence] and of the loop of [nOrMore] *)

Lemma sequence_loop_inv (ps : list parser) :
  forall orig acc pos v pos',
    sequence_loop ps orig acc pos = Some (v, pos') ->
    (v = VNull /\ pos' = orig) \/
    (exists l, v = VArr (acc ++ l) /\ seq_run ps pos l pos').
Proof.
  induction ps as [|p ps IH]; intros orig acc pos v pos'; simpl.
  - intros [= <- <-]. right. exists []. rewrite app_nil_r.
    split; [reflexivity | constructor].
  - destruct (p pos) as [[r q]|] eqn:E; [|discriminate].
    destruct (is_null r) eqn:N.
    + intros [= <- <-]. now left.
    + intros H. destruct (IH _ _ _ _ _ H) as [?|(l & -> & Hl)]; [now left|].
      right. exists (r :: l). rewrite <- app_assoc. split; [reflexivity|].
      apply is_null_false in N. econstructor; eassumption.
Qed.

Lemma sequence_inv (ps : list parser) (pos : nat) (v : jsval) (pos' : nat) :
  sequence ps pos = Some (v, pos') ->
  (v = VNull /\ pos' = pos) \/ (exists l, v = VArr l /\ seq_run ps pos l pos').
Proof. apply sequence_loop_inv. Qed.

Lemma nOrMore_loop_inv (p : parser) :
  forall fuel acc pos res pos',
    nOrMore_loop fuel p acc pos = Some (res, pos') ->
    exists l, res = (acc ++ l)%list /\ rep_run p pos l pos'.
Proof.
  induction fuel as [|fuel IH]; intros acc pos res pos'; simpl; [discriminate|].
  destruct (p pos) as [[r q]|] eqn:E; [|discriminate].
  destruct (is_null r) eqn:N.
  - intros [= <- <-]. apply is_null_true in N. subst r.
    exists []. rewrite app_nil_r. split; [reflexivity | now constructor].
  - intros H. destruct (IH _ _ _ _ H) as (l & -> & Hl).
    exists (r :: l). rewrite <- app_assoc. split; [reflexivity|].
    apply is_null_false in N. econstructor; eassumption.
Qed.

(** With a minimum of zero, [nOrMore] always succeeds. *)
Lemma nOrMore_0_inv (rule : string) (p : parser) (pos : nat) (v : jsval)
    (pos' : nat) :
  nOrMore rule 0 p pos = Some (v, pos') ->
  exists l, v = VArr l /\ rep_run p pos l pos'.
Proof.
  unfold nOrMore.
  destruct (nOrMore_loop (max_fuel rule) p [] pos) as [[res q]|] eqn:E;
    [|discriminate].
  simpl. intros [= <- <-].
  destruct (nOrMore_loop_inv _ _ _ _ _ _ E) as (l & -> & Hl). eauto.
Qed.

Lemma seq_run_nil_inv (pos : nat) (l : list jsval) (pos' : nat) :
  seq_run [] pos l pos' -> l = [] /\ pos' = pos.
Proof. intros H. inversion H. auto. Qed.

Lemma seq_run_cons_inv (p : parser) (ps : list parser) (pos : nat)
    (l : list jsval) (pos' : nat) :
  seq_run (p :: ps) pos l pos' ->
  exists r q l',
    l = r :: l' /\ p pos = Some (r, q) /\ r <> VNull /\ seq_run ps q l' pos'.
Proof. intros H. inversion H; subst. eauto 8. Qed.

(** Inversion of a [seq_run] over a list of known shape. *)
Ltac seq_inv H :=
  match type of H with
  | seq_run [] _ _ _ =>
      apply seq_run_nil_inv in H; destruct H as [-> <-]
  | seq_run (_ :: _) _ _ _ =>
      let r := fresh "r" in
      let q := fresh "q" in
      let l := fresh "l" in
      let H1 := fresh "Hp" in
      let H2 := fresh "Hnn" in
      let H3 := fresh "Hrest" in
      apply seq_run_cons_inv in H;
      destruct H as (r & q & l & -> & H1 & H2 & H3); seq_inv H3
  end.

Lemma seq_run_moves (R : nat -> nat -> Prop) (ps : list parser) :
  (forall a, R a a) -> (forall a b c, R a b -> R b c -> R a c) ->
  Forall (moves R) ps ->
  forall pos l pos', seq_run ps pos l pos' -> R pos pos'.
Proof.
  intros Hrefl Htrans HF pos l pos' H. induction H as [|p ps pos q pos' r l E N _ IH].
  - apply Hrefl.
  - inversion HF as [|? ? Hp Hps]; subst.
    apply Htrans with q; [apply (Hp _ _ _ E) | apply IH; exact Hps].
Qed.

(** Elements of a successful [sequence] are not [null], one per parser. *)
Lemma seq_run_length (ps : list parser) (pos : nat) (l : list jsval) (pos' : nat) :
  seq_run ps pos l pos' ->
  List.length l = List.length ps /\ Forall (fun v => v <> VNull) l.
Proof.
  induction 1 as [|p ps pos q pos' r l E N _ [IH1 IH2]]; simpl.
  - split; [reflexivity | constructor].
  - split; [now rewrite IH1 | now constructor].
Qed.

Lemma choice_consuming (ps : list parser) :
  Forall restoring ps -> Forall consuming ps -> consuming (choice ps).
Proof.
  induction 1 as [|p ps Hp _ IH]; intros HC pos v pos'; unfold returns; simpl.
  - intros [= <- <-] N. congruence.
  - inversion HC as [|? ? Hc Hcs]; subst.
    destruct (p pos) as [[r q]|] eqn:E; [|discriminate].
    destruct (is_null r) eqn:N.
    + apply is_null_true in N. destruct (Hp _ _ _ E) as [Hn _].
      rewrite (Hn N). apply IH. exact Hcs.
    + intros [= <- <-] _. apply is_null_false in N. exact (Hc _ _ _ E N).
Qed.

Lemma sequence_consuming (p : parser) (ps : list parser) :
  consuming p -> Forall restoring ps -> consuming (sequence (p :: ps)).
Proof.
  intros Hc Hps pos v pos' E N.
  destruct (sequence_inv _ _ _ _ E) as [[-> _]|(l & -> & Hl)]; [congruence|].
  inversion Hl as [|? ? ? q ? r l' E1 N1 Hrest]; subst.
  pose proof (Hc _ _ _ E1 N1).
  pose proof (seq_run_moves le ps Nat.le_refl Nat.le_trans Hps _ _ _ Hrest).
  lia.
Qed.

(** *** Termination of the combinators *)

Lemma total_total_from (lo : nat) (p : parser) : total p -> total_from lo p.
Proof. intros H pos _. apply H. lia. Qed.

Lemma total_from_le (lo lo' : nat) (p : parser) :
  (lo <= lo')%nat -> total_from lo p -> total_from lo' p.
Proof. intros L H pos Hpos. apply H. lia. Qed.

Lemma choice_total_from (lo : nat) (ps : list parser) :
  Forall restoring ps -> Forall (total_from lo) ps ->
  total_from lo (choice ps).
Proof.
  induction 1 as [|p ps Hp _ IH]; intros HT pos Hpos; simpl.
  - eauto.
  - inversion HT as [|? ? Ht Hts]; subst.
    destruct (Ht pos Hpos) as (r & q & E). rewrite E.
    destruct (is_null r); [|eauto].
    apply IH; [exact Hts|]. destruct (Hp _ _ _ E) as [_ L]. lia.
Qed.

Lemma sequence_loop_total (lo : nat) (ps : list parser) :
  Forall restoring ps -> Forall (total_from lo) ps ->
  forall orig acc pos, (lo <= pos)%nat ->
    exists v pos', sequence_loop ps orig acc pos = Some (v, pos').
Proof.
  induction 1 as [|p ps Hp _ IH]; intros HT orig acc pos Hpos; simpl.
  - eauto.
  - inversion HT as [|? ? Ht Hts]; subst.
    destruct (Ht pos Hpos) as (r & q & E). rewrite E.
    destruct (is_null r); [eauto|].
    apply IH; [exact Hts|]. destruct (Hp _ _ _ E) as [_ L]. lia.
Qed.

Lemma sequence_total_from (lo : nat) (ps : list parser) :
  Forall restoring ps -> Forall (total_from lo) ps ->
  total_from lo (sequence ps).
Proof.
  intros H1 H2 pos Hpos. now apply (sequence_loop_total lo).
Qed.

(** A sequence whose later parsers need the cursor to have advanced. *)
Lemma sequence_total_cons (p : parser) (ps : list parser) (pos : nat) :
  (exists r q, p pos = Some (r, q) /\
     (r <> VNull -> Forall (total_from q) ps)) ->
  Forall restoring ps ->
  exists v pos', sequence (p :: ps) pos = Some (v, pos').
Proof.
  intros (r & q & E & HT) Hps. unfold sequence. simpl. rewrite E.
  destruct (is_null r) eqn:N; [eauto|].
  apply is_null_false in N.
  apply (sequence_loop_total q); auto.
Qed.

Lemma nOrMore_loop_total (rule : string) (lo : nat) (p : parser) :
  safe rule p -> consuming p -> total_from lo p ->
  forall fuel acc pos,
    (lo <= pos)%nat -> (String.length rule - pos < fuel)%nat ->
    exists res pos', nOrMore_loop fuel p acc pos = Some (res, pos').
Proof.
  intros Hs Hc Ht. induction fuel as [|fuel IH]; intros acc pos Hlo Hf; [lia|].
  simpl. destruct (Ht pos Hlo) as (r & q & E). rewrite E.
  destruct (is_null r) eqn:N; [eauto|].
  apply is_null_false in N.
  pose proof (Hc _ _ _ E N) as Hlt.
  destruct (Hs _ _ _ E) as [_ [->|[_ Hle]]]; [lia|].
  apply IH; lia.
Qed.

Lemma nOrMore_total_from (rule : string) (lo k : nat) (p : parser) :
  safe rule p -> consuming p -> total_from lo p ->
  total_from lo (nOrMore rule k p).
Proof.
  intros Hs Hc Ht pos Hpos. unfold nOrMore.
  destruct (nOrMore_loop_total rule lo p Hs Hc Ht (max_fuel rule) [] pos Hpos)
    as (res & q & E).
  { unfold max_fuel. lia. }
  rewrite E. destruct (List.length res <? k)%nat; eauto.
Qed.

(** *** Productions that test the result of one call *)

Lemma wraps_inv (q p : parser) (g : jsval -> jsval) (pos : nat) (v : jsval)
    (pos' : nat) :
  wraps q p g -> q pos = Some (v, pos') ->
  exists r, p pos = Some (r, pos') /\ v = if is_null r then VNull else g r.
Proof.
  intros W E. specialize (W pos).
  destruct (p pos) as [[r x]|]; [|congruence].
  rewrite W in E. injection E as <- <-. eauto.
Qed.

Lemma wraps_moves (R : nat -> nat -> Prop) (q p : parser) (g : jsval -> jsval) :
  wraps q p g -> keeps p g -> moves R p -> moves R q.
Proof.
  intros W K M pos v pos' E.
  destruct (wraps_inv _ _ _ _ _ _ W E) as (r & Er & ->).
  destruct (M _ _ _ Er) as [Hn HR]. split; [|exact HR].
  destruct (is_null r) eqn:N.
  - intros _. apply Hn. now apply is_null_true.
  - intros Hg. apply is_null_false in N. now destruct (K _ _ _ Er N).
Qed.

Lemma wraps_consuming (q p : parser) (g : jsval -> jsval) :
  wraps q p g -> consuming p -> consuming q.
Proof.
  intros W C pos v pos' E N.
  destruct (wraps_inv _ _ _ _ _ _ W E) as (r & Er & ->).
  apply (C _ _ _ Er). destruct (is_null r) eqn:Nr; [congruence|].
  now apply is_null_false.
Qed.

Lemma wraps_total_from (lo : nat) (q p : parser) (g : jsval -> jsval) :
  wraps q p g -> total_from lo p -> total_from lo q.
Proof.
  intros W T pos Hpos. destruct (T pos Hpos) as (r & x & E).
  specialize (W pos). rewrite E in W. eauto.
Qed.

Lemma sequence_result (ps : list parser) (pos : nat) (r : jsval) (q : nat) :
  sequence ps pos = Some (r, q) -> r = VNull \/ exists l, r = VArr l.
Proof.
  intros E. destruct (sequence_inv _ _ _ _ E) as [[-> _]|(l & -> & _)]; eauto.
Qed.

(** Splits a [Forall] over a list of known shape. *)
Ltac forall_list := repeat first [apply Forall_nil | apply Forall_cons].

(** Proves [wraps q (sequence ps) g] for a production [q] of the source. *)
Ltac wraps_sequence q :=
  let pos := fresh "pos" in
  let E := fresh "E" in
  intros pos; unfold q;
  match goal with
  | |- context [sequence ?ps pos] =>
      destruct (sequence ps pos) as [[? ?]|] eqn:E; [|reflexivity];
      destruct (sequence_result _ _ _ _ E) as [->|[? ->]]; reflexivity
  end.

(** Proves [wraps q tok g] for an operand [q] of the source. *)
Ltac wraps_token q tok :=
  let pos := fresh "pos" in
  intros pos; unfold q;
  destruct (tok pos) as [[[] ?]|]; reflexivity.

(** ** The productions keep the cursor discipline and terminate *)

Section Grammar.

Variable rule : string.
Variable number : num.

Lemma good_safe (p : parser) : good rule p -> safe rule p.
Proof. now intros (? & ? & ?). Qed.

Lemma good_consuming (p : parser) : good rule p -> consuming p.
Proof. now intros (? & ? & ?). Qed.

Lemma good_total (p : parser) : good rule p -> halting rule -> total p.
Proof. intros (_ & _ & H). exact H. Qed.

Lemma good_restoring (p : parser) : good rule p -> restoring p.
Proof. intros H. apply (safe_restoring rule), good_safe, H. Qed.

Lemma Forall_good_safe (ps : list parser) :
  Forall (good rule) ps -> Forall (safe rule) ps.
Proof. apply Forall_impl, good_safe. Qed.

Lemma Forall_good_restoring (ps : list parser) :
  Forall (good rule) ps -> Forall restoring ps.
Proof. apply Forall_impl, good_restoring. Qed.

Lemma Forall_safe_restoring (ps : list parser) :
  Forall (safe rule) ps -> Forall restoring ps.
Proof. apply Forall_impl, safe_restoring. Qed.

Lemma makeStringParser_inv (s : string) (pos : nat) (v : jsval) (pos' : nat) :
  makeStringParser rule s pos = Some (v, pos') ->
  (v = VNull /\ pos' = pos) \/
  (v = VStr s /\ pos' = (pos + String.length s)%nat /\
   substring pos (String.length s) rule = s).
Proof.
  unfold makeStringParser, substr. rewrite Nat2Z.id.
  destruct (String.eqb_spec (substring pos (String.length s) rule) s) as [E|E];
    intros [= <- <-]; auto.
Qed.

Lemma makeStringParser_good (s : string) :
  s <> "" -> good rule (makeStringParser rule s).
Proof.
  intros Hs.
  assert (Hlen : (0 < String.length s)%nat) by (destruct s; [congruence | simpl; lia]).
  assert (Hin : forall pos, substring pos (String.length s) rule = s ->
                  (pos + String.length s <= String.length rule)%nat).
  { intros pos E. pose proof (substring_length rule pos (String.length s)) as L.
    rewrite E in L. lia. }
  split; [|split].
  - intros pos v pos' H.
    destruct (makeStringParser_inv _ _ _ _ H) as [[_ ->]|(-> & -> & E)].
    + split; [reflexivity | now left].
    + split; [discriminate | right]. specialize (Hin _ E). lia.
  - intros pos v pos' H N.
    destruct (makeStringParser_inv _ _ _ _ H) as [[-> _]|(-> & -> & _)];
      [congruence | lia].
  - intros _ pos _. unfold makeStringParser.
    destruct (_ =? _)%string; eauto.
Qed.

Lemma makeStringParser_total (s : string) : total (makeStringParser rule s).
Proof.
  intros pos _. unfold makeStringParser. destruct (_ =? _)%string; eauto.
Qed.

Lemma makeRegexParser_total (re : regex) : total (makeRegexParser rule re).
Proof.
  intros pos _. unfold makeRegexParser. destruct (re _); eauto.
Qed.

Lemma makeRegexParser_inv (cls : ascii -> bool) (pos : nat) (v : jsval)
    (pos' : nat) :
  makeRegexParser rule (re_plus cls) pos = Some (v, pos') ->
  (v = VNull /\ pos' = pos) \/
  (exists m, v = VStr m /\ pos' = (pos + String.length m)%nat /\
     re_plus cls (substr_from rule pos) = Some m).
Proof.
  unfold makeRegexParser.
  destruct (re_plus cls (substr_from rule pos)) as [m|] eqn:E;
    intros [= <- <-]; eauto.
Qed.

Lemma makeRegexParser_good (cls : ascii -> bool) :
  good rule (makeRegexParser rule (re_plus cls)).
Proof.
  split; [|split].
  - intros pos v pos' H.
    destruct (makeRegexParser_inv _ _ _ _ H) as [[_ ->]|(m & -> & -> & E)].
    + split; [reflexivity | now left].
    + split; [discriminate | right].
      destruct (re_plus_match _ _ _ _ E) as (_ & _ & _ & ? & ?). lia.
  - intros pos v pos' H N.
    destruct (makeRegexParser_inv _ _ _ _ H) as [[-> _]|(m & -> & -> & E)];
      [congruence|].
    destruct (re_plus_match _ _ _ _ E) as (_ & _ & _ & ? & ?). lia.
  - intros _ pos _. unfold makeRegexParser.
    destruct (re_plus cls _); eauto.
Qed.

Lemma choice_good (ps : list parser) : Forall (good rule) ps -> good rule (choice ps).
Proof.
  intros H. split; [|split].
  - apply (choice_moves (inside rule) (inside_refl rule)).
    now apply Forall_good_safe.
  - apply choice_consuming; [now apply Forall_good_restoring|].
    revert H. apply Forall_impl, good_consuming.
  - intros Hh. apply choice_total_from; [now apply Forall_good_restoring|].
    revert H. apply Forall_impl. intros p Hp. now apply good_total.
Qed.

Lemma sequence_good (p : parser) (ps : list parser) :
  good rule p -> Forall (safe rule) ps -> (halting rule -> Forall total ps) ->
  good rule (sequence (p :: ps)).
Proof.
  intros Hp Hs Ht.
  assert (HS : safe rule (sequence (p :: ps))).
  { apply (sequence_moves (inside rule) (inside_refl rule) (inside_trans rule)).
    constructor; [apply good_safe, Hp | exact Hs]. }
  split; [exact HS | split].
  - apply sequence_consuming; [apply good_consuming, Hp|].
    now apply Forall_safe_restoring.
  - intros Hh. apply sequence_total_from.
    + constructor; [apply good_restoring, Hp | now apply Forall_safe_restoring].
    + constructor; [now apply good_total | now apply Ht].
Qed.

Lemma wraps_good (q p : parser) (g : jsval -> jsval) :
  wraps q p g -> keeps p g -> good rule p -> good rule q.
Proof.
  intros W K (Hs & Hc & Ht). split; [|split].
  - exact (wraps_moves _ _ _ _ W K Hs).
  - exact (wraps_consuming _ _ _ W Hc).
  - intros Hh. exact (wraps_total_from _ _ _ _ W (Ht Hh)).
Qed.

Lemma sequence_good' (p : parser) (ps : list parser) :
  good rule p -> Forall (good rule) ps -> good rule (sequence (p :: ps)).
Proof.
  intros Hp Hps. apply sequence_good; [exact Hp | |].
  - now apply Forall_good_safe.
  - intros Hh. revert Hps. apply Forall_impl. intros q Hq. now apply good_total.
Qed.

(** The [k]-th element of a successful [sequence] is not [null]. *)
Lemma keeps_index (ps : list parser) (k : nat) :
  (k < List.length ps)%nat ->
  keeps (sequence ps) (fun result => get_index result (Z.of_nat k)).
Proof.
  intros Hk pos v pos' E N.
  destruct (sequence_inv _ _ _ _ E) as [[-> _]|(l & -> & Hl)]; [congruence|].
  destruct (seq_run_length _ _ _ _ Hl) as [Hlen Hall].
  simpl. destruct (Z.ltb_spec (Z.of_nat k) 0); [lia|].
  rewrite Nat2Z.id. rewrite Forall_forall in Hall. apply Hall.
  apply nth_In. lia.
Qed.

Lemma keeps_VNum (p : parser) (g : jsval -> num) :
  keeps p (fun r => VNum (g r)).
Proof. intros ? ? ? _ _. discriminate. Qed.

Lemma keeps_VBool (p : parser) (g : jsval -> bool) :
  keeps p (fun r => VBool (g r)).
Proof. intros ? ? ? _ _. discriminate. Qed.

Lemma keeps_VArr (p : parser) (g : jsval -> list jsval) :
  keeps p (fun r => VArr (g r)).
Proof. intros ? ? ? _ _. discriminate. Qed.

(** *** Tokens *)

Lemma whitespace_good : good rule (whitespace rule).
Proof. apply makeRegexParser_good. Qed.

Lemma value_good : good rule (value rule).
Proof. apply makeRegexParser_good. Qed.

Lemma literal_good (s : string) (p : parser) :
  p = makeStringParser rule s -> s <> "" -> good rule p.
Proof. intros ->. apply makeStringParser_good. Qed.

Ltac literal := eapply literal_good; [reflexivity | discriminate].

Lemma _n__good : good rule (_n_ rule). Proof. literal. Qed.
Lemma _i__good : good rule (_i_ rule). Proof. literal. Qed.
Lemma _f__good : good rule (_f_ rule). Proof. literal. Qed.
Lemma _t__good : good rule (_t_ rule). Proof. literal. Qed.
Lemma _v__good : good rule (_v_ rule). Proof. literal. Qed.
Lemma _w__good : good rule (_w_ rule). Proof. literal. Qed.
Lemma _is__good : good rule (_is_ rule). Proof. literal. Qed.
Lemma _isnot__good : good rule (_isnot_ rule). Proof. literal. Qed.
Lemma _isnot_sign__good : good rule (_isnot_sign_ rule). Proof. literal. Qed.
Lemma _equal__good : good rule (_equal_ rule). Proof. literal. Qed.
Lemma _mod__good : good rule (_mod_ rule). Proof. literal. Qed.
Lemma _percent__good : good rule (_percent_ rule). Proof. literal. Qed.
Lemma _not__good : good rule (_not_ rule). Proof. literal. Qed.
Lemma _in__good : good rule (_in_ rule). Proof. literal. Qed.
Lemma _within__good : good rule (_within_ rule). Proof. literal. Qed.
Lemma _range__good : good rule (_range_ rule). Proof. literal. Qed.
Lemma _comma__good : good rule (_comma_ rule). Proof. literal. Qed.
Lemma _or__good : good rule (_or_ rule). Proof. literal. Qed.
Lemma _and__good : good rule (_and_ rule). Proof. literal. Qed.

#[local] Hint Resolve whitespace_good value_good _n__good _i__good _f__good
  _t__good _v__good _w__good _is__good _isnot__good _isnot_sign__good
  _equal__good _mod__good _percent__good _not__good _in__good _within__good
  _range__good _comma__good _or__good _and__good choice_good sequence_good'
  : cursor.
#[local] Hint Constructors Forall : cursor.

(** *** Operands *)

Lemma n_wraps :
  wraps (n rule number) (_n_ rule) (fun _ => VNum (parseFloat_num number)).
Proof. wraps_token n (_n_ rule). Qed.

Lemma i_wraps :
  wraps (i rule number) (_i_ rule) (fun _ => VNum (parseInt (VNum number) 0)).
Proof. wraps_token i (_i_ rule). Qed.

Lemma f_wraps :
  wraps (f rule number) (_f_ rule) (fun _ => VNum (num_rem number one)).
Proof. wraps_token f (_f_ rule). Qed.

Lemma t_value_eq :
  js_or (VNum (parseInt (fraction_text number) 0)) (VNum zero) = VNum (t_value number).
Proof.
  unfold t_value, js_or. destruct (truthy _); reflexivity.
Qed.

Lemma t_wraps :
  wraps (t rule number) (_t_ rule) (fun _ => VNum (t_value number)).
Proof.
  intros pos. unfold t. rewrite t_value_eq.
  destruct (_t_ rule pos) as [[[] ?]|]; reflexivity.
Qed.

Lemma v_wraps :
  wraps (v rule number) (_v_ rule) (fun _ => VNum (v_value number)).
Proof. wraps_token v (_v_ rule). Qed.

Lemma w_wraps :
  wraps (w rule number) (_v_ rule) (fun _ => VNum zero).
Proof. wraps_token w (_v_ rule). Qed.

Lemma n_good : good rule (n rule number).
Proof. eapply wraps_good; [apply n_wraps | apply keeps_VNum | auto with cursor]. Qed.

Lemma i_good : good rule (i rule number).
Proof. eapply wraps_good; [apply i_wraps | apply keeps_VNum | auto with cursor]. Qed.

Lemma f_good : good rule (f rule number).
Proof. eapply wraps_good; [apply f_wraps | apply keeps_VNum | auto with cursor]. Qed.

Lemma t_good : good rule (t rule number).
Proof. eapply wraps_good; [apply t_wraps | apply keeps_VNum | auto with cursor]. Qed.

Lemma v_good : good rule (v rule number).
Proof. eapply wraps_good; [apply v_wraps | apply keeps_VNum | auto with cursor]. Qed.

Lemma w_good : good rule (w rule number).
Proof. eapply wraps_good; [apply w_wraps | apply keeps_VNum | auto with cursor]. Qed.

#[local] Hint Resolve n_good i_good f_good t_good v_good w_good : cursor.

Lemma operand_good : good rule (operand rule number).
Proof. unfold operand. auto 10 with cursor. Qed.

#[local] Hint Resolve operand_good : cursor.

(** *** Expressions *)

Lemma mod__wraps :
  wraps (mod_ rule number)
    (sequence [operand rule number; whitespace rule;
               choice [_mod_ rule; _percent_ rule]; whitespace rule;
               value rule])
    (fun result => VNum (num_rem (parseInt (get_index result 0) 10)
                                 (parseInt (get_index result 4) 10))).
Proof. wraps_sequence mod_. Qed.

Lemma mod__good : good rule (mod_ rule number).
Proof.
  eapply wraps_good; [apply mod__wraps | apply keeps_VNum | auto 10 with cursor].
Qed.

#[local] Hint Resolve mod__good : cursor.

Lemma expression_good : good rule (expression rule number).
Proof. unfold expression. auto with cursor. Qed.

#[local] Hint Resolve expression_good : cursor.

Lemma not__wraps :
  wraps (not_ rule) (sequence [whitespace rule; _not_ rule])
    (fun result => get_index result 1).
Proof. wraps_sequence not_. Qed.

Lemma not__good : good rule (not_ rule).
Proof.
  eapply wraps_good; [apply not__wraps | | auto with cursor].
  apply (keeps_index _ 1). simpl. lia.
Qed.

#[local] Hint Resolve not__good : cursor.

(** *** Range lists *)

(** What [range] returns, from what its [sequence] call returned. *)
Lemma range_inv (pos : nat) (r : jsval) (pos' : nat) :
  range rule pos = Some (r, pos') ->
  (r = VNull /\
   sequence [value rule; _range_ rule; value rule] pos = Some (VNull, pos')) \/
  (exists result trips,
     sequence [value rule; _range_ rule; value rule] pos
     = Some (result, pos') /\ result <> VNull /\
     range_trips (parseInt (get_index result 0) 10)
                 (parseInt (get_index result 2) 10) = Some trips /\
     r = VArr (range_loop trips (parseInt (get_index result 0) 10)
                 (parseInt (get_index result 2) 10) [])).
Proof.
  unfold range.
  destruct (sequence _ pos) as [[result q]|] eqn:E; [|discriminate].
  destruct (is_null result) eqn:N; cbn [negb].
  - apply is_null_true in N. subst result. intros [= <- <-]. now left.
  - apply is_null_false in N. cbv zeta.
    destruct (range_trips _ _) as [trips|] eqn:T; [|discriminate].
    intros [= <- <-]. right. exists result, trips. auto.
Qed.

Lemma range_fail (pos pos' : nat) :
  sequence [value rule; _range_ rule; value rule] pos = Some (VNull, pos') ->
  range rule pos = Some (VNull, pos').
Proof. intros E. unfold range. now rewrite E. Qed.

Lemma range_safe : safe rule (range rule).
Proof.
  assert (S : safe rule (sequence [value rule; _range_ rule; value rule])).
  { apply (sequence_moves _ (inside_refl rule) (inside_trans rule)).
    forall_list; apply good_safe; auto with cursor. }
  intros pos v pos' E.
  destruct (range_inv _ _ _ E) as [[-> Es]|(result & trips & Es & _ & _ & ->)].
  - exact (S _ _ _ Es).
  - split; [discriminate|]. exact (proj2 (S _ _ _ Es)).
Qed.

Lemma range_consuming : consuming (range rule).
Proof.
  assert (C : consuming (sequence [value rule; _range_ rule; value rule])).
  { apply sequence_consuming; [apply good_consuming; auto with cursor|].
    forall_list; apply good_restoring; auto with cursor. }
  intros pos v pos' E N.
  destruct (range_inv _ _ _ E) as [[-> _]|(result & trips & Es & Nr & _ & _)];
    [congruence|].
  exact (C _ _ _ Es Nr).
Qed.

Lemma range_good : good rule (range rule).
Proof.
  split; [apply range_safe | split; [apply range_consuming|]].
  intros Hh pos Hpos. destruct (Hh pos Hpos) as (v & pos' & E).
  unfold max_fuel in E. cbn [rangeList] in E. unfold sequence in E.
  cbn [sequence_loop choice] in E.
  destruct (range rule pos) as [[r q]|]; [eauto | discriminate].
Qed.

#[local] Hint Resolve range_good : cursor.

Lemma rangeTail_wraps (rl : parser) :
  wraps (rangeTail rule rl) (sequence [_comma_ rule; rl])
    (fun result => get_index result 1).
Proof. wraps_sequence rangeTail. Qed.

Lemma rangeTail_safe (rl : parser) :
  safe rule rl -> safe rule (rangeTail rule rl).
Proof.
  intros H. eapply wraps_moves; [apply rangeTail_wraps | |].
  - apply (keeps_index _ 1). simpl. lia.
  - apply (sequence_moves _ (inside_refl rule) (inside_trans rule)).
    forall_list; [apply good_safe; auto with cursor | exact H].
Qed.

Lemma rangeTail_consuming (rl : parser) :
  safe rule rl -> consuming (rangeTail rule rl).
Proof.
  intros H. eapply wraps_consuming; [apply rangeTail_wraps|].
  apply sequence_consuming; [apply good_consuming; auto with cursor|].
  forall_list. now apply (safe_restoring rule).
Qed.

Lemma rangeTail_total_from (lo : nat) (rl : parser) :
  safe rule rl -> total_from (S lo) rl -> total_from lo (rangeTail rule rl).
Proof.
  intros Hs Ht. eapply wraps_total_from; [apply rangeTail_wraps|].
  intros pos Hpos. apply sequence_total_cons.
  - destruct (makeStringParser_total "," pos) as (r & q & E); [lia|].
    exists r, q. split; [exact E|]. intros N.
    destruct (makeStringParser_inv _ _ _ _ E) as [[-> _]|(_ & -> & _)];
      [congruence|].
    forall_list. apply (total_from_le (S lo)); [simpl; lia | exact Ht].
  - forall_list. now apply (safe_restoring rule).
Qed.

Lemma rangeList_S (fuel pos : nat) :
  rangeList rule (S fuel) pos
  = match sequence [choice [range rule; value rule];
                    nOrMore rule 0 (rangeTail rule (rangeList rule fuel))] pos
    with
    | Some (result, pos') =>
        if is_null result then Some (VNull, pos')
        else if fits (list_of result)
             then Some (VArr (list_of result), pos')
             else None
    | None => None
    end.
Proof.
  cbn [rangeList]. destruct (sequence _ pos) as [[res q]|]; [|reflexivity].
  destruct (is_null res); reflexivity.
Qed.

(** What [rangeList] returns, from what its [sequence] call returned. *)
Lemma rangeList_inv (fuel pos : nat) (v : jsval) (pos' : nat) :
  rangeList rule (S fuel) pos = Some (v, pos') ->
  exists res,
    sequence [choice [range rule; value rule];
              nOrMore rule 0 (rangeTail rule (rangeList rule fuel))] pos
    = Some (res, pos') /\
    v = (if is_null res then VNull
         else (fun result =>
                 let resultList := js_concat [] (get_index result 0) in
                 VArr (if truthy (get_index (get_index result 1) 0)
                       then js_concat resultList
                              (get_index (get_index result 1) 0)
                       else resultList)) res).
Proof.
  rewrite rangeList_S.
  destruct (sequence _ pos) as [[res q]|] eqn:E; [|discriminate].
  destruct (is_null res) eqn:N.
  - intros [= <- <-]. exists res. now rewrite N.
  - destruct (fits (list_of res)); [|discriminate].
    intros [= <- <-]. exists res. now rewrite N.
Qed.

Lemma rangeList_fail (fuel pos pos' : nat) :
  sequence [choice [range rule; value rule];
            nOrMore rule 0 (rangeTail rule (rangeList rule fuel))] pos
  = Some (VNull, pos') ->
  rangeList rule (S fuel) pos = Some (VNull, pos').
Proof. intros E. rewrite rangeList_S. now rewrite E. Qed.

Lemma rangeList_safe (fuel : nat) : safe rule (rangeList rule fuel).
Proof.
  induction fuel as [|fuel IH].
  - intros pos v pos' E. discriminate.
  - assert (S0 : safe rule
                   (sequence [choice [range rule; value rule];
                              nOrMore rule 0 (rangeTail rule (rangeList rule fuel))])).
    { apply (sequence_moves _ (inside_refl rule) (inside_trans rule)).
      forall_list.
      + apply good_safe. auto with cursor.
      + apply (nOrMore_moves _ (inside_refl rule) (inside_trans rule)).
        now apply rangeTail_safe. }
    intros pos v pos' E.
    destruct (rangeList_inv _ _ _ _ E) as (res & Es & ->).
    destruct (S0 _ _ _ Es) as [Hn HR]. split; [|exact HR].
    destruct (is_null res) eqn:N; [|discriminate].
    intros _. apply Hn. now apply is_null_true.
Qed.

Lemma rangeList_consuming (fuel : nat) : consuming (rangeList rule fuel).
Proof.
  destruct fuel as [|fuel].
  - intros pos v pos' E. discriminate.
  - assert (C : consuming
                  (sequence [choice [range rule; value rule];
                             nOrMore rule 0 (rangeTail rule (rangeList rule fuel))])).
    { apply sequence_consuming; [apply good_consuming; auto with cursor|].
      forall_list. apply (safe_restoring rule).
      apply (nOrMore_moves _ (inside_refl rule) (inside_trans rule)).
      apply rangeTail_safe, rangeList_safe. }
    intros pos v pos' E N.
    destruct (rangeList_inv _ _ _ _ E) as (res & Es & ->).
    apply (C _ _ _ Es). destruct (is_null res) eqn:Nr; [congruence|].
    now apply is_null_false.
Qed.

Lemma rangeList_good : good rule (rangeList rule (max_fuel rule)).
Proof.
  split; [apply rangeList_safe | split; [apply rangeList_consuming|]].
  intros Hh. exact Hh.
Qed.

#[local] Hint Resolve rangeList_good : cursor.

(** [nOrMore(0, not)]: safe and total, and it may succeed without
    consuming. *)
Lemma nots_safe : safe rule (nOrMore rule 0 (not_ rule)).
Proof.
  apply (nOrMore_moves _ (inside_refl rule) (inside_trans rule)).
  apply good_safe. auto with cursor.
Qed.

Lemma nots_total : total (nOrMore rule 0 (not_ rule)).
Proof.
  apply nOrMore_total_from.
  - apply good_safe. auto with cursor.
  - apply good_consuming. auto with cursor.
  - eapply wraps_total_from; [apply not__wraps|].
    apply sequence_total_from.
    + forall_list; apply good_restoring; auto with cursor.
    + forall_list; [apply makeRegexParser_total | apply makeStringParser_total].
Qed.

(** *** Relations *)

Lemma is__wraps :
  wraps (is_ rule number)
    (sequence [expression rule number; whitespace rule; _is_ rule;
               whitespace rule; value rule])
    (fun result =>
       VBool (strict_eq (get_index result 0)
                        (VNum (parseInt (get_index result 4) 10)))).
Proof. wraps_sequence is_. Qed.

Lemma isnot_wraps :
  wraps (isnot rule number)
    (sequence [expression rule number; whitespace rule;
               choice [_isnot_ rule; _isnot_sign_ rule]; whitespace rule;
               value rule])
    (fun result =>
       VBool (negb (strict_eq (get_index result 0)
                      (VNum (parseInt (get_index result 4) 10))))).
Proof. wraps_sequence isnot. Qed.

Lemma not_in_wraps :
  wraps (not_in rule number)
    (sequence [expression rule number; whitespace rule; _isnot_sign_ rule;
               whitespace rule; rangeList rule (max_fuel rule)])
    (fun result =>
       VBool (negb (member (get_index result 0)
                      (elements (get_index result 4))))).
Proof. wraps_sequence not_in. Qed.

Lemma _in_wraps :
  wraps (_in rule number)
    (sequence [expression rule number; nOrMore rule 0 (not_ rule);
               whitespace rule; choice [_in_ rule; _equal_ rule];
               whitespace rule; rangeList rule (max_fuel rule)])
    (fun result =>
       VBool (if member (get_index result 0) (elements (get_index result 5))
              then negb (negated result) else negated result)).
Proof.
  intros pos. unfold _in.
  match goal with
  | |- context [sequence ?ps pos] =>
      destruct (sequence ps pos) as [[r q]|] eqn:E; [|reflexivity];
      destruct (sequence_result _ _ _ _ E) as [->|[l ->]]; [reflexivity|]
  end.
  simpl is_null. cbv iota. unfold negb at 1. unfold negated.
  destruct (member _ _); reflexivity.
Qed.

Lemma within_wraps :
  wraps (within rule number)
    (sequence [expression rule number; nOrMore rule 0 (not_ rule);
               whitespace rule; _within_ rule; whitespace rule;
               rangeList rule (max_fuel rule)])
    (fun result =>
       VBool (if contained result
              then negb (negated result) else negated result)).
Proof.
  intros pos. unfold within.
  match goal with
  | |- context [sequence ?ps pos] =>
      destruct (sequence ps pos) as [[r q]|] eqn:E; [|reflexivity];
      destruct (sequence_result _ _ _ _ E) as [->|[l ->]]; [reflexivity|]
  end.
  simpl is_null. cbv iota. unfold negb at 1. fold (contained (VArr l)).
  unfold negated. destruct (contained _); reflexivity.
Qed.

Lemma nots_first_good (ps : list parser) :
  Forall (good rule) ps ->
  good rule (sequence (expression rule number :: nOrMore rule 0 (not_ rule) :: ps)).
Proof.
  intros H. apply sequence_good; [auto with cursor | |].
  - constructor; [apply nots_safe | now apply Forall_good_safe].
  - intros Hh. constructor; [apply nots_total|].
    revert H. apply Forall_impl. intros q Hq. now apply good_total.
Qed.

Lemma is__good : good rule (is_ rule number).
Proof.
  eapply wraps_good; [apply is__wraps | apply keeps_VBool | auto 10 with cursor].
Qed.

Lemma isnot_good : good rule (isnot rule number).
Proof.
  eapply wraps_good; [apply isnot_wraps | apply keeps_VBool | auto 10 with cursor].
Qed.

Lemma not_in_good : good rule (not_in rule number).
Proof.
  eapply wraps_good; [apply not_in_wraps | apply keeps_VBool | auto 10 with cursor].
Qed.

Lemma _in_good : good rule (_in rule number).
Proof.
  eapply wraps_good; [apply _in_wraps | apply keeps_VBool |].
  apply nots_first_good. auto 10 with cursor.
Qed.

Lemma within_good : good rule (within rule number).
Proof.
  eapply wraps_good; [apply within_wraps | apply keeps_VBool |].
  apply nots_first_good. auto 10 with cursor.
Qed.

#[local] Hint Resolve is__good isnot_good not_in_good _in_good within_good
  : cursor.

Lemma relation_good : good rule (relation rule number).
Proof. unfold relation. auto 10 with cursor. Qed.

#[local] Hint Resolve relation_good : cursor.

(** *** Conditions *)

Lemma and__wraps (c : parser) :
  wraps (and_ rule number c) (sequence (junction rule number (_and_ rule) c))
    (fun result => js_and (get_index result 0) (get_index result 4)).
Proof. unfold junction. wraps_sequence and_. Qed.

Lemma or__wraps (c : parser) :
  wraps (or_ rule number c) (sequence (junction rule number (_or_ rule) c))
    (fun result => js_or (get_index result 0) (get_index result 4)).
Proof. unfold junction. wraps_sequence or_. Qed.

Lemma junction_keeps (kw c : parser) (op : jsval -> jsval -> jsval) :
  (forall a b, op a b = a \/ op a b = b) ->
  keeps (sequence (junction rule number kw c))
    (fun result => op (get_index result 0) (get_index result 4)).
Proof.
  intros Hop pos v pos' E N.
  pose proof (keeps_index (junction rule number kw c) 0 ltac:(simpl; lia) _ _ _ E N) as K0.
  pose proof (keeps_index (junction rule number kw c) 4 ltac:(simpl; lia) _ _ _ E N) as K4.
  simpl in K0, K4.
  destruct (Hop (get_index v 0) (get_index v 4)) as [-> | ->]; assumption.
Qed.

Lemma js_and_cases (a b : jsval) : js_and a b = a \/ js_and a b = b.
Proof. unfold js_and. destruct (truthy a); auto. Qed.

Lemma js_or_cases (a b : jsval) : js_or a b = a \/ js_or a b = b.
Proof. unfold js_or. destruct (truthy a); auto. Qed.

Lemma junction_safe (kw c : parser) :
  good rule kw -> safe rule c -> safe rule (sequence (junction rule number kw c)).
Proof.
  intros Hk Hc.
  apply (sequence_moves _ (inside_refl rule) (inside_trans rule)).
  unfold junction. forall_list; try exact Hc; apply good_safe; auto with cursor.
Qed.

Lemma junction_consuming (kw c : parser) :
  good rule kw -> safe rule c -> consuming (sequence (junction rule number kw c)).
Proof.
  intros Hk Hc. apply sequence_consuming.
  - apply good_consuming. auto with cursor.
  - forall_list; try (apply (safe_restoring rule); exact Hc);
      apply good_restoring; auto with cursor.
Qed.

Section Halting.

(** Termination of the conditions, when the range lists are built. *)
Hypothesis halts : halting rule.

Lemma junction_total_from (lo : nat) (kw c : parser) :
  good rule kw -> safe rule c ->
  (forall q, (lo < q)%nat -> (q <= String.length rule)%nat -> total_from q c) ->
  total_from lo (sequence (junction rule number kw c)).
Proof.
  intros Hk Hc Ht pos Hpos. apply sequence_total_cons.
  - destruct (good_total _ relation_good halts pos) as (r & q & E); [lia|].
    exists r, q. split; [exact E|]. intros N.
    pose proof (good_consuming _ relation_good _ _ _ E N) as Hlt.
    destruct (good_safe _ relation_good _ _ _ E) as [_ [->|[_ Hle]]]; [lia|].
    forall_list; try (apply Ht; lia);
      apply total_total_from, good_total; auto with cursor.
  - forall_list; try (apply (safe_restoring rule); exact Hc);
      apply good_restoring; auto with cursor.
Qed.

Lemma alternatives_safe (c : parser) :
  safe rule c -> Forall (safe rule) (alternatives rule number c).
Proof.
  intros Hc. unfold alternatives. forall_list.
  - eapply wraps_moves; [apply and__wraps | |].
    + apply junction_keeps, js_and_cases.
    + apply junction_safe; auto with cursor.
  - eapply wraps_moves; [apply or__wraps | |].
    + apply junction_keeps, js_or_cases.
    + apply junction_safe; auto with cursor.
  - apply good_safe. auto with cursor.
Qed.

Lemma alternatives_consuming (c : parser) :
  safe rule c -> Forall consuming (alternatives rule number c).
Proof.
  intros Hc. unfold alternatives. forall_list.
  - eapply wraps_consuming; [apply and__wraps|].
    apply junction_consuming; auto with cursor.
  - eapply wraps_consuming; [apply or__wraps|].
    apply junction_consuming; auto with cursor.
  - apply good_consuming. auto with cursor.
Qed.

Lemma alternatives_total_from (lo : nat) (c : parser) :
  safe rule c ->
  (forall q, (lo < q)%nat -> (q <= String.length rule)%nat -> total_from q c) ->
  Forall (total_from lo) (alternatives rule number c).
Proof.
  intros Hc Ht. unfold alternatives. forall_list.
  - eapply wraps_total_from; [apply and__wraps|].
    apply junction_total_from; auto with cursor.
  - eapply wraps_total_from; [apply or__wraps|].
    apply junction_total_from; auto with cursor.
  - apply total_total_from, good_total; [auto with cursor | exact halts].
Qed.

Lemma condition_S (fuel : nat) (pos : nat) :
  condition rule number (S fuel) pos =
  let* (result, pos) :=
    sequence [choice (alternatives rule number (condition rule number fuel))] pos in
  if truthy result then Some (get_index result 0, pos)
  else Some (VBool false, pos).
Proof. reflexivity. Qed.

(** What [condition] returns, from what its [sequence] call returned. *)
Lemma condition_inv (fuel : nat) (pos : nat) (v : jsval) (pos' : nat) :
  condition rule number (S fuel) pos = Some (v, pos') ->
  (v = VBool false /\ pos' = pos /\
   sequence [choice (alternatives rule number (condition rule number fuel))] pos
     = Some (VNull, pos)) \/
  (v <> VNull /\
   choice (alternatives rule number (condition rule number fuel)) pos = Some (v, pos')).
Proof.
  rewrite condition_S.
  destruct (sequence _ pos) as [[r q]|] eqn:E; [|discriminate].
  destruct (sequence_inv _ _ _ _ E) as [[-> ->]|(l & -> & Hl)].
  - simpl. intros [= <- <-]. now left.
  - seq_inv Hl. simpl. intros [= <- <-]. right. auto.
Qed.

Lemma condition_safe (fuel : nat) : safe rule (condition rule number fuel).
Proof.
  induction fuel as [|fuel IH]; intros pos v pos' E; [discriminate|].
  destruct (condition_inv _ _ _ _ E) as [(-> & -> & _)|(N & C)].
  - split; [discriminate | apply inside_refl].
  - split; [congruence|].
    apply (choice_moves _ (inside_refl rule) _ (alternatives_safe _ IH) _ _ _ C).
Qed.

(** [condition] never returns [null]. *)
Lemma condition_not_null (fuel : nat) (pos : nat) (v : jsval) (pos' : nat) :
  condition rule number fuel pos = Some (v, pos') -> v <> VNull.
Proof.
  destruct fuel as [|fuel]; [discriminate|]. intros E.
  destruct (condition_inv _ _ _ _ E) as [(-> & _)|(N & _)];
    [discriminate | exact N].
Qed.

(** [condition] returns once its fuel exceeds the text left to read. *)
Lemma condition_total (fuel : nat) :
  forall pos, (String.length rule - pos < fuel)%nat ->
    exists v pos', condition rule number fuel pos = Some (v, pos').
Proof.
  induction fuel as [|fuel IH]; intros pos Hf; [lia|].
  rewrite condition_S.
  assert (T : total_from pos
            (sequence [choice (alternatives rule number (condition rule number fuel))])).
  { apply sequence_total_from.
    - forall_list. apply (safe_restoring rule).
      apply (choice_moves _ (inside_refl rule)).
      apply alternatives_safe, condition_safe.
    - forall_list. apply choice_total_from.
      + apply Forall_safe_restoring, alternatives_safe, condition_safe.
      + apply alternatives_total_from; [apply condition_safe|].
        intros q Hq Hle p Hp. apply IH. lia. }
  destruct (T pos (Nat.le_refl _)) as (r & q & E). rewrite E.
  destruct (truthy r); eauto.
Qed.

Lemma start_total (pos : nat) :
  exists v pos', start rule number pos = Some (v, pos').
Proof. apply condition_total. unfold max_fuel. lia. Qed.

End Halting.

(** *** The kind of value each production returns *)

Lemma choice_yields (P : jsval -> Prop) (ps : list parser) :
  Forall (yields P) ps -> yields P (choice ps).
Proof.
  induction 1 as [|p ps Hp _ IH]; intros pos v pos'; unfold returns; simpl.
  - intros [= <- <-]. now left.
  - destruct (p pos) as [[r q]|] eqn:E; [|discriminate].
    destruct (is_null r) eqn:N.
    + apply IH.
    + intros [= <- <-]. exact (Hp _ _ _ E).
Qed.

Lemma wraps_yields (P : jsval -> Prop) (q p : parser) (g : jsval -> jsval) :
  wraps q p g -> (forall r, P (g r)) -> yields P q.
Proof.
  intros W HP pos v pos' E.
  destruct (wraps_inv _ _ _ _ _ _ W E) as (r & _ & ->).
  destruct (is_null r); auto.
Qed.

Lemma operand_number : yields is_number (operand rule number).
Proof.
  apply choice_yields. forall_list.
  - apply (wraps_yields _ _ _ _ n_wraps). intros _. eexists; reflexivity.
  - apply (wraps_yields _ _ _ _ i_wraps). intros _. eexists; reflexivity.
  - apply (wraps_yields _ _ _ _ f_wraps). intros _. eexists; reflexivity.
  - apply (wraps_yields _ _ _ _ t_wraps). intros _. eexists; reflexivity.
  - apply (wraps_yields _ _ _ _ v_wraps). intros _. eexists; reflexivity.
  - apply (wraps_yields _ _ _ _ w_wraps). intros _. eexists; reflexivity.
Qed.

(** The value of an expression is a number. *)
Lemma expression_number : yields is_number (expression rule number).
Proof.
  apply choice_yields. forall_list.
  - apply (wraps_yields _ _ _ _ mod__wraps). intros r. eexists; reflexivity.
  - apply operand_number.
Qed.

(** The value of a relation is a boolean. *)
Lemma relation_boolean : yields is_boolean (relation rule number).
Proof.
  apply choice_yields. forall_list.
  - apply (wraps_yields _ _ _ _ is__wraps). intros r. eexists; reflexivity.
  - apply (wraps_yields _ _ _ _ not_in_wraps). intros r. eexists; reflexivity.
  - apply (wraps_yields _ _ _ _ isnot_wraps). intros r. eexists; reflexivity.
  - apply (wraps_yields _ _ _ _ _in_wraps). intros r. eexists; reflexivity.
  - apply (wraps_yields _ _ _ _ within_wraps). intros r. eexists; reflexivity.
Qed.

Lemma junction_boolean (q kw c : parser) (op : jsval -> jsval -> jsval) :
  wraps q (sequence (junction rule number kw c))
    (fun result => op (get_index result 0) (get_index result 4)) ->
  (forall a b, op a b = a \/ op a b = b) ->
  (forall pos v pos', returns c pos v pos' -> is_boolean v) ->
  yields is_boolean q.
Proof.
  intros W Hop Hc pos v pos' E.
  destruct (wraps_inv _ _ _ _ _ _ W E) as (r & Er & ->).
  destruct (sequence_inv _ _ _ _ Er) as [[-> _]|(l & -> & Hl)]; [now left|].
  right. unfold junction in Hl. seq_inv Hl. simpl.
  match goal with
  | H : relation rule number _ = Some (?a, _) |- _ =>
      destruct (relation_boolean _ _ _ H) as [->|Ha]; [congruence|]
  end.
  match goal with
  | H : c _ = Some (?b, _) |- _ => pose proof (Hc _ _ _ H) as Hb
  end.
  match goal with
  | |- is_boolean (op ?a ?b) => destruct (Hop a b) as [-> | ->]; assumption
  end.
Qed.

(** [condition] returns a boolean. *)
Lemma condition_boolean (fuel : nat) (pos : nat) (v : jsval) (pos' : nat) :
  condition rule number fuel pos = Some (v, pos') -> is_boolean v.
Proof.
  revert pos v pos'. induction fuel as [|fuel IH]; intros pos v pos' E;
    [discriminate|].
  destruct (condition_inv _ _ _ _ E) as [(-> & _)|(N & C)];
    [eexists; reflexivity|].
  assert (Y : yields is_boolean (choice (alternatives rule number (condition rule number fuel)))).
  { apply choice_yields. unfold alternatives. forall_list.
    - exact (junction_boolean _ _ _ _ (and__wraps _) js_and_cases IH).
    - exact (junction_boolean _ _ _ _ (or__wraps _) js_or_cases IH).
    - apply relation_boolean. }
  destruct (Y _ _ _ C) as [->|B]; [congruence | exact B].
Qed.

End Grammar.

(** The driver returns or throws its [Error] when the range lists of
    the text that is parsed are built: its fuel never runs out. *)
Lemma pluralRuleParser_total (rule : string) (number : num) :
  halting (trim (substr rule 0 (indexOf rule "@"))) ->
  exists o, pluralRuleParser rule number = Some o.
Proof.
  intros Hh. unfold pluralRuleParser.
  destruct (String.length _ =? 0)%nat; [eauto|].
  destruct (start_total (trim (substr rule 0 (indexOf rule "@"))) number Hh 0)
    as (v & pos & ->).
  destruct (is_null v); [eauto|].
  destruct (negb _); eauto.
Qed.

(** ** The driver on rules without sample annotations *)

Lemma indexOf_absent (c : ascii) (s : string) :
  occurs c s = false -> indexOf s (String c EmptyString) = -1.
Proof.
  unfold indexOf. intros H.
  assert (E : index 0 (String c EmptyString) s = None).
  { induction s as [|b s IH]; [reflexivity|].
    simpl in H. apply orb_false_iff in H. destruct H as [Hb Hs].
    simpl. destruct (ascii_dec c b) as [->|_].
    - rewrite Ascii.eqb_refl in Hb. discriminate.
    - now rewrite (IH Hs). }
  now rewrite E.
Qed.

(** Without an [@], [indexOf] is [-1] and [substr(0, -1)] is empty. *)
Lemma stripped_rule_empty (rule : string) :
  occurs "@" rule = false ->
  trim (substr rule 0 (indexOf rule "@")) = "".
Proof.
  intros H. rewrite (indexOf_absent _ _ H). unfold substr. simpl Z.to_nat.
  destruct rule; reflexivity.
Qed.

Lemma empty_rule_true (rule : string) (number : num) :
  trim (substr rule 0 (indexOf rule "@")) = "" ->
  pluralRuleParser rule number = Some (mkOutcome (Return (VBool true)) []).
Proof. unfold pluralRuleParser. intros ->. reflexivity. Qed.

Lemma whitespace_no_at (rule : string) :
  all_chars is_whitespace rule = true -> occurs "@" rule = false.
Proof.
  induction rule as [|b s IH]; [reflexivity|]. cbn [all_chars occurs].
  intros H. apply andb_true_iff in H. destruct H as [Hb Hs].
  rewrite (IH Hs), orb_false_r.
  destruct (Ascii.eqb_spec "@" b) as [<-|]; [|reflexivity].
  vm_compute in Hb. discriminate.
Qed.

(** C2.  A rule string without the character [@] is cut to the empty
    string by the truncation step, so [pluralRuleParser] returns [true]
    for every number and nothing is parsed or logged. *)
Theorem no_annotation_always_true (rule : string) (number : num) :
  occurs "@" rule = false ->
  trim (substr rule 0 (indexOf rule "@")) = "" /\
  pluralRuleParser rule number = Some (mkOutcome (Return (VBool true)) []).
Proof.
  intros H. split; [now apply stripped_rule_empty|].
  apply empty_rule_true. now apply stripped_rule_empty.
Qed.

Lemma no_annotation_always_true_witness :
  occurs "@" "n in 2..4" = false /\
  pluralRuleParser "n in 2..4" (Fin 7 0)
    = Some (mkOutcome (Return (VBool true)) []).
Proof.
  split; [reflexivity|].
  apply (no_annotation_always_true "n in 2..4" (Fin 7 0)). reflexivity.
Defined.

(** C9.  For the empty rule and for a rule made of whitespace only,
    [pluralRuleParser] returns [true] for every number. *)
Theorem blank_rule_always_true (rule : string) (number : num) :
  all_chars is_whitespace rule = true ->
  pluralRuleParser rule number = Some (mkOutcome (Return (VBool true)) []).
Proof.
  intros H. apply empty_rule_true, stripped_rule_empty.
  now apply whitespace_no_at.
Qed.

Lemma blank_rule_always_true_witness :
  all_chars is_whitespace "  " = true /\
  pluralRuleParser "  " (Fin 3 0) = Some (mkOutcome (Return (VBool true)) []).
Proof.
  split; [reflexivity|].
  apply (blank_rule_always_true "  " (Fin 3 0)). reflexivity.
Defined.

(** C1.  The rule string ["n is 1"] has no [@], so it is cut to the empty
    string and [pluralRuleParser] returns [true] for every number, also
    for those that differ from 1. *)
Theorem n_is_1_true_for_every_number (number : num) :
  pluralRuleParser "n is 1" number
    = Some (mkOutcome (Return (VBool true)) []).
Proof. apply empty_rule_true. reflexivity. Qed.

(** ** The driver on rules that are parsed *)

(** A call never ends with the [Error] of the driver: [condition] turns a
    failed parse into [false]. *)
Lemma pluralRuleParser_never_throws (rule : string) (number : num)
    (o : outcome) :
  pluralRuleParser rule number = Some o ->
  exists b, completed o = Return (VBool b).
Proof.
  unfold pluralRuleParser.
  destruct (String.length _ =? 0)%nat.
  - intros [= <-]. now exists true.
  - destruct (start _ number 0%nat) as [[v pos]|] eqn:E; [|discriminate].
    destruct (condition_boolean _ _ _ _ _ _ E) as [b ->]. simpl.
    destruct (negb _); intros [= <-]; now exists b.
Qed.

(** C3.  On the rule ["x @integer 1"] the text left after stripping is
    ["x"], no alternative of [condition] matches at position 0 whatever
    the fuel, and [pluralRuleParser] returns [false] with the warning
    instead of throwing the parse error. *)
Theorem parse_failure_returns_false :
  trim (substr "x @integer 1" 0 (indexOf "x @integer 1" "@")) = "x" /\
  (forall fuel,
     choice (alternatives "x" (Fin 1 0) (condition "x" (Fin 1 0) fuel)) 0%nat
     = Some (VNull, 0%nat)) /\
  pluralRuleParser "x @integer 1" (Fin 1 0)
  = Some (mkOutcome (Return (VBool false))
      ["Warning: Rule not parsed completely. Parser stopped at  for rule: x"]).
Proof.
  split; [reflexivity|]. split; [intros fuel; reflexivity|].
  vm_compute. reflexivity.
Qed.

(** C10.  When the rule left after stripping is not empty and the parse
    stops before the end of the text, [pluralRuleParser] returns the
    boolean that [condition] computed, and the only other effect is the
    warning written to the console. *)
Theorem partial_parse_returns_result (rule : string) (number : num)
    (result : jsval) (pos : nat) :
  let text := trim (substr rule 0 (indexOf rule "@")) in
  text <> "" ->
  start text number 0%nat = Some (result, pos) ->
  pos <> String.length text ->
  is_boolean result /\
  pluralRuleParser rule number
  = Some (mkOutcome (Return result)
      ["Warning: Rule not parsed completely. Parser stopped at "
       ++ substr text 0 (Z.of_nat pos) ++ " for rule: " ++ text]).
Proof.
  intros text Hne E Hpos.
  pose proof (condition_boolean _ _ _ _ _ _ E) as B.
  split; [exact B|].
  unfold pluralRuleParser. fold text.
  destruct (Nat.eqb_spec (String.length text) 0) as [L|L].
  - destruct text; [congruence | discriminate].
  - rewrite E. destruct B as [b ->]. simpl is_null. cbv iota.
    destruct (Nat.eqb_spec pos (String.length text)); [congruence|].
    reflexivity.
Qed.

Lemma partial_parse_returns_result_witness :
  pluralRuleParser "n is 1 or so @integer 1" (Fin 1 0)
  = Some (mkOutcome (Return (VBool true))
      ["Warning: Rule not parsed completely. Parser stopped at n is 1 or "
       ++ " for rule: n is 1 or so"]).
Proof.
  apply (partial_parse_returns_result "n is 1 or so @integer 1" (Fin 1 0)
           (VBool true) 10%nat).
  - discriminate.
  - vm_compute. reflexivity.
  - vm_compute. discriminate.
Defined.

(** ** Operands *)

(** C4.  For the number 1.50 the operand functions return [f = 0.5],
    [t = 0], [v = 0] and, for [w] reading its token [v], [w = 0]; on the
    letter [w] the function [w] returns [null].  So the rules that test
    the operands against 50, 5, 2 and 1 are all false for 1.50. *)
Theorem operands_of_1_50 :
  f "f" (Fin 150 2) 0%nat = Some (VNum (Fin 5 1), 1%nat) /\
  t "t" (Fin 150 2) 0%nat = Some (VNum (Fin 0 0), 1%nat) /\
  v "v" (Fin 150 2) 0%nat = Some (VNum (Fin 0 0), 1%nat) /\
  w "v" (Fin 150 2) 0%nat = Some (VNum (Fin 0 0), 1%nat) /\
  w "w" (Fin 150 2) 0%nat = Some (VNull, 0%nat) /\
  map (fun rule => run rule (Fin 150 2))
      ["f is 50 @"; "t is 5 @"; "v is 2 @"; "w is 1 @"]
  = map (fun b => Some (Return (VBool b))) [false; false; false; false].
Proof. repeat split; vm_compute; reflexivity. Qed.

(** An operand on the text at the cursor: its letter or [null]. *)
Lemma wraps_literal (rule : string) (q : parser) (s : string) (x : num) :
  wraps q (makeStringParser rule s) (fun _ => VNum x) ->
  forall pos,
    q pos = if (substr rule pos (Z.of_nat (String.length s)) =? s)%string
            then Some (VNum x, (pos + String.length s)%nat)
            else Some (VNull, pos).
Proof.
  intros W pos. specialize (W pos). unfold makeStringParser in W.
  destruct (_ =? _)%string; exact W.
Qed.

(** C5.  [w] succeeds only on the letter [v]; the operand choice gives
    the same result with [w] removed from it; and on the letter [w] the
    operand production returns [null]. *)
Theorem w_is_unreachable (rule : string) (number : num) (pos : nat) :
  (forall r pos', w rule number pos = Some (r, pos') -> r <> VNull ->
     substr rule pos 1 = "v") /\
  operand rule number pos
    = choice [n rule number; i rule number; f rule number; t rule number;
              v rule number] pos /\
  (substr rule pos 1 = "w" -> operand rule number pos = Some (VNull, pos)).
Proof.
  pose proof (wraps_literal _ _ _ _ (n_wraps rule number) pos) as En.
  pose proof (wraps_literal _ _ _ _ (i_wraps rule number) pos) as Ei.
  pose proof (wraps_literal _ _ _ _ (f_wraps rule number) pos) as Ef.
  pose proof (wraps_literal _ _ _ _ (t_wraps rule number) pos) as Et.
  pose proof (wraps_literal _ _ _ _ (v_wraps rule number) pos) as Ev.
  pose proof (wraps_literal _ _ _ _ (w_wraps rule number) pos) as Ew.
  simpl String.length in *. simpl Z.of_nat in *.
  split; [|split].
  - intros r pos' E N. rewrite Ew in E.
    destruct (String.eqb_spec (substr rule pos 1) "v") as [->|];
      [reflexivity|]. injection E as <- <-. congruence.
  - unfold operand. simpl choice.
    rewrite En. destruct (substr rule pos 1 =? "n")%string; [reflexivity|].
    cbv beta iota delta [is_null].
    rewrite Ei. destruct (substr rule pos 1 =? "i")%string; [reflexivity|].
    cbv beta iota delta [is_null].
    rewrite Ef. destruct (substr rule pos 1 =? "f")%string; [reflexivity|].
    cbv beta iota delta [is_null].
    rewrite Et. destruct (substr rule pos 1 =? "t")%string; [reflexivity|].
    cbv beta iota delta [is_null].
    rewrite Ev. destruct (substr rule pos 1 =? "v")%string eqn:V; [reflexivity|].
    cbv beta iota delta [is_null]. rewrite Ew. reflexivity.
  - intros Hw. unfold operand. simpl choice.
    rewrite En, Hw. cbv beta iota delta [is_null String.eqb Ascii.eqb Bool.eqb].
    rewrite Ei, Hw. cbv beta iota delta [is_null String.eqb Ascii.eqb Bool.eqb].
    rewrite Ef, Hw. cbv beta iota delta [is_null String.eqb Ascii.eqb Bool.eqb].
    rewrite Et, Hw. cbv beta iota delta [is_null String.eqb Ascii.eqb Bool.eqb].
    rewrite Ev, Hw. cbv beta iota delta [is_null String.eqb Ascii.eqb Bool.eqb].
    rewrite Ew, Hw. reflexivity.
Qed.

(** ** Cursor discipline of [sequence] and [nOrMore] *)

#[local] Hint Resolve whitespace_good value_good _n__good _i__good _f__good
  _t__good _v__good _w__good _is__good _isnot__good _isnot_sign__good
  _equal__good _mod__good _percent__good _not__good _in__good _within__good
  _range__good _comma__good _or__good _and__good choice_good sequence_good'
  n_good i_good f_good t_good v_good w_good operand_good mod__good
  expression_good not__good range_good rangeList_good is__good isnot_good
  not_in_good _in_good within_good relation_good : cursor.
#[local] Hint Constructors Forall : cursor.

(** Solves [safe rule p] for the parsers the productions are made of. *)
Ltac safe_parser :=
  first
    [ apply rangeList_safe
    | apply condition_safe
    | apply nots_safe
    | apply rangeTail_safe; safe_parser
    | apply (nOrMore_moves _ (inside_refl _) (inside_trans _)); safe_parser
    | apply (choice_moves _ (inside_refl _)); apply alternatives_safe;
      safe_parser
    | apply good_safe; auto 10 with cursor ].

Lemma invocations_safe (rule : string) (number : num) (fuel : nat) :
  Forall (safe rule) (invocations rule number fuel).
Proof.
  unfold invocations, junction.
  forall_list;
    try (apply (sequence_moves _ (inside_refl rule) (inside_trans rule));
         forall_list);
    safe_parser.
Qed.

(** C8.  [sequence] and [nOrMore] restore the cursor when they fail and
    leave it at or after its starting value when they succeed, whenever
    the parsers they run do the same; and every call of the two
    combinators made by the productions satisfies this. *)
Theorem combinators_keep_cursor_discipline (rule : string) (number : num) :
  (forall ps, Forall restoring ps -> restoring (sequence ps)) /\
  (forall k p, restoring p -> restoring (nOrMore rule k p)) /\
  (forall fuel, Forall restoring (invocations rule number fuel)).
Proof.
  split; [|split].
  - intros ps. apply (sequence_moves le Nat.le_refl Nat.le_trans).
  - intros k p. apply (nOrMore_moves le Nat.le_refl Nat.le_trans).
  - intros fuel. apply (Forall_safe_restoring rule), invocations_safe.
Qed.

Lemma combinators_keep_cursor_discipline_witness :
  restoring (sequence [whitespace "n is 1"; _is_ "n is 1"]) /\
  restoring (nOrMore "n is 1" 0 (not_ "n is 1")).
Proof.
  destruct (combinators_keep_cursor_discipline "n is 1" (Fin 1 0))
    as (Hseq & Hrep & _).
  split.
  - apply Hseq. forall_list; apply (good_restoring "n is 1");
      auto with cursor.
  - apply Hrep. apply (good_restoring "n is 1"). auto with cursor.
Defined.

(** ** More fuel changes no result *)

Lemma refines_refl (p : parser) : refines p p.
Proof. intros pos r E. exact E. Qed.

Lemma sequence_loop_refines (ps ps' : list parser) :
  Forall2 refines ps ps' ->
  forall orig acc pos r,
    sequence_loop ps orig acc pos = Some r ->
    sequence_loop ps' orig acc pos = Some r.
Proof.
  induction 1 as [|p p' ps ps' Hp _ IH]; intros orig acc pos r; simpl;
    [auto|].
  destruct (p pos) as [[v q]|] eqn:E; [|discriminate].
  rewrite (Hp _ _ E). destruct (is_null v); [auto | apply IH].
Qed.

Lemma sequence_refines (ps ps' : list parser) :
  Forall2 refines ps ps' -> refines (sequence ps) (sequence ps').
Proof. intros H pos r. apply sequence_loop_refines, H. Qed.

Lemma nOrMore_refines (rule : string) (k : nat) (p p' : parser) :
  refines p p' -> refines (nOrMore rule k p) (nOrMore rule k p').
Proof.
  intros Hp pos r. unfold nOrMore.
  assert (L : forall fuel acc pos0 x,
             nOrMore_loop fuel p acc pos0 = Some x ->
             nOrMore_loop fuel p' acc pos0 = Some x).
  { induction fuel as [|fuel IH]; intros acc pos0 x; simpl; [auto|].
    destruct (p pos0) as [[v q]|] eqn:E; [|discriminate].
    rewrite (Hp _ _ E). destruct (is_null v); [auto | apply IH]. }
  destruct (nOrMore_loop (max_fuel rule) p [] pos) as [[res q]|] eqn:E;
    [|discriminate].
  now rewrite (L _ _ _ _ E).
Qed.

Lemma wraps_refines (q q' p p' : parser) (g : jsval -> jsval) :
  wraps q p g -> wraps q' p' g -> refines p p' -> refines q q'.
Proof.
  intros W W' H pos r E. specialize (W pos). specialize (W' pos).
  destruct (p pos) as [[v x]|] eqn:Ep; [|congruence].
  rewrite (H _ _ Ep) in W'. congruence.
Qed.

Lemma rangeTail_refines (rule : string) (rl rl' : parser) :
  refines rl rl' -> refines (rangeTail rule rl) (rangeTail rule rl').
Proof.
  intros H.
  apply (wraps_refines _ _ _ _ _ (rangeTail_wraps rule rl)
           (rangeTail_wraps rule rl')).
  apply sequence_refines. repeat constructor; [apply refines_refl | exact H].
Qed.

Lemma rangeList_fuel_S (rule : string) (fuel : nat) :
  refines (rangeList rule fuel) (rangeList rule (S fuel)).
Proof.
  induction fuel as [|fuel IH]; [intros pos r E; discriminate|].
  assert (H : refines
                (sequence [choice [range rule; value rule];
                           nOrMore rule 0 (rangeTail rule (rangeList rule fuel))])
                (sequence [choice [range rule; value rule];
                           nOrMore rule 0
                             (rangeTail rule (rangeList rule (S fuel)))])).
  { apply sequence_refines.
    repeat constructor; [apply refines_refl|].
    apply nOrMore_refines, rangeTail_refines, IH. }
  intros pos r. rewrite (rangeList_S rule fuel), (rangeList_S rule (S fuel)).
  destruct (sequence _ pos) as [x|] eqn:E; [|discriminate].
  now rewrite (H _ _ E).
Qed.

Lemma rangeList_fuel_le (rule : string) (fuel fuel' : nat) :
  (fuel <= fuel')%nat -> refines (rangeList rule fuel) (rangeList rule fuel').
Proof.
  induction 1 as [|fuel' _ IH]; [apply refines_refl|].
  intros pos r E. apply rangeList_fuel_S, IH, E.
Qed.

(** Two runs of [rangeList] that both return agree. *)
Lemma rangeList_fuel_irrelevant (rule : string) (fuel fuel' : nat) (pos : nat)
    (r r' : jsval * nat) :
  rangeList rule fuel pos = Some r -> rangeList rule fuel' pos = Some r' ->
  r = r'.
Proof.
  intros E E'.
  apply (rangeList_fuel_le rule fuel (Nat.max fuel fuel')) in E; [|lia].
  apply (rangeList_fuel_le rule fuel' (Nat.max fuel fuel')) in E'; [|lia].
  congruence.
Qed.

(** The loop of [nOrMore] ends on a failing call. *)
Lemma rep_run_end (p : parser) (pos : nat) (l : list jsval) (pos' : nat) :
  restoring p -> rep_run p pos l pos' -> p pos' = Some (VNull, pos').
Proof.
  intros Hp H. induction H as [pos q E|pos q pos' r l E N _ IH]; [|exact IH].
  destruct (Hp _ _ _ E) as [Hn _]. specialize (Hn eq_refl). subst q. exact E.
Qed.

(** After a range list, no further [',' range_list] can be read: the
    loop of [nOrMore(0, rangeTail)] runs [rangeTail] at most once. *)
Lemma rangeList_maximal (rule : string) (fuel : nat) (pos : nat) (v : jsval)
    (pos' : nat) :
  rangeList rule fuel pos = Some (v, pos') -> v <> VNull ->
  forall fuel' r q,
    rangeTail rule (rangeList rule fuel') pos' = Some (r, q) -> r = VNull.
Proof.
  destruct fuel as [|fuel]; [discriminate|]. intros E N fuel' r q E'.
  destruct (rangeList_inv _ _ _ _ _ E) as (res & Es & ->).
  destruct (sequence_inv _ _ _ _ Es) as [[-> _]|(l & -> & Hl)];
    [now destruct N|].
  seq_inv Hl.
  destruct (nOrMore_0_inv _ _ _ _ _ Hp0) as (tails & _ & Hrep).
  assert (Hend : rangeTail rule (rangeList rule fuel) pos' = Some (VNull, pos')).
  { apply (rep_run_end _ _ _ _ (safe_restoring rule _
             (rangeTail_safe rule _ (rangeList_safe rule fuel))) Hrep). }
  destruct (wraps_inv _ _ _ _ _ _ (rangeTail_wraps rule _) Hend)
    as (res1 & Es1 & Hv1).
  destruct (wraps_inv _ _ _ _ _ _ (rangeTail_wraps rule _) E')
    as (res2 & Es2 & ->).
  assert (res1 = VNull) as ->.
  { destruct (is_null res1) eqn:N1; [now apply is_null_true|].
    apply is_null_false in N1.
    destruct (keeps_index [_comma_ rule; rangeList rule fuel] 1
                ltac:(simpl; lia) _ _ _ Es1 N1). now symmetry. }
  destruct (sequence_inv _ _ _ _ Es2) as [[-> _]|(l2 & -> & Hl2)];
    [reflexivity|].
  exfalso. seq_inv Hl2.
  unfold sequence in Es1. simpl in Es1.
  match goal with
  | H : _comma_ rule pos' = Some _ |- _ => rewrite H in Es1
  end.
  match goal with
  | H : _comma_ rule pos' = Some (?c, _), Hc : ?c <> VNull |- _ =>
      apply is_null_false in Hc; rewrite Hc in Es1
  end.
  match goal with
  | H : rangeList rule fuel' ?p = Some (?x, ?y) |- _ =>
      destruct (rangeList rule fuel p) as [[x1 y1]|] eqn:E1; [|discriminate];
      pose proof (rangeList_fuel_irrelevant _ _ _ _ _ _ E1 H) as Hsame;
      injection Hsame as -> ->
  end.
  match goal with
  | Hc : ?x <> VNull |- _ =>
      apply is_null_false in Hc; rewrite Hc in Es1; discriminate
  end.
Qed.

(** ** The text read by the tokens *)

Lemma reads_app (rule : string) (pos q pos' : nat) (s1 s2 : string) :
  reads rule pos q s1 -> reads rule q pos' s2 ->
  reads rule pos pos' (s1 ++ s2).
Proof.
  intros [L1 E1] [L2 E2]. split; [lia|].
  replace (pos' - pos)%nat with ((q - pos) + (pos' - q))%nat by lia.
  rewrite substring_split, E1.
  replace (pos + (q - pos))%nat with q by lia. now rewrite E2.
Qed.

Lemma reads_literal (rule s : string) (pos pos' : nat) (v : jsval) :
  makeStringParser rule s pos = Some (v, pos') -> v <> VNull ->
  v = VStr s /\ reads rule pos pos' s.
Proof.
  intros E N.
  destruct (makeStringParser_inv _ _ _ _ _ E) as [[-> _]|(-> & -> & Es)];
    [congruence|].
  split; [reflexivity|]. split; [lia|].
  replace (pos + String.length s - pos)%nat with (String.length s) by lia.
  exact Es.
Qed.

Lemma all_chars_take_while (cls : ascii -> bool) (s : string) :
  all_chars cls (take_while cls s) = true.
Proof.
  induction s as [|c s IH]; [reflexivity|]. simpl.
  destruct (cls c) eqn:C; [simpl; now rewrite C | reflexivity].
Qed.

Lemma take_while_all (cls : ascii -> bool) (s : string) :
  all_chars cls s = true -> take_while cls s = s.
Proof.
  induction s as [|c s IH]; [reflexivity|]. simpl.
  intros H. apply andb_true_iff in H. destruct H as [-> Hs].
  now rewrite (IH Hs).
Qed.

(** What the token [value] returns: the digits at the cursor. *)
Lemma reads_value (rule : string) (pos pos' : nat) (v : jsval) :
  value rule pos = Some (v, pos') -> v <> VNull ->
  exists d, v = VStr d /\ is_value d /\ reads rule pos pos' d.
Proof.
  intros E N.
  destruct (makeRegexParser_inv _ _ _ _ _ E) as [[-> _]|(m & -> & -> & Em)];
    [congruence|].
  destruct (re_plus_match _ _ _ _ Em) as (Hne & Hm & Hsub & _ & _).
  exists m. split; [reflexivity|]. split; [split|split].
  - exact Hne.
  - rewrite Hm. apply all_chars_take_while.
  - lia.
  - replace (pos + String.length m - pos)%nat with (String.length m) by lia.
    exact Hsub.
Qed.

(** *** [parseInt] on the digits of a value *)

Lemma is_digit_facts (c : ascii) :
  is_digit c = true ->
  is_whitespace c = false /\ is_radix_digit 10 c = true /\
  c <> "-"%char /\ c <> "+"%char /\ c <> "x"%char /\ c <> "X"%char.
Proof.
  destruct c as [[] [] [] [] [] [] [] []]; vm_compute; intros H;
    try discriminate H; repeat split; discriminate.
Qed.

Lemma all_digits_radix (d : string) :
  all_chars is_digit d = true -> all_chars (is_radix_digit 10) d = true.
Proof.
  induction d as [|c d IH]; [reflexivity|]. cbn [all_chars].
  intros H. apply andb_true_iff in H. destruct H as [Hc Hd].
  destruct (is_digit_facts c Hc) as (_ & -> & _). now rewrite (IH Hd).
Qed.

Lemma prefix_one (c b : ascii) (s : string) :
  prefix (String c EmptyString) (String b s) = true -> c = b.
Proof.
  intros H. apply prefix_correct in H. simpl in H. now injection H.
Qed.

Lemma prefix_two (a1 a2 c : ascii) (s : string) :
  prefix (String a1 (String a2 EmptyString)) (String c s) = true ->
  exists s', s = String a2 s'.
Proof.
  intros H. apply prefix_correct in H. simpl in H.
  injection H as _ H. destruct s as [|c' s']; [discriminate|].
  simpl in H. injection H as ->. eauto.
Qed.

Lemma read_int_value (d : string) (radix : Z) :
  is_value d -> radix = 0 \/ radix = 10 ->
  read_int d radix = num_of_Z (integer d).
Proof.
  intros [Hne Hall] Hr. destruct d as [|c d]; [congruence|].
  cbn [all_chars] in Hall. apply andb_true_iff in Hall.
  destruct Hall as [Hc Hd].
  destruct (is_digit_facts c Hc) as (Hw & Hrd & Hminus & Hplus & Hx & HX).
  unfold read_int. unfold trim_start. cbn [drop_while].
  rewrite Hw. unfold starts_with.
  assert (P1 : prefix "-" (String c d) = false).
  { destruct (prefix "-" (String c d)) eqn:P; [|reflexivity].
    apply prefix_one in P. congruence. }
  assert (P2 : prefix "+" (String c d) = false).
  { destruct (prefix "+" (String c d)) eqn:P; [|reflexivity].
    apply prefix_one in P. congruence. }
  rewrite P1, P2. cbn [orb].
  assert (P3 : prefix "0x" (String c d) = false).
  { destruct (prefix "0x" (String c d)) eqn:P; [|reflexivity].
    apply prefix_two in P. destruct P as [s' ->].
    cbn [all_chars] in Hd. apply andb_true_iff in Hd. destruct Hd as [Hc' _].
    vm_compute in Hc'. discriminate. }
  assert (P4 : prefix "0X" (String c d) = false).
  { destruct (prefix "0X" (String c d)) eqn:P; [|reflexivity].
    apply prefix_two in P. destruct P as [s' ->].
    cbn [all_chars] in Hd. apply andb_true_iff in Hd. destruct Hd as [Hc' _].
    vm_compute in Hc'. discriminate. }
  rewrite P3, P4.
  assert (Hcheck : negb (radix =? 0) && ((radix <? 2) || (36 <? radix)) = false).
  { destruct Hr as [-> | ->]; reflexivity. }
  rewrite Hcheck.
  assert (HR : (if ((radix =? 0) || (radix =? 16)) && (false || false)
               then 16 else if radix =? 0 then 10 else radix) = 10).
  { destruct Hr as [-> | ->]; reflexivity. }
  replace (((radix =? 0) || (radix =? 16)) && (false || false)) with false in *
    by (destruct Hr as [-> | ->]; reflexivity).
  rewrite HR.
  rewrite (take_while_all (is_radix_digit 10) (String c d)).
  - reflexivity.
  - cbn [all_chars]. rewrite Hrd. now apply all_digits_radix.
Qed.

Lemma integer_nonneg (d : string) : 0 <= integer d.
Proof.
  unfold integer.
  assert (G : forall s acc, 0 <= acc -> 0 <= digits_value 10 s acc).
  { induction s as [|c s IH]; intros acc Ha; [exact Ha|]. cbn [digits_value].
    destruct (digit_value c) as [k|] eqn:E; [|exact Ha].
    apply IH.
    assert (0 <= k).
    { unfold digit_value in E.
      destruct ((48 <=? char_code c) && (char_code c <=? 57)) eqn:B1;
        [injection E as <-; lia|].
      destruct ((97 <=? char_code c) && (char_code c <=? 122)) eqn:B2;
        [injection E as <-; lia|].
      destruct ((65 <=? char_code c) && (char_code c <=? 90)) eqn:B3;
        [injection E as <-; lia | discriminate]. }
    lia. }
  apply G. lia.
Qed.

(** Up to [max_safe_integer] nothing is rounded. *)
Lemma binary64_safe (z : Z) :
  0 <= z <= max_safe_integer -> binary64 z = num_of_Z z.
Proof.
  unfold max_safe_integer, binary64. intros H.
  rewrite Z.abs_eq by lia.
  destruct (Z.ltb_spec z (2 ^ 53)); [reflexivity | lia].
Qed.

Lemma num_leb_integers (a b : Z) :
  num_leb (num_of_Z a) (num_of_Z b) = (a <=? b).
Proof.
  unfold num_leb, num_ltb, num_eqb, num_of_Z, pow10. simpl Z.of_nat.
  rewrite Z.pow_0_r, !Z.mul_1_r.
  destruct (Z.ltb_spec a b), (Z.eqb_spec a b), (Z.leb_spec a b);
    try reflexivity; lia.
Qed.

(** *** Rounding to a double keeps the order *)

Lemma binary64_round (z : Z) :
  2 ^ 53 <= z ->
  binary64 z
  = if 2 ^ 1024 <=? round_at (Z.log2 z - 52) z * 2 ^ (Z.log2 z - 52)
    then Inf false
    else Fin (round_at (Z.log2 z - 52) z * 2 ^ (Z.log2 z - 52)) 0.
Proof.
  intros H. assert (P : 0 < 2 ^ 53) by (apply Z.pow_pos_nonneg; lia).
  unfold binary64. rewrite Z.abs_eq by lia.
  destruct (Z.ltb_spec z (2 ^ 53)); [lia|]. cbv zeta.
  destruct (Z.ltb_spec z 0); [lia|].
  rewrite Z.sgn_pos by lia.
  destruct (_ <=? _); [reflexivity|]. f_equal. lia.
Qed.

Lemma round_at_bounds (k z : Z) :
  0 <= k -> z / 2 ^ k <= round_at k z <= z / 2 ^ k + 1.
Proof. intros _. unfold round_at. destruct (_ || _); lia. Qed.

Lemma round_at_monotone (k a b : Z) :
  0 <= k -> a <= b -> round_at k a <= round_at k b.
Proof.
  intros Hk Hab. assert (P : 0 < 2 ^ k) by (apply Z.pow_pos_nonneg; lia).
  pose proof (Z.div_le_mono a b (2 ^ k) P Hab) as Hq.
  destruct (Z.eq_dec (a / 2 ^ k) (b / 2 ^ k)) as [E|N].
  - pose proof (Z.div_mod a (2 ^ k) ltac:(lia)) as Da.
    pose proof (Z.div_mod b (2 ^ k) ltac:(lia)) as Db.
    assert (Hr : a mod 2 ^ k <= b mod 2 ^ k) by (rewrite E in Da; lia).
    unfold round_at. rewrite E.
    destruct (Z.ltb_spec (2 ^ (k - 1)) (a mod 2 ^ k)) as [La|La];
      destruct (Z.ltb_spec (2 ^ (k - 1)) (b mod 2 ^ k)) as [Lb|Lb];
      cbn [orb]; try lia.
    + destruct (_ && _); lia.
    + destruct (Z.eqb_spec (a mod 2 ^ k) (2 ^ (k - 1))) as [Ea|Ea];
        destruct (Z.eqb_spec (b mod 2 ^ k) (2 ^ (k - 1))) as [Eb|Eb];
        cbn [andb]; try lia.
      destruct (Z.odd _); lia.
  - pose proof (round_at_bounds k a Hk). pose proof (round_at_bounds k b Hk).
    lia.
Qed.

(** From [2^53] on, the double of [z] lies between the powers of two
    around [z]. *)
Lemma round_at_log2 (z : Z) :
  2 ^ 53 <= z ->
  1 <= Z.log2 z - 52 /\
  2 ^ (Z.log2 z) <= round_at (Z.log2 z - 52) z * 2 ^ (Z.log2 z - 52)
                 <= 2 ^ (Z.log2 z + 1).
Proof.
  intros H. assert (P53 : 0 < 2 ^ 53) by (apply Z.pow_pos_nonneg; lia).
  assert (Hz : 0 < z) by lia.
  destruct (Z.log2_spec z Hz) as [Lo Hi].
  assert (L : 53 <= Z.log2 z).
  { apply Z.log2_le_pow2; lia. }
  set (n := Z.log2 z) in *. set (k := n - 52).
  assert (Hk : 1 <= k) by (unfold k; lia).
  split; [exact Hk|].
  assert (Pk : 0 < 2 ^ k) by (apply Z.pow_pos_nonneg; lia).
  assert (En : 2 ^ n = 2 ^ 52 * 2 ^ k).
  { rewrite <- Z.pow_add_r by lia. f_equal. unfold k. lia. }
  assert (En1 : 2 ^ (n + 1) = 2 ^ 53 * 2 ^ k).
  { rewrite <- Z.pow_add_r by lia. f_equal. unfold k. lia. }
  replace (Z.succ n) with (n + 1) in Hi by lia.
  assert (Q1 : 2 ^ 52 <= z / 2 ^ k).
  { apply Z.div_le_lower_bound; lia. }
  assert (Q2 : z / 2 ^ k < 2 ^ 53).
  { apply Z.div_lt_upper_bound; lia. }
  pose proof (round_at_bounds k z ltac:(lia)) as B.
  rewrite En, En1. split; apply Z.mul_le_mono_nonneg_r; lia.
Qed.

Lemma binary64_large (z : Z) :
  2 ^ 53 <= z ->
  binary64 z = Inf false \/ exists m, binary64 z = Fin m 0 /\ 2 ^ 53 <= m.
Proof.
  intros H. rewrite (binary64_round z H).
  destruct (round_at_log2 z H) as (Hk & Lo & _).
  destruct (_ <=? _); [now left|]. right. eexists. split; [reflexivity|].
  assert (2 ^ 53 <= 2 ^ Z.log2 z); [|lia].
  apply Z.pow_le_mono_r; [lia|]. lia.
Qed.

Lemma binary64_monotone (a b : Z) :
  0 <= a -> a <= b -> num_leb (binary64 a) (binary64 b) = true.
Proof.
  intros Ha Hab. assert (P53 : 0 < 2 ^ 53) by (apply Z.pow_pos_nonneg; lia).
  destruct (Z.lt_ge_cases b (2 ^ 53)) as [Sb|Lb].
  - unfold binary64. rewrite !Z.abs_eq by lia.
    destruct (Z.ltb_spec a (2 ^ 53)); [|lia].
    destruct (Z.ltb_spec b (2 ^ 53)); [|lia].
    fold (num_of_Z a). fold (num_of_Z b). rewrite num_leb_integers. lia.
  - destruct (Z.lt_ge_cases a (2 ^ 53)) as [Sa|La].
    + assert (Ea : binary64 a = num_of_Z a).
      { unfold binary64. rewrite Z.abs_eq by lia.
        destruct (Z.ltb_spec a (2 ^ 53)); [reflexivity | lia]. }
      rewrite Ea.
      destruct (binary64_large b Lb) as [->|(m & -> & Hm)]; [reflexivity|].
      fold (num_of_Z m). rewrite num_leb_integers. lia.
    + rewrite (binary64_round a La), (binary64_round b Lb).
      destruct (round_at_log2 a La) as (Hka & _ & Hia).
      destruct (round_at_log2 b Lb) as (Hkb & Lob & _).
      pose proof (Z.log2_le_mono a b Hab) as Hl.
      assert (M : round_at (Z.log2 a - 52) a * 2 ^ (Z.log2 a - 52)
                  <= round_at (Z.log2 b - 52) b * 2 ^ (Z.log2 b - 52)).
      { destruct (Z.eq_dec (Z.log2 a) (Z.log2 b)) as [E|N].
        - rewrite E. apply Z.mul_le_mono_nonneg_r.
          + apply Z.pow_nonneg. lia.
          + apply round_at_monotone; lia.
        - assert (2 ^ (Z.log2 a + 1) <= 2 ^ Z.log2 b); [|lia].
          apply Z.pow_le_mono_r; lia. }
      set (ma := round_at (Z.log2 a - 52) a * 2 ^ (Z.log2 a - 52)) in *.
      set (mb := round_at (Z.log2 b - 52) b * 2 ^ (Z.log2 b - 52)) in *.
      generalize (2 ^ 1024). intros top.
      destruct (Z.leb_spec top ma), (Z.leb_spec top mb);
        try reflexivity; [lia|].
      fold (num_of_Z ma). fold (num_of_Z mb). rewrite num_leb_integers. lia.
Qed.

(** Ties go to the even significand, and the largest double is
    [2^1024 - 2^971]. *)
Example binary64_samples :
  binary64 (2 ^ 53 + 1) = num_of_Z (2 ^ 53) /\
  binary64 (2 ^ 53 + 3) = num_of_Z (2 ^ 53 + 4) /\
  binary64 (10 ^ 23) = num_of_Z 99999999999999991611392 /\
  binary64 (2 ^ 1024 - 2 ^ 970 - 1) = num_of_Z (2 ^ 1024 - 2 ^ 971) /\
  binary64 (2 ^ 1024 - 2 ^ 970) = Inf false.
Proof. repeat split; vm_compute; reflexivity. Qed.

(** [parseInt] of the digits of a value is the double nearest to its
    integer; the integer itself up to [max_safe_integer]. *)
Lemma parseInt_digits (d : string) (radix : Z) :
  is_value d -> radix = 0 \/ radix = 10 ->
  parseInt (VStr d) radix = binary64 (integer d).
Proof.
  intros Hd Hr. unfold parseInt. cbn [to_string].
  now rewrite read_int_value.
Qed.

Lemma parseInt_value (d : string) (radix : Z) :
  is_value d -> safe_value d -> radix = 0 \/ radix = 10 ->
  parseInt (VStr d) radix = num_of_Z (integer d).
Proof.
  intros Hd Hs Hr. rewrite parseInt_digits by assumption.
  apply binary64_safe. split; [apply integer_nonneg | exact Hs].
Qed.

(** *** The loop of [range] *)

Lemma inclusive_empty (a b : Z) : b < a -> inclusive a b = [].
Proof.
  intros H. unfold inclusive.
  replace (Z.to_nat (b - a + 1)) with 0%nat by lia. reflexivity.
Qed.

Lemma inclusive_cons (a b : Z) :
  a <= b -> inclusive a b = a :: inclusive (a + 1) b.
Proof.
  intros H. unfold inclusive.
  replace (Z.to_nat (b - a + 1)) with (S (Z.to_nat (b - (a + 1) + 1))) by lia.
  cbn [seq map]. f_equal; [lia|].
  rewrite <- seq_shift, map_map. apply map_ext. intros k. lia.
Qed.

Lemma range_loop_inclusive (b : Z) :
  forall trips a acc,
    trips = Z.to_nat (b - a + 1) ->
    range_loop trips (num_of_Z a) (num_of_Z b) acc
    = (acc ++ map (fun z => VNum (num_of_Z z)) (inclusive a b))%list.
Proof.
  induction trips as [|trips IH]; intros a acc Ht.
  - rewrite inclusive_empty by lia. simpl. now rewrite app_nil_r.
  - assert (Hab : a <= b) by lia.
    cbn [range_loop].
    assert (Hle : num_leb (num_of_Z a) (num_of_Z b) = true).
    { unfold num_leb, num_ltb, num_eqb, num_of_Z, pow10. simpl Z.of_nat.
      rewrite Z.pow_0_r, !Z.mul_1_r.
      destruct (Z.ltb_spec a b); [reflexivity|].
      destruct (Z.eqb_spec a b); [reflexivity | lia]. }
    rewrite Hle.
    assert (Hadd : num_add (num_of_Z a) one = num_of_Z (a + 1)).
    { unfold num_add, num_of_Z, one, pow10. simpl. f_equal. lia. }
    rewrite Hadd, IH by lia.
    rewrite (inclusive_cons a b Hab). cbn [map].
    now rewrite <- app_assoc.
Qed.

(** *** Indexing an array of known shape *)

Lemma get_index_0 (x : jsval) (l : list jsval) :
  get_index (VArr (x :: l)) 0 = x.
Proof. reflexivity. Qed.

Lemma get_index_1 (x y : jsval) (l : list jsval) :
  get_index (VArr (x :: y :: l)) 1 = y.
Proof. reflexivity. Qed.

Lemma get_index_2 (x y z : jsval) (l : list jsval) :
  get_index (VArr (x :: y :: z :: l)) 2 = z.
Proof. reflexivity. Qed.

Lemma get_index_4 (x y z u w : jsval) (l : list jsval) :
  get_index (VArr (x :: y :: z :: u :: w :: l)) 4 = w.
Proof. reflexivity. Qed.

Lemma get_index_5 (x y z u w a : jsval) (l : list jsval) :
  get_index (VArr (x :: y :: z :: u :: w :: a :: l)) 5 = a.
Proof. reflexivity. Qed.

Lemma get_index_nil (k : Z) : get_index (VArr []) k = VUndefined.
Proof.
  unfold get_index. destruct (k <? 0); [reflexivity|].
  now destruct (Z.to_nat k).
Qed.

Ltac index_simpl :=
  rewrite ?get_index_0, ?get_index_1, ?get_index_2, ?get_index_4,
    ?get_index_5, ?get_index_nil.

(** *** What [rangeList] returns *)

(** [range_trips] on two integers. *)
Lemma range_trips_integers (a b : Z) :
  range_trips (num_of_Z a) (num_of_Z b)
  = if b <? a then Some 0%nat
    else if b <=? max_safe_integer then
      if b - a + 1 <=? max_array_length
      then Some (Z.to_nat (b - a + 1))
      else None
    else if (a =? b) && (a <? 2 ^ 54) && (a mod 4 =? 2) then Some 1%nat
    else None.
Proof.
  unfold range_trips. rewrite num_leb_integers.
  destruct (Z.leb_spec a b), (Z.ltb_spec b a); try lia; reflexivity.
Qed.

(** When the loop of [range] ends, it has built the integers from
    [left] to [right]. *)
Lemma range_trips_inclusive (a b : Z) (trips : nat) :
  range_trips (num_of_Z a) (num_of_Z b) = Some trips ->
  range_loop trips (num_of_Z a) (num_of_Z b) []
  = map (fun z => VNum (num_of_Z z)) (inclusive a b).
Proof.
  rewrite range_trips_integers.
  destruct (Z.ltb_spec b a) as [Hab|Hab].
  - intros [= <-]. now rewrite inclusive_empty.
  - destruct (b <=? max_safe_integer).
    + destruct (b - a + 1 <=? max_array_length); [|discriminate].
      intros [= <-]. now rewrite range_loop_inclusive.
    + destruct (Z.eqb_spec a b) as [->|]; cbn [andb]; [|discriminate].
      destruct ((b <? 2 ^ 54) && (b mod 4 =? 2)); [|discriminate].
      intros [= <-]. rewrite range_loop_inclusive; [reflexivity|].
      lia.
Qed.

(** It ends when [right] is at most [max_safe_integer] and the array
    takes the elements. *)
Lemma range_trips_ends (a b : Z) :
  b <= max_safe_integer -> b - a + 1 <= max_array_length ->
  range_trips (num_of_Z a) (num_of_Z b) = Some (Z.to_nat (b - a + 1)).
Proof.
  intros Hb Hn. rewrite range_trips_integers.
  destruct (Z.ltb_spec b a) as [Hab|Hab]; [f_equal; lia|].
  destruct (Z.leb_spec b max_safe_integer); [|lia].
  destruct (Z.leb_spec (b - a + 1) max_array_length); [|lia].
  reflexivity.
Qed.

(** A double between [2^53] and [2^54] with an odd significand is the
    nearest double of no other integer: ties go to its neighbours. *)
Lemma binary64_odd_exact (z m : Z) :
  0 <= z -> binary64 z = num_of_Z m ->
  2 ^ 53 <= m < 2 ^ 54 -> m mod 4 = 2 -> z = m.
Proof.
  intros Hz E Hm H4.
  assert (P53 : 0 < 2 ^ 53) by (apply Z.pow_pos_nonneg; lia).
  destruct (Z.lt_ge_cases z (2 ^ 53)) as [Sz|Lz].
  - rewrite binary64_safe in E by (unfold max_safe_integer; lia).
    now injection E.
  - rewrite (binary64_round z Lz) in E.
    destruct (round_at_log2 z Lz) as (Hk & Lo & _).
    destruct (_ <=? _); [discriminate|]. injection E as E.
    rewrite E in Lo.
    assert (L : Z.log2 z = 53).
    { destruct (Z.lt_ge_cases (Z.log2 z) 54) as [L|L].
      - lia.
      - assert (2 ^ 54 <= 2 ^ Z.log2 z) by (apply Z.pow_le_mono_r; lia). lia. }
    rewrite L in E. change (53 - 52) with 1 in E.
    unfold round_at in E. change (2 ^ (1 - 1)) with 1 in E.
    change (2 ^ 1) with 2 in E.
    pose proof (Z.div_mod z 2 ltac:(lia)) as Dz.
    pose proof (Z.mod_pos_bound z 2 ltac:(lia)) as Bz.
    pose proof (Z.div_mod m 4 ltac:(lia)) as Dm.
    destruct (Z.ltb_spec 1 (z mod 2)) as [|_]; [lia|]. cbn [orb] in E.
    destruct (Z.eqb_spec (z mod 2) 1) as [R1|R0]; cbn [andb] in E.
    + destruct (Z.odd (z / 2)) eqn:O.
      * apply Z.odd_spec in O. destruct O as [h Hh]. lia.
      * rewrite <- Z.negb_even in O. apply negb_false_iff in O.
        apply Z.even_spec in O. destruct O as [h Hh]. lia.
    + lia.
Qed.

(** The doubles nearest to the integers of two written values: when the
    loop of [range] ends on them, it has built the integers from the one
    value to the other.  Where rounding makes the bounds meet, the loop
    ends only when nothing was rounded. *)
Lemma range_trips_values (a b : Z) (trips : nat) :
  0 <= a -> 0 <= b ->
  range_trips (binary64 a) (binary64 b) = Some trips ->
  range_loop trips (binary64 a) (binary64 b) []
  = map (fun z => VNum (num_of_Z z)) (inclusive a b).
Proof.
  intros Ha Hb. assert (P53 : 0 < 2 ^ 53) by (apply Z.pow_pos_nonneg; lia).
  destruct (num_leb (binary64 a) (binary64 b)) eqn:L.
  - destruct (Z.lt_ge_cases b (2 ^ 53)) as [Sb|Lb].
    + assert (Eb : binary64 b = num_of_Z b)
        by (apply binary64_safe; unfold max_safe_integer; lia).
      destruct (Z.lt_ge_cases a (2 ^ 53)) as [Sa|La].
      * rewrite Eb, (binary64_safe a) by (unfold max_safe_integer; lia).
        apply range_trips_inclusive.
      * rewrite Eb in L.
        destruct (binary64_large a La) as [E|(m & E & Hm)]; rewrite E in L.
        -- discriminate.
        -- fold (num_of_Z m) in L. rewrite num_leb_integers in L. lia.
    + destruct (binary64_large b Lb) as [Eb|(m & Eb & Hm)];
        rewrite Eb in L |- *.
      * unfold range_trips. rewrite L. cbn [negb].
        destruct (binary64 a) as [| |? [|?]]; discriminate.
      * destruct (binary64 a) as [| |ma [|ea]] eqn:Ea;
          try (unfold range_trips; rewrite L; cbn [negb]; discriminate).
        fold (num_of_Z ma) in L |- *. fold (num_of_Z m) in L |- *.
        rewrite range_trips_integers. rewrite num_leb_integers in L.
        destruct (Z.ltb_spec m ma); [lia|].
        destruct (Z.leb_spec m max_safe_integer) as [Hs|_];
          [unfold max_safe_integer in Hs; lia|].
        destruct (Z.eqb_spec ma m) as [->|]; cbn [andb]; [|discriminate].
        destruct (Z.ltb_spec m (2 ^ 54)); cbn [andb]; [|discriminate].
        destruct (Z.eqb_spec (m mod 4) 2) as [H4|]; [|discriminate].
        intros [= <-].
        rewrite (binary64_odd_exact a m Ha Ea) by (auto; lia).
        rewrite (binary64_odd_exact b m Hb Eb) by (auto; lia).
        apply range_trips_inclusive. rewrite range_trips_integers.
        destruct (Z.ltb_spec m m); [lia|].
        destruct (Z.leb_spec m max_safe_integer) as [Hs|_];
          [unfold max_safe_integer in Hs; lia|].
        rewrite Z.eqb_refl.
        destruct (Z.ltb_spec m (2 ^ 54)); [|lia].
        now rewrite H4.
  - unfold range_trips. rewrite L. cbn [negb]. intros [= <-].
    rewrite inclusive_empty; [reflexivity|].
    destruct (Z.lt_ge_cases b a) as [|Hab]; [assumption|].
    now rewrite (binary64_monotone a b Ha Hab) in L.
Qed.

Lemma inclusive_length (a b : Z) :
  List.length (inclusive a b) = Z.to_nat (b - a + 1).
Proof. unfold inclusive. now rewrite length_map, length_seq. Qed.

(** The loop ends when [right] is read exactly and the array takes the
    elements. *)
Lemma range_trips_modest (a b : Z) :
  0 <= a -> 0 <= b <= max_safe_integer -> b - a + 1 <= max_array_length ->
  exists trips, range_trips (binary64 a) (binary64 b) = Some trips.
Proof.
  intros Ha Hb Hn. assert (P53 : 0 < 2 ^ 53) by (apply Z.pow_pos_nonneg; lia).
  rewrite (binary64_safe b Hb).
  destruct (Z.le_gt_cases a b) as [Hab|Hab].
  - rewrite (binary64_safe a) by lia. eexists. now apply range_trips_ends.
  - exists 0%nat. unfold range_trips.
    assert (L : num_leb (binary64 a) (num_of_Z b) = false).
    { destruct (Z.lt_ge_cases a (2 ^ 53)) as [Sa|La].
      - rewrite binary64_safe by (unfold max_safe_integer; lia).
        rewrite num_leb_integers. lia.
      - unfold max_safe_integer in Hb.
        destruct (binary64_large a La) as [->|(m & -> & Hm)]; [reflexivity|].
        fold (num_of_Z m). rewrite num_leb_integers. lia. }
    now rewrite L.
Qed.

(** Where the written values descend and their doubles meet, both are
    [2^53] or more, one of them was rounded, and the loop does not
    end. *)
Lemma range_trips_stuck (a b : Z) :
  0 <= b < a -> num_leb (binary64 a) (binary64 b) = true ->
  range_trips (binary64 a) (binary64 b) = None.
Proof.
  intros Hab L.
  destruct (range_trips (binary64 a) (binary64 b)) as [trips|] eqn:T;
    [|reflexivity].
  pose proof (range_trips_values a b trips ltac:(lia) ltac:(lia) T) as V.
  rewrite inclusive_empty in V by lia. cbn [map] in V.
  revert T V. unfold range_trips. rewrite L. cbn [negb].
  destruct (binary64 a) as [| |ma [|ea]]; try discriminate.
  destruct (binary64 b) as [| |mb [|eb]]; try discriminate.
  destruct (mb <=? max_safe_integer).
  - destruct (mb - ma + 1 <=? max_array_length); [|discriminate].
    intros [= <-]. fold (num_of_Z ma). fold (num_of_Z mb).
    rewrite range_loop_inclusive by reflexivity. cbn [app].
    fold (num_of_Z ma) in L. fold (num_of_Z mb) in L.
    rewrite num_leb_integers in L.
    rewrite (inclusive_cons ma mb) by lia. discriminate.
  - destruct (_ && _); [|discriminate].
    intros [= <-]. cbn [range_loop]. rewrite L. discriminate.
Qed.

Lemma range_item (rule : string) (pos pos' : nat) (r : jsval) :
  range rule pos = Some (r, pos') -> r <> VNull ->
  exists a b, is_value a /\ is_value b /\
    reads rule pos pos' (item_text (Span a b)) /\
    r = VArr (item_values (Span a b)).
Proof.
  intros E N.
  destruct (range_inv _ _ _ _ E) as [[-> _]|(res & trips & Es & Nr & T & ->)];
    [now destruct N|].
  destruct (sequence_inv _ _ _ _ Es) as [[-> _]|(l & -> & Hl)];
    [now destruct Nr|].
  seq_inv Hl.
  destruct (reads_value _ _ _ _ Hp Hnn) as (a & -> & Ha & Ra).
  destruct (reads_literal _ _ _ _ _ Hp0 Hnn0) as (-> & Rdots).
  destruct (reads_value _ _ _ _ Hp1 Hnn1) as (b & -> & Hb & Rb).
  exists a, b. split; [exact Ha|]. split; [exact Hb|]. split.
  - cbn [item_text]. apply (reads_app _ _ _ _ _ _ Ra).
    apply (reads_app _ _ _ _ _ _ Rdots Rb).
  - revert T. index_simpl.
    rewrite !parseInt_digits by (auto; now right).
    intros T. cbn [item_values]. f_equal.
    apply range_trips_values; [apply integer_nonneg.. | exact T].
Qed.

Lemma first_item (rule : string) (pos pos' : nat) (r : jsval) :
  choice [range rule; value rule] pos = Some (r, pos') -> r <> VNull ->
  exists it, well_formed it /\ reads rule pos pos' (item_text it) /\
    js_concat [] r = item_values it.
Proof.
  cbn [choice]. intros E N.
  destruct (range rule pos) as [[rr qq]|] eqn:Er; [|discriminate].
  destruct (is_null rr) eqn:Nr.
  - apply is_null_true in Nr. subst rr.
    destruct (good_safe _ _ (range_good rule) _ _ _ Er) as [Hq _].
    rewrite (Hq eq_refl) in E.
    destruct (value rule pos) as [[vv q]|] eqn:Ev; [|discriminate].
    destruct (is_null vv) eqn:Nv.
    + injection E as <- <-. now destruct N.
    + injection E as <- <-.
      destruct (reads_value _ _ _ _ Ev N) as (d & -> & Hd & Rd).
      exists (Bare d). auto.
  - injection E as <- <-.
    destruct (range_item _ _ _ _ Er N) as (a & b & Ha & Hb & R & ->).
    exists (Span a b). cbn [well_formed]. auto.
Qed.

Lemma list_text_cons (it : item) (items : list item) :
  items <> [] ->
  list_text (it :: items) = item_text it ++ "," ++ list_text items.
Proof. destruct items; [congruence | reflexivity]. Qed.

(** A successful [rangeList] has read a comma-separated list of items,
    and its value is the concatenation, in the order of the text, of
    what the items contribute. *)
Lemma rangeList_items (rule : string) (fuel : nat) :
  forall pos v pos',
    rangeList rule fuel pos = Some (v, pos') -> v <> VNull ->
    exists items,
      items <> [] /\ Forall well_formed items /\
      reads rule pos pos' (list_text items) /\
      v = VArr (flat_map item_values items).
Proof.
  induction fuel as [|fuel IH]; intros pos v pos' E N; [discriminate|].
  destruct (rangeList_inv _ _ _ _ _ E) as (res & Es & ->).
  destruct (sequence_inv _ _ _ _ Es) as [[-> _]|(l & -> & Hl)];
    [now destruct N|].
  seq_inv Hl.
  destruct (first_item _ _ _ _ Hp Hnn) as (it & Wit & Rit & Cit).
  destruct (nOrMore_0_inv _ _ _ _ _ Hp0) as (tails & -> & Hrep).
  cbn [is_null]. cbv zeta. index_simpl.
  pose proof (rangeTail_safe rule _ (rangeList_safe rule fuel)) as Hsafe.
  inversion Hrep as [? ? Estop|? q1 ? tl rest Etl Ntl Hrest]; subst.
  - (* no tail *)
    destruct (Hsafe _ _ _ Estop) as [Hq _]. rewrite (Hq eq_refl) in *.
    exists [it]. split; [discriminate|]. split; [now constructor|].
    split.
    + unfold list_text. cbn [map String.concat]. exact Rit.
    + index_simpl. cbn [truthy flat_map]. rewrite Cit.
      now rewrite app_nil_r.
  - (* one tail, itself a range list *)
    destruct (wraps_inv _ _ _ _ _ _ (rangeTail_wraps rule _) Etl)
      as (res1 & Es1 & ->).
    destruct (sequence_inv _ _ _ _ Es1) as [[-> _]|(l1 & -> & Hl1)];
      [now destruct Ntl|].
    seq_inv Hl1.
    match goal with
    | H : _comma_ rule _ = Some _, Hc : _ <> VNull |- _ =>
        destruct (reads_literal _ _ _ _ _ H Hc) as (-> & Rcomma)
    end.
    match goal with
    | H : rangeList rule fuel ?p = Some (?x, ?y), Hx : ?x <> VNull |- _ =>
        destruct (IH _ _ _ H Hx) as (items & Hne & Wf & Rt & ->);
        pose proof (rangeList_maximal _ _ _ _ _ H Hx) as Hmax
    end.
    assert (rest = []) as ->.
    { inversion Hrest as [|? ? ? r' ? E' N' _]; subst; [reflexivity|].
      now destruct (N' (Hmax fuel _ _ E')). }
    inversion Hrest as [? ? Estop|]; subst.
    destruct (Hsafe _ _ _ Estop) as [Hq _]. rewrite (Hq eq_refl) in *.
    exists (it :: items). split; [discriminate|].
    split; [now constructor|]. split.
    + rewrite list_text_cons by exact Hne.
      apply (reads_app _ _ _ _ _ _ Rit).
      apply (reads_app _ _ _ _ _ _ Rcomma Rt).
    + cbn [is_null]. index_simpl. rewrite Cit.
      cbn [truthy js_concat flat_map]. reflexivity.
Qed.

(** ** Printing an integer and reading it back *)

Lemma digit_char_value (d : Z) :
  0 <= d <= 9 ->
  digit_value (digit_char d) = Some d /\ is_digit (digit_char d) = true.
Proof.
  intros H.
  assert (C : d = 0 \/ d = 1 \/ d = 2 \/ d = 3 \/ d = 4 \/ d = 5 \/ d = 6 \/
              d = 7 \/ d = 8 \/ d = 9) by lia.
  repeat (destruct C as [-> | C]; [split; reflexivity|]).
  subst d. split; reflexivity.
Qed.

Lemma is_digit_value (c : ascii) :
  is_digit c = true -> exists d, digit_value c = Some d /\ 0 <= d <= 9.
Proof.
  destruct c as [[] [] [] [] [] [] [] []]; vm_compute; intros H;
    try discriminate H; eexists; (split; [reflexivity|]);
    split; discriminate.
Qed.

Lemma digits_value_app (p s : string) :
  all_chars is_digit p = true ->
  forall acc,
    digits_value 10 (p ++ s) acc = digits_value 10 s (digits_value 10 p acc).
Proof.
  induction p as [|c p IH]; intros H acc; [reflexivity|].
  cbn [all_chars] in H. apply andb_true_iff in H. destruct H as [Hc Hp].
  destruct (is_digit_value c Hc) as (d & Hd & _).
  cbn [append digits_value]. rewrite Hd. now apply IH.
Qed.

Lemma all_chars_app (cls : ascii -> bool) (p s : string) :
  all_chars cls (p ++ s) = all_chars cls p && all_chars cls s.
Proof.
  induction p as [|c p IH]; [reflexivity|]. cbn [append all_chars].
  now rewrite IH, andb_assoc.
Qed.

Lemma string_length_app (p s : string) :
  String.length (p ++ s) = (String.length p + String.length s)%nat.
Proof. induction p as [|c p IH]; simpl; [reflexivity | now rewrite IH]. Qed.

Lemma string_app_assoc (p q s : string) : (p ++ q) ++ s = p ++ (q ++ s).
Proof. induction p as [|c p IH]; simpl; [reflexivity | now rewrite IH]. Qed.

(** [digits_of] writes the decimal digits of [z]: they read back as [z],
    and there are no more of them than the size of [z] needs. *)
Lemma digits_of_spec (fuel : nat) :
  forall z acc, 0 < z -> z < 2 ^ Z.of_nat fuel ->
    exists p, digits_of fuel z acc = p ++ acc /\
      all_chars is_digit p = true /\ p <> "" /\
      (forall a, digits_value 10 p a
                 = a * 10 ^ Z.of_nat (String.length p) + z) /\
      10 ^ (Z.of_nat (String.length p) - 1) <= z.
Proof.
  induction fuel as [|fuel IH]; intros z acc Hz Hf.
  - simpl in Hf. lia.
  - cbn [digits_of].
    assert (Hmod : 0 <= z mod 10 <= 9) by (pose proof (Z.mod_pos_bound z 10); lia).
    destruct (digit_char_value _ Hmod) as [Hv Hd].
    destruct (Z.ltb_spec z 10) as [Hlt|Hge].
    + exists (String (digit_char (z mod 10)) EmptyString).
      rewrite Z.mod_small in * by lia.
      split; [reflexivity|]. split; [cbn [all_chars]; now rewrite Hd|].
      split; [discriminate|]. split.
      * intros a. cbn [digits_value]. rewrite Hv. cbn [digits_value String.length].
        change (Z.of_nat 1) with 1. lia.
      * cbn [String.length]. change (Z.of_nat 1 - 1) with 0. simpl. lia.
    + assert (Hq : 0 < z / 10) by (apply Z.div_str_pos; lia).
      assert (Hq2 : z / 10 < 2 ^ Z.of_nat fuel).
      { apply Z.div_lt_upper_bound; [lia|].
        rewrite Nat2Z.inj_succ, Z.pow_succ_r in Hf by lia.
        pose proof (Z.pow_pos_nonneg 2 (Z.of_nat fuel)). lia. }
      destruct (IH (z / 10) (String (digit_char (z mod 10)) acc) Hq Hq2)
        as (p & Ep & Hall & Hne & Hval & Hlow).
      exists (p ++ String (digit_char (z mod 10)) EmptyString).
      split; [rewrite Ep, string_app_assoc; reflexivity|].
      split; [rewrite all_chars_app, Hall; cbn [all_chars]; now rewrite Hd|].
      split; [destruct p; [congruence | discriminate]|].
      rewrite string_length_app. cbn [String.length].
      replace (Z.of_nat (String.length p + 1)) with (Z.of_nat (String.length p) + 1)
        by lia.
      pose proof (Z.div_mod z 10 ltac:(lia)) as Hdm.
      split.
      * intros a. rewrite digits_value_app by exact Hall.
        cbn [digits_value]. rewrite Hv, Hval. cbn [digits_value].
        rewrite Z.pow_add_r by lia. lia.
      * replace (Z.of_nat (String.length p) + 1 - 1)
          with (Z.succ (Z.of_nat (String.length p) - 1)) by lia.
        assert (0 < String.length p)%nat
          by (destruct p; [congruence | simpl; lia]).
        rewrite Z.pow_succ_r by lia. lia.
Qed.

Lemma string_of_pos_Z_spec (z : Z) :
  0 < z ->
  is_value (string_of_pos_Z z) /\ integer (string_of_pos_Z z) = z /\
  10 ^ (Z.of_nat (String.length (string_of_pos_Z z)) - 1) <= z.
Proof.
  intros Hz. unfold string_of_pos_Z.
  destruct (digits_of_spec (S (Z.to_nat (Z.log2 z))) z EmptyString Hz)
    as (p & Ep & Hall & Hne & Hval & Hlow).
  { pose proof (Z.log2_spec z Hz) as [_ Hup].
    pose proof (Z.log2_nonneg z).
    replace (Z.of_nat (S (Z.to_nat (Z.log2 z)))) with (Z.succ (Z.log2 z)) by lia.
    exact Hup. }
  assert (Eq : digits_of (S (Z.to_nat (Z.log2 z))) z "" = p).
  { rewrite Ep. clear. induction p as [|c p IH]; simpl; [reflexivity | now rewrite IH]. }
  rewrite Eq. split; [split; assumption|]. split; [|exact Hlow].
  unfold integer. rewrite Hval. lia.
Qed.

(** Padding with the zeros that [drop_end] removed gives the text back. *)
Lemma drop_end_zeros (s : string) :
  drop_end is_zero_char s
    ++ zeros (String.length s - String.length (drop_end is_zero_char s))
  = s.
Proof.
  induction s as [|c s IH]; [reflexivity|]. cbn [drop_end].
  destruct (drop_end is_zero_char s) as [|k kept] eqn:E.
  - assert (IH' : zeros (String.length s) = s).
    { rewrite <- IH at 2. cbn [String.length append]. f_equal. lia. }
    destruct (is_zero_char c) eqn:Z0.
    + replace (String.length (String c s) - String.length "")%nat
        with (S (String.length s)) by (simpl; lia).
      cbn [zeros append]. rewrite IH'. f_equal.
      destruct c as [[] [] [] [] [] [] [] []]; try discriminate Z0; reflexivity.
    + replace (String.length (String c s) - String.length (String c ""))%nat
        with (String.length s) by (simpl; lia).
      cbn [append]. now rewrite IH'.
  - replace (String.length (String c s) - String.length (String c (String k kept)))%nat
      with (String.length s - String.length (String k kept))%nat by (simpl; lia).
    cbn [append] in *. now rewrite IH.
Qed.

Lemma drop_end_length (cls : ascii -> bool) (s : string) :
  (String.length (drop_end cls s) <= String.length s)%nat.
Proof.
  induction s as [|c s IH]; [simpl; lia|]. cbn [drop_end].
  destruct (drop_end cls s) as [|k kept].
  - destruct (cls c); simpl; lia.
  - cbn [String.length] in *. lia.
Qed.

(** An integer below [10^21] prints as its digits and reads back. *)
Lemma parseInt_number (z : Z) (radix : Z) :
  0 <= z < 10 ^ 21 -> radix = 0 \/ radix = 10 ->
  parseInt (VNum (num_of_Z z)) radix = num_of_Z z.
Proof.
  intros [Hlo Hhi] Hr.
  destruct (Z.eqb_spec z 0) as [->|Hz].
  - destruct Hr as [-> | ->]; reflexivity.
  - assert (Hpos : 0 < z) by lia.
    destruct (string_of_pos_Z_spec z Hpos) as (Hv & Hint & Hlow).
    assert (Hs : to_string (VNum (num_of_Z z)) = string_of_pos_Z z).
    { cbn [to_string num_of_Z num_to_string].
      destruct (Z.eqb_spec z 0); [lia|].
      destruct (Z.ltb_spec z 0); [lia|].
      unfold pos_to_string.
      set (all := string_of_pos_Z z) in *.
      pose proof (drop_end_length is_zero_char all) as Hk.
      assert (Hn : Z.of_nat (String.length all) <= 21).
      { destruct (Z.le_gt_cases (Z.of_nat (String.length all)) 21) as [|Hgt];
          [assumption|].
        assert (10 ^ 21 <= 10 ^ (Z.of_nat (String.length all) - 1))
          by (apply Z.pow_le_mono_r; lia).
        lia. }
      rewrite Z.sub_0_r.
      destruct (Z.leb_spec (Z.of_nat (String.length (drop_end is_zero_char all)))
                  (Z.of_nat (String.length all))); [|lia].
      destruct (Z.leb_spec (Z.of_nat (String.length all)) 21); [|lia].
      cbn [andb]. rewrite Nat2Z.id. apply drop_end_zeros. }
    unfold parseInt. rewrite Hs. cbv zeta.
    rewrite read_int_value by assumption. now rewrite Hint.
Qed.

Example rangeList_mixed :
  rangeList "1..2,4,6..7" 12 0%nat
  = Some (VArr [VNum (Fin 1 0); VNum (Fin 2 0); VStr "4";
                VNum (Fin 6 0); VNum (Fin 7 0)], 11%nat).
Proof. vm_compute. reflexivity. Qed.

Example rangeList_descending :
  rangeList "5..1,3" 7 0%nat = Some (VArr [VStr "3"], 6%nat).
Proof. vm_compute. reflexivity. Qed.

(** ** The containment test of [within] *)

Lemma not__result (rule : string) (pos : nat) (v : jsval) (q : nat) :
  not_ rule pos = Some (v, q) -> v <> VNull -> v = VStr "not".
Proof.
  intros E N.
  destruct (wraps_inv _ _ _ _ _ _ (not__wraps rule) E) as (res & Es & ->).
  destruct (sequence_inv _ _ _ _ Es) as [[-> _]|(l & -> & Hl)];
    [now destruct N|].
  seq_inv Hl.
  destruct (reads_literal _ _ _ _ _ Hp0 Hnn0) as (-> & _). reflexivity.
Qed.

Lemma rep_run_Forall (P : jsval -> Prop) (p : parser) :
  (forall pos v q, p pos = Some (v, q) -> v <> VNull -> P v) ->
  forall pos l pos', rep_run p pos l pos' -> Forall P l.
Proof.
  intros HP pos l pos' H.
  induction H as [|pos q pos' r l E N _ IH]; constructor; eauto.
Qed.

Lemma inclusive_bounds (a b z : Z) : In z (inclusive a b) -> a <= z <= b.
Proof.
  unfold inclusive. intros H. apply in_map_iff in H.
  destruct H as (k & <- & Hk). apply in_seq in Hk. lia.
Qed.

(** The double nearest to a non-negative integer is no negative
    integer. *)
Lemma binary64_nonneg (z m : Z) (e : nat) :
  0 <= z -> binary64 z = Fin m e -> 0 <= m /\ e = 0%nat.
Proof.
  intros Hz. unfold binary64. rewrite Z.abs_eq by exact Hz.
  destruct (z <? 2 ^ 53); [intros [= <- <-]; auto|].
  cbv zeta.
  match goal with
  | |- (if ?c then _ else _) = _ -> _ => destruct c; [discriminate|]
  end.
  intros [= <- <-]. split; [|reflexivity].
  apply Z.mul_nonneg_nonneg; [apply Z.sgn_nonneg, Hz|].
  apply Z.mul_nonneg_nonneg; [|apply Z.pow_nonneg; lia].
  unfold round_at. cbv zeta.
  pose proof (Z.div_pos z (2 ^ (Z.log2 z - 52)) Hz) as Hq.
  destruct (Z.eq_dec (2 ^ (Z.log2 z - 52)) 0) as [E0|N0].
  - rewrite E0, Z.div_0_r. destruct (_ || _); lia.
  - assert (0 < 2 ^ (Z.log2 z - 52))
      by (pose proof (Z.pow_nonneg 2 (Z.log2 z - 52)); lia).
    specialize (Hq H). destruct (_ || _); lia.
Qed.

(** [parseInt] of an element of a parsed range list is the number the
    element stands for. *)
Lemma parseInt_list_element (e : jsval) (radix : Z) :
  list_element e -> radix = 0 \/ radix = 10 -> parseInt e radix = element e.
Proof.
  intros [(d & -> & Hd)|(z & -> & Hz)] Hr.
  - now apply parseInt_digits.
  - apply parseInt_number; [lia | exact Hr].
Qed.

(** The elements that the loop of [range] builds, when it ends. *)
Lemma range_trips_elements (left right : num) (trips : nat) :
  (forall m e, left = Fin m e -> 0 <= m) ->
  range_trips left right = Some trips ->
  Forall list_element (range_loop trips left right []).
Proof.
  intros Hleft. unfold range_trips.
  destruct (num_leb left right) eqn:L; cbn [negb];
    [|intros [= <-]; constructor].
  destruct left as [| |a [|ea]]; try discriminate;
    destruct right as [| |b [|eb]]; try discriminate.
  specialize (Hleft a 0%nat eq_refl).
  fold (num_of_Z a) in *. fold (num_of_Z b) in *.
  assert (G : forall n, n = Z.to_nat (b - a + 1) -> b < 2 ^ 54 ->
                Forall list_element (range_loop n (num_of_Z a) (num_of_Z b) [])).
  { intros n -> Hb. rewrite range_loop_inclusive by reflexivity. cbn [app].
    apply Forall_forall. intros e He. apply in_map_iff in He.
    destruct He as (z & <- & Hz). apply inclusive_bounds in Hz.
    right. exists z. split; [reflexivity | lia]. }
  destruct (Z.leb_spec b max_safe_integer) as [Hb|Hb].
  - destruct (b - a + 1 <=? max_array_length); [|discriminate].
    intros [= <-]. apply G; [reflexivity | unfold max_safe_integer in Hb; lia].
  - destruct (Z.eqb_spec a b) as [->|]; cbn [andb]; [|discriminate].
    destruct (Z.ltb_spec b (2 ^ 54)); cbn [andb]; [|discriminate].
    destruct (b mod 4 =? 2); [|discriminate].
    intros [= <-]. apply G; [lia | assumption].
Qed.

(** The elements that [range] builds. *)
Lemma range_elements (rule : string) (pos pos' : nat) (r : jsval) :
  range rule pos = Some (r, pos') -> r <> VNull ->
  exists l, r = VArr l /\ Forall list_element l.
Proof.
  intros E N.
  destruct (range_inv _ _ _ _ E) as [[-> _]|(res & trips & Es & Nr & T & ->)];
    [now destruct N|].
  eexists. split; [reflexivity|].
  destruct (sequence_inv _ _ _ _ Es) as [[-> _]|(l & -> & Hl)];
    [now destruct Nr|].
  seq_inv Hl.
  destruct (reads_value _ _ _ _ Hp Hnn) as (a & -> & Ha & _).
  destruct (reads_value _ _ _ _ Hp1 Hnn1) as (b & -> & Hb & _).
  apply range_trips_elements; [|exact T].
  index_simpl. rewrite parseInt_digits by (auto; now right).
  intros m e Hm.
  exact (proj1 (binary64_nonneg _ _ _ (integer_nonneg a) Hm)).
Qed.

(** The elements of a parsed range list. *)
Lemma rangeList_elements (rule : string) (fuel : nat) :
  forall pos v pos',
    rangeList rule fuel pos = Some (v, pos') -> v <> VNull ->
    exists l, v = VArr l /\ Forall list_element l.
Proof.
  induction fuel as [|fuel IH]; intros pos v pos' E N; [discriminate|].
  destruct (rangeList_inv _ _ _ _ _ E) as (res & Es & ->).
  destruct (sequence_inv _ _ _ _ Es) as [[-> _]|(l & -> & Hl)];
    [now destruct N|].
  seq_inv Hl. cbn [is_null]. cbv zeta. index_simpl.
  eexists. split; [reflexivity|].
  assert (F0 : Forall list_element (js_concat [] r)).
  { revert Hp. cbn [choice].
    destruct (range rule pos) as [[rr qq]|] eqn:Er; [|discriminate].
    destruct (is_null rr) eqn:Nr.
    - destruct (value rule qq) as [[vv q']|] eqn:Ev; [|discriminate].
      destruct (is_null vv) eqn:Nv; intros [= <- <-]; [congruence|].
      apply is_null_false in Nv.
      destruct (reads_value _ _ _ _ Ev Nv) as (d & -> & Hd & _).
      cbn [js_concat app]. constructor; [|constructor].
      left. now exists d.
    - intros [= <- <-]. apply is_null_false in Nr.
      destruct (range_elements _ _ _ _ Er Nr) as (l0 & -> & F).
      exact F. }
  destruct (nOrMore_0_inv _ _ _ _ _ Hp0) as (tails & -> & Hrep).
  assert (Ft : Forall (fun t => exists lt, t = VArr lt /\ Forall list_element lt)
                 tails).
  { apply (fun H => rep_run_Forall _ _ H _ _ _ Hrep).
    intros pt vt qt Ev Nv.
    destruct (wraps_inv _ _ _ _ _ _ (rangeTail_wraps rule _) Ev)
      as (res1 & Es1 & ->).
    destruct (sequence_inv _ _ _ _ Es1) as [[-> _]|(l1 & -> & Hl1)];
      [now destruct Nv|].
    seq_inv Hl1. cbn [is_null]. index_simpl.
    match goal with
    | H : rangeList rule fuel _ = Some (?x, _), Hx : ?x <> VNull |- _ =>
        exact (IH _ _ _ H Hx)
    end. }
  destruct Ft as [|t tails (lt & -> & Flt) _]; index_simpl; cbn [truthy].
  - exact F0.
  - cbn [js_concat]. apply Forall_app. split; assumption.
Qed.

Lemma nth_length_last (d d' : jsval) (l : list jsval) :
  forall x, nth (List.length l) (x :: l) d' = last (x :: l) d.
Proof.
  induction l as [|y l IH]; intros x; [reflexivity|].
  change (nth (List.length l) (y :: l) d' = last (y :: l) d). apply IH.
Qed.

Lemma nth_last (l : list jsval) (d d' : jsval) :
  l <> [] -> nth (List.length l - 1) l d' = last l d.
Proof.
  destruct l as [|x l]; [congruence|]. intros _.
  replace (List.length (x :: l) - 1)%nat with (List.length l)
    by (simpl; lia).
  apply nth_length_last.
Qed.

Lemma get_index_last (l : list jsval) (d : jsval) :
  l <> [] -> get_index (VArr l) (last_index (VArr l)) = last l d.
Proof.
  intros Hne. unfold last_index, get_index. cbn [elements].
  destruct (Z.ltb_spec (Z.of_nat (List.length l) - 1) 0) as [H|H].
  - destruct l; [congruence | cbn [List.length] in H; lia].
  - replace (Z.to_nat (Z.of_nat (List.length l) - 1))
      with (List.length l - 1)%nat by lia.
    now apply nth_last.
Qed.

Lemma last_In (l : list jsval) (d : jsval) : l <> [] -> In (last l d) l.
Proof.
  induction l as [|x l IH]; [congruence|]. intros _.
  destruct l as [|y l]; [now left|]. right. apply IH. discriminate.
Qed.

(** The test of [within], on the range list that was parsed. *)
Lemma contained_between (l : list jsval) (x : num) (a b c d : jsval) :
  Forall list_element l ->
  contained (VArr [VNum x; a; b; c; d; VArr l]) = between x l.
Proof.
  intros Hl. unfold contained. index_simpl.
  destruct l as [|first rest] eqn:El.
  - index_simpl. reflexivity.
  - rewrite (get_index_last _ first) by discriminate. index_simpl.
    rewrite <- El in *.
    assert (Hfirst : In first l) by (rewrite El; now left).
    assert (Hlast : In (last l first) l)
      by (apply last_In; rewrite El; discriminate).
    rewrite Forall_forall in Hl.
    rewrite (parseInt_list_element first 0 (Hl _ Hfirst)) by now left.
    rewrite (parseInt_list_element _ 0 (Hl _ Hlast)) by now left.
    rewrite El. reflexivity.
Qed.

Lemma negated_nots (e0 : jsval) (nots rest : list jsval) :
  Forall (eq (VStr "not")) nots ->
  negated (VArr (e0 :: VArr nots :: rest)) = negb (is_nil nots).
Proof.
  intros H. unfold negated. index_simpl.
  destruct H as [|n0 nots' <- _]; index_simpl; reflexivity.
Qed.



(** The last element [9007199254740993] counts as [2^53], which is not
    below it. *)
Example within_rounds_the_bound :
  within "n within 0..1,9007199254740993" (num_of_Z (2 ^ 53)) 0%nat
  = Some (VBool false, 30%nat).
Proof. vm_compute. reflexivity. Qed.

Example within_fraction :
  map (fun x => within "n within 2..4,9" x 0%nat)
      [Fin 25 1; Fin 2 0; Fin 85 1; Fin 9 0; Fin 19 1; NaN]
  = map (fun b => Some (VBool b, 15%nat))
      [true; true; true; false; false; false].
Proof. vm_compute. reflexivity. Qed.

Example within_empty_list :
  within "n within 5..1" (Fin 3 0) 0%nat = Some (VBool false, 13%nat) /\
  within "n not within 5..1" (Fin 3 0) 0%nat = Some (VBool true, 17%nat).
Proof. split; vm_compute; reflexivity. Qed.

(** ** Further properties of the combinators and of the driver *)

(** Without the sign [..] in the text, [range] fails wherever it is
    called, and no loop is run. *)
Lemma no_range_null (text : string) :
  indexOf text ".." = -1 -> forall pos, range text pos = Some (VNull, pos).
Proof.
  unfold indexOf. destruct (index 0 ".." text) as [k|] eqn:I; [lia|].
  intros _ pos. apply range_fail. unfold sequence. cbn [sequence_loop].
  destruct (makeRegexParser_total text (re_plus is_digit) pos) as (v1 & p1 & E1);
    [lia|].
  fold (value text) in E1. rewrite E1.
  destruct (is_null v1); [reflexivity|].
  assert (E2 : _range_ text p1 = Some (VNull, p1)).
  { unfold _range_, makeStringParser, substr. rewrite Nat2Z.id.
    destruct (String.eqb_spec (substring p1 (String.length "..") text) "..")
      as [E|_]; [|reflexivity].
    destruct (index_correct3 0 p1 ".." text I ltac:(discriminate)
                (Nat.le_0_l p1) E). }
  now rewrite E2.
Qed.

Section NoRange.

Variable text : string.
Hypothesis no_range : forall pos, range text pos = Some (VNull, pos).

(** Without ranges every element of a list is a value of the text, and
    took a character of it. *)
Lemma list_of_length (fuel : nat) :
  (forall pos l pos',
     rangeList text fuel pos = Some (VArr l, pos') ->
     (List.length l <= pos' - pos)%nat) ->
  forall pos res pos',
    sequence [choice [range text; value text];
              nOrMore text 0 (rangeTail text (rangeList text fuel))] pos
    = Some (res, pos') ->
    res <> VNull -> (List.length (list_of res) <= pos' - pos)%nat.
Proof.
  intros IH pos res pos' Es Nres.
  destruct (sequence_inv _ _ _ _ Es) as [[-> _]|(l & -> & Hl)];
    [now destruct Nres|].
  seq_inv Hl.
  assert (Hr : exists d, r = VStr d /\ (pos < q)%nat).
  { revert Hp. cbn [choice]. rewrite no_range. cbn [is_null].
    destruct (value text pos) as [[vv q']|] eqn:Ev; [|discriminate].
    destruct (is_null vv) eqn:Nv; intros [= <- <-]; [now destruct Hnn|].
    apply is_null_false in Nv.
    destruct (reads_value _ _ _ _ Ev Nv) as (d & -> & _ & _).
    exists d. split; [reflexivity|].
    exact (good_consuming _ _ (value_good text) _ _ _ Ev Nv). }
  destruct Hr as (d & -> & Hq).
  destruct (nOrMore_0_inv _ _ _ _ _ Hp0) as (tails & -> & Hrep).
  pose proof (rangeTail_safe text _ (rangeList_safe text fuel)) as Hsafe.
  unfold list_of. index_simpl. cbn [js_concat app].
  inversion Hrep as [? ? Estop|? q1 ? tl rest Etl Ntl Hrest]; subst.
  - destruct (Hsafe _ _ _ Estop) as [Hq0 _]. rewrite (Hq0 eq_refl) in *.
    index_simpl. cbn [truthy List.length]. lia.
  - destruct (wraps_inv _ _ _ _ _ _ (rangeTail_wraps text _) Etl)
      as (res1 & Es1 & ->).
    destruct (sequence_inv _ _ _ _ Es1) as [[-> _]|(l1 & -> & Hl1)];
      [now destruct Ntl|].
    seq_inv Hl1.
    match goal with
    | H : _comma_ text _ = Some _, Hc : _ <> VNull |- _ =>
        destruct (reads_literal _ _ _ _ _ H Hc) as (-> & [Hcomma _])
    end.
    match goal with
    | H : rangeList text fuel ?p = Some (?x, ?y), Hx : ?x <> VNull |- _ =>
        destruct (rangeList_elements _ _ _ _ _ H Hx) as (lx & -> & _);
        pose proof (IH _ _ _ H) as Hlen;
        pose proof (rangeList_maximal _ _ _ _ _ H Hx) as Hmax;
        pose proof (rangeList_consuming text fuel _ _ _ H Hx) as Hcons
    end.
    assert (rest = []) as ->.
    { inversion Hrest as [|? ? ? r' ? E' N' _]; subst; [reflexivity|].
      now destruct (N' (Hmax fuel _ _ E')). }
    inversion Hrest as [? ? Estop|]; subst.
    destruct (Hsafe _ _ _ Estop) as [Hq0 _]. rewrite (Hq0 eq_refl) in *.
    cbn [is_null]. index_simpl. cbn [truthy js_concat app List.length]. lia.
Qed.

Lemma no_range_list_length (fuel : nat) :
  forall pos l pos',
    rangeList text fuel pos = Some (VArr l, pos') ->
    (List.length l <= pos' - pos)%nat.
Proof.
  induction fuel as [|fuel IH]; intros pos l pos' E; [discriminate|].
  destruct (rangeList_inv _ _ _ _ _ E) as (res & Es & Hv).
  destruct (is_null res) eqn:N; [discriminate|].
  apply is_null_false in N. cbv beta zeta in Hv. injection Hv as ->.
  exact (list_of_length fuel IH _ _ _ Es N).
Qed.

(** A text that is no longer than an array can be has only range lists
    that are built. *)
Lemma no_range_total (fuel : nat) :
  Z.of_nat (String.length text) <= max_array_length ->
  forall pos, (String.length text - pos < fuel)%nat ->
    exists v pos', rangeList text fuel pos = Some (v, pos').
Proof.
  intros Hlen.
  induction fuel as [|fuel IH]; intros pos Hf; [lia|].
  assert (T : exists res q,
             sequence [choice [range text; value text];
                       nOrMore text 0 (rangeTail text (rangeList text fuel))] pos
             = Some (res, q)).
  { apply sequence_total_cons.
    - cbn [choice]. rewrite no_range. cbn [is_null].
      destruct (makeRegexParser_total text (re_plus is_digit) pos)
        as (r & q & E); [lia|].
      fold (value text) in E. rewrite E.
      destruct (is_null r) eqn:N.
      { exists VNull, q. split; [reflexivity|]. intros C. now destruct C. }
      exists r, q. split; [reflexivity|]. intros _.
      apply is_null_false in N.
      pose proof (good_consuming _ _ (value_good text) _ _ _ E N) as Hlt.
      destruct (good_safe _ _ (value_good text) _ _ _ E) as [_ [->|[_ Hle]]];
        [lia|].
      forall_list.
      apply nOrMore_total_from.
      + apply rangeTail_safe, rangeList_safe.
      + apply rangeTail_consuming, rangeList_safe.
      + apply rangeTail_total_from; [apply rangeList_safe|].
        intros pos1 Hpos1. apply IH. lia.
    - forall_list. apply (safe_restoring text).
      apply (nOrMore_moves _ (inside_refl text) (inside_trans text)).
      apply rangeTail_safe, rangeList_safe. }
  destruct T as (res & q & Es). rewrite rangeList_S, Es.
  destruct (is_null res) eqn:N; [eauto|].
  apply is_null_false in N.
  pose proof (list_of_length fuel (no_range_list_length fuel) _ _ _ Es N) as L.
  assert (S0 : safe text
                 (sequence [choice [range text; value text];
                            nOrMore text 0 (rangeTail text (rangeList text fuel))])).
  { apply (sequence_moves _ (inside_refl text) (inside_trans text)).
    forall_list.
    + apply good_safe. auto with cursor.
    + apply (nOrMore_moves _ (inside_refl text) (inside_trans text)).
      apply rangeTail_safe, rangeList_safe. }
  destruct (S0 _ _ _ Es) as [_ Hin].
  assert (F : fits (list_of res) = true).
  { unfold fits. apply Z.leb_le. destruct Hin as [->|[_ Hle]]; lia. }
  rewrite F. eauto.
Qed.

End NoRange.

(** A text without the sign [..] that is no longer than an array can be
    has only range lists that are built. *)
Lemma no_range_halting (text : string) :
  indexOf text ".." = -1 ->
  Z.of_nat (String.length text) <= max_array_length ->
  halting text.
Proof.
  intros Hno Hlen pos _.
  apply (no_range_total text (no_range_null text Hno) _ Hlen).
  unfold max_fuel. lia.
Qed.

(** With a range that ends at [2^53] the call does not return. *)
Example range_to_2_53_does_not_end :
  pluralRuleParser "n in 9007199254740992..9007199254740992 @" (Fin 1 0)
  = None.
Proof. vm_compute. reflexivity. Qed.

(** X1.  For a rule whose text has no sign [..] of a range and is no
    longer than an array can be, every call of [pluralRuleParser] ends,
    and it ends by returning a boolean: the [Error] is never thrown; at
    most one line is written to the console. *)
Theorem pluralRuleParser_returns_boolean (rule : string) (number : num) :
  indexOf (parsed_text rule) ".." = -1 ->
  Z.of_nat (String.length (parsed_text rule)) <= max_array_length ->
  exists b log,
    pluralRuleParser rule number = Some (mkOutcome (Return (VBool b)) log) /\
    (List.length log <= 1)%nat.
Proof.
  intros H Hlen.
  destruct (pluralRuleParser_total rule number (no_range_halting _ H Hlen))
    as [o E].
  destruct (pluralRuleParser_never_throws _ _ _ E) as [b Hb].
  exists b, (console o). split.
  - rewrite E. destruct o as [c l]. simpl in Hb. now subst c.
  - revert E. unfold pluralRuleParser.
    destruct (String.length _ =? 0)%nat; [intros [= <-]; simpl; lia|].
    destruct (start _ number 0%nat) as [[v q]|]; [|discriminate].
    destruct (is_null v); [intros [= <-]; simpl; lia|].
    destruct (negb _); intros [= <-]; simpl; lia.
Qed.

Lemma pluralRuleParser_returns_boolean_witness :
  exists b log,
    pluralRuleParser "n mod 10 is 2 or so @integer 2, 12" (Fin 12 0)
    = Some (mkOutcome (Return (VBool b)) log) /\
    (List.length log <= 1)%nat.
Proof.
  apply (pluralRuleParser_returns_boolean
           "n mod 10 is 2 or so @integer 2, 12" (Fin 12 0)).
  - reflexivity.
  - vm_compute. discriminate.
Defined.

(** X2.  [choice] returns what the first parser that does not return
    [null] returns, the earlier ones having failed at the same position;
    it returns [null], with the cursor unmoved, only when all fail. *)
Theorem choice_first_match (ps : list parser) (pos : nat) (v : jsval)
    (pos' : nat) :
  Forall restoring ps ->
  choice ps pos = Some (v, pos') ->
  (v = VNull /\ pos' = pos /\ all_fail ps pos) \/
  (v <> VNull /\
   exists before p after,
     ps = (before ++ p :: after)%list /\ all_fail before pos /\
     p pos = Some (v, pos')).
Proof.
  intros H. revert v pos'. induction H as [|p ps Hp _ IH]; intros v pos'.
  - simpl. intros [= <- <-]. left. repeat split. constructor.
  - simpl. destruct (p pos) as [[r q]|] eqn:E; [|discriminate].
    destruct (is_null r) eqn:N.
    + apply is_null_true in N. subst r.
      destruct (Hp _ _ _ E) as [Hq _]. specialize (Hq eq_refl). subst q.
      intros C. destruct (IH _ _ C) as [(-> & -> & Hall)|(Nv & b & p0 & a & -> & Hb & Ep)].
      * left. repeat split. now constructor.
      * right. split; [exact Nv|]. exists (p :: b), p0, a.
        split; [reflexivity|]. split; [now constructor | exact Ep].
    + intros [= <- <-]. apply is_null_false in N. right. split; [exact N|].
      exists [], p, ps. split; [reflexivity|]. split; [constructor | exact E].
Qed.

Lemma choice_first_match_witness :
  exists before p after,
    [_mod_ "n % 3"; _percent_ "n % 3"] = (before ++ p :: after)%list /\
    all_fail before 2 /\ p 2%nat = Some (VStr "%", 3%nat).
Proof.
  destruct (choice_first_match [_mod_ "n % 3"; _percent_ "n % 3"] 2
              (VStr "%") 3) as [(H & _)|(_ & H)].
  - forall_list; apply (good_restoring "n % 3"); auto with cursor.
  - vm_compute. reflexivity.
  - discriminate H.
  - exact H.
Defined.

(** ** What the relations compute *)

(** The loop of [_in] and [not_in] finds [x] exactly when [x] is listed. *)
Lemma member_listed (l : list jsval) (x : num) :
  Forall list_element l -> member (VNum x) l = listed x l.
Proof.
  induction 1 as [|e l He _ IH]; [reflexivity|].
  cbn [member listed existsb strict_eq].
  rewrite (parseInt_list_element e 10 He) by now right.
  destruct (num_eqb (element e) x); [reflexivity | exact IH].
Qed.



(** The value [9007199254740993] is read as [2^53]. *)
Example is_rounds_the_value :
  is_ "n is 9007199254740993" (num_of_Z (2 ^ 53)) 0%nat
  = Some (VBool true, 21%nat).
Proof. vm_compute. reflexivity. Qed.







(** ** The sample annotations *)

Lemma index_first_occurrence (c : ascii) (r s : string) :
  occurs c r = false ->
  index 0 (String c EmptyString) (r ++ String c s) = Some (String.length r).
Proof.
  intros H. induction r as [|b r IH].
  - cbn [append String.length]. simpl.
    destruct (ascii_dec c c) as [_|Hc]; [|now destruct Hc].
    destruct s; reflexivity.
  - simpl in H. apply orb_false_iff in H. destruct H as [Hb Hr].
    cbn [append String.length]. simpl.
    destruct (ascii_dec c b) as [->|_].
    + rewrite Ascii.eqb_refl in Hb. discriminate.
    + now rewrite (IH Hr).
Qed.

Lemma substring_prefix_app (r s : string) :
  substring 0 (String.length r) (r ++ s) = r.
Proof.
  induction r as [|b r IH]; [destruct s; reflexivity|].
  cbn [append String.length substring]. now rewrite IH.
Qed.

(** The text that is parsed is the trimmed text before the first [@]. *)
Lemma stripped_rule (rule samples : string) :
  occurs "@" rule = false ->
  trim (substr (rule ++ "@" ++ samples) 0 (indexOf (rule ++ "@" ++ samples) "@"))
  = trim rule.
Proof.
  intros H. unfold indexOf, substr.
  change ("@" ++ samples) with (String "@" samples).
  rewrite (index_first_occurrence _ _ _ H), Nat2Z.id.
  now rewrite substring_prefix_app.
Qed.

(** X8.  Whatever follows the first [@] of a rule string (the sample
    annotations) changes nothing: the call returns and logs the same as
    for the rule cut after that [@]. *)
Theorem samples_are_ignored (rule samples : string) (number : num) :
  occurs "@" rule = false ->
  pluralRuleParser (rule ++ "@" ++ samples) number
  = pluralRuleParser (rule ++ "@") number.
Proof.
  intros H. unfold pluralRuleParser.
  rewrite (stripped_rule rule samples H).
  change (rule ++ "@") with (rule ++ "@" ++ "").
  now rewrite (stripped_rule rule "" H).
Qed.

Lemma samples_are_ignored_witness :
  pluralRuleParser ("n in 2..4 " ++ "@" ++ "integer 2~4 @decimal 2.0") (Fin 3 0)
  = pluralRuleParser ("n in 2..4 " ++ "@") (Fin 3 0).
Proof.
  apply (samples_are_ignored "n in 2..4 " "integer 2~4 @decimal 2.0" (Fin 3 0)).
  reflexivity.
Defined.

(** ** The integer part that [parseInt] reads from a number *)

Lemma digits_value_shift (p : string) :
  all_chars is_digit p = true ->
  forall a,
    digits_value 10 p a
    = a * 10 ^ Z.of_nat (String.length p) + digits_value 10 p 0 /\
    0 <= digits_value 10 p 0 < 10 ^ Z.of_nat (String.length p).
Proof.
  induction p as [|c p IH]; intros H a.
  - cbn [digits_value String.length]. simpl. lia.
  - cbn [all_chars] in H. apply andb_true_iff in H. destruct H as [Hc Hp].
    destruct (is_digit_value c Hc) as (d & Hd & Hd9).
    cbn [digits_value String.length]. rewrite Hd.
    destruct (IH Hp (a * 10 + d)) as [E1 _].
    destruct (IH Hp (0 * 10 + d)) as [E2 B].
    rewrite E1, E2. rewrite Nat2Z.inj_succ, Z.pow_succ_r by lia.
    pose proof (Z.pow_pos_nonneg 10 (Z.of_nat (String.length p))).
    split; nia.
Qed.

Lemma substring_all (s : string) : substring 0 (String.length s) s = s.
Proof. induction s as [|c s IH]; simpl; [reflexivity | now rewrite IH]. Qed.

Lemma substring_app_left (a b : string) (j : nat) :
  (j <= String.length a)%nat -> substring 0 j (a ++ b) = substring 0 j a.
Proof.
  revert j. induction a as [|c a IH]; intros j Hj.
  - simpl in Hj. replace j with 0%nat by lia. destruct b; reflexivity.
  - destruct j as [|j]; [reflexivity|]. cbn [append substring].
    rewrite IH by (simpl in Hj; lia). reflexivity.
Qed.

Lemma substring_app_right (a b : string) (j : nat) :
  substring 0 (String.length a + j) (a ++ b) = a ++ substring 0 j b.
Proof.
  induction a as [|c a IH]; [reflexivity|].
  cbn [String.length append Nat.add substring]. now rewrite IH.
Qed.

Lemma substring_zeros (j m : nat) :
  (j <= m)%nat -> substring 0 j (zeros m) = zeros j.
Proof.
  revert m. induction j as [|j IH]; intros m Hj.
  - destruct m; reflexivity.
  - destruct m as [|m]; [lia|]. cbn [zeros substring].
    rewrite IH by lia. reflexivity.
Qed.

Lemma integer_zeros (m : nat) : integer (zeros m) = 0.
Proof.
  unfold integer.
  assert (G : forall a, digits_value 10 (zeros m) a = a * 10 ^ Z.of_nat m).
  { induction m as [|m IH]; intros a; [simpl; lia|].
    cbn [zeros digits_value].
    change (digit_value "0") with (Some 0). cbv iota.
    rewrite IH, Nat2Z.inj_succ, Z.pow_succ_r by lia. lia. }
  rewrite G. lia.
Qed.

(** The first [j] digits of a value denote its quotient by the power of
    ten of the digits that are left. *)
Lemma integer_prefix (s : string) (j : nat) :
  is_value s -> (1 <= j <= String.length s)%nat ->
  is_value (substring 0 j s) /\
  integer (substring 0 j s)
  = integer s / 10 ^ Z.of_nat (String.length s - j).
Proof.
  intros [Hne Hall] Hj.
  remember (substring 0 j s) as p1 eqn:E1.
  remember (substring j (String.length s - j) s) as p2 eqn:E2.
  assert (Hs : s = p1 ++ p2).
  { rewrite <- (substring_all s) at 1.
    replace (String.length s) with (j + (String.length s - j))%nat at 1 by lia.
    rewrite substring_split. now subst p1 p2. }
  assert (L1 : String.length p1 = j)
    by (subst p1; rewrite substring_length; lia).
  assert (L2 : String.length p2 = (String.length s - j)%nat)
    by (subst p2; rewrite substring_length; lia).
  rewrite <- L2. clear E1 E2 L2. subst s.
  rewrite all_chars_app in Hall. apply andb_true_iff in Hall.
  destruct Hall as [H1 H2].
  split.
  - split; [|exact H1]. destruct p1; [simpl in L1; lia | discriminate].
  - unfold integer. rewrite digits_value_app by exact H1.
    destruct (digits_value_shift p2 H2 (digits_value 10 p1 0)) as [E B].
    rewrite E.
    apply Z.div_unique with (digits_value 10 p2 0); [left; lia | ring].
Qed.

Lemma take_while_stop (cls : ascii -> bool) (p rest : string) (c : ascii) :
  all_chars cls p = true -> cls c = false ->
  take_while cls (p ++ String c rest) = p.
Proof.
  intros Hp Hc. induction p as [|b p IH]; cbn [append take_while].
  - now rewrite Hc.
  - cbn [all_chars] in Hp. apply andb_true_iff in Hp. destruct Hp as [-> Hp].
    now rewrite IH.
Qed.

(** Digits followed by a decimal point: the digits are read. *)
Lemma read_int_point (p rest : string) (radix : Z) :
  is_value p -> radix = 0 \/ radix = 10 ->
  read_int (p ++ String "." rest) radix = num_of_Z (integer p).
Proof.
  intros [Hne Hall] Hr. destruct p as [|c d]; [congruence|].
  cbn [all_chars] in Hall. apply andb_true_iff in Hall.
  destruct Hall as [Hc Hd].
  destruct (is_digit_facts c Hc) as (Hw & Hrd & Hminus & Hplus & Hx & HX).
  unfold read_int. cbn [append]. unfold trim_start. cbn [drop_while].
  rewrite Hw. unfold starts_with.
  set (tail := d ++ String "." rest).
  assert (P1 : prefix "-" (String c tail) = false).
  { destruct (prefix "-" (String c tail)) eqn:P; [|reflexivity].
    apply prefix_one in P. congruence. }
  assert (P2 : prefix "+" (String c tail) = false).
  { destruct (prefix "+" (String c tail)) eqn:P; [|reflexivity].
    apply prefix_one in P. congruence. }
  rewrite P1, P2. cbn [orb].
  assert (Hsecond : forall y s', tail = String y s' ->
                      y <> "x"%char /\ y <> "X"%char).
  { intros y s' Ht. unfold tail in Ht. destruct d as [|c' d'].
    - cbn [append] in Ht. injection Ht as <- _. split; discriminate.
    - cbn [append] in Ht. injection Ht as <- _.
      cbn [all_chars] in Hd. apply andb_true_iff in Hd. destruct Hd as [Hc' _].
      destruct (is_digit_facts c' Hc') as (_ & _ & _ & _ & ? & ?). auto. }
  assert (P3 : prefix "0x" (String c tail) = false).
  { destruct (prefix "0x" (String c tail)) eqn:P; [|reflexivity].
    apply prefix_two in P. destruct P as [s' Ht].
    now destruct (Hsecond _ _ Ht) as [? _]. }
  assert (P4 : prefix "0X" (String c tail) = false).
  { destruct (prefix "0X" (String c tail)) eqn:P; [|reflexivity].
    apply prefix_two in P. destruct P as [s' Ht].
    now destruct (Hsecond _ _ Ht) as [_ ?]. }
  rewrite P3, P4.
  assert (Hcheck : negb (radix =? 0) && ((radix <? 2) || (36 <? radix)) = false).
  { destruct Hr as [-> | ->]; reflexivity. }
  rewrite Hcheck.
  assert (HR : (if ((radix =? 0) || (radix =? 16)) && (false || false)
               then 16 else if radix =? 0 then 10 else radix) = 10).
  { destruct Hr as [-> | ->]; reflexivity. }
  replace (((radix =? 0) || (radix =? 16)) && (false || false)) with false in *
    by (destruct Hr as [-> | ->]; reflexivity).
  rewrite HR.
  change (String c tail) with (String c d ++ String "." rest).
  rewrite (take_while_stop (is_radix_digit 10) (String c d) rest ".").
  - reflexivity.
  - cbn [all_chars]. rewrite Hrd. now apply all_digits_radix.
  - reflexivity.
Qed.

Lemma parseInt_point (p rest : string) (radix : Z) :
  is_value p -> radix = 0 \/ radix = 10 ->
  parseInt (VStr (p ++ String "." rest)) radix = binary64 (integer p).
Proof.
  intros Hp Hr. unfold parseInt. cbn [to_string].
  now rewrite read_int_point.
Qed.

Lemma drop_end_nonempty (s : string) :
  0 < integer s -> drop_end is_zero_char s <> "".
Proof.
  intros H E. pose proof (drop_end_zeros s) as Hz. rewrite E in Hz.
  cbn [append] in Hz. rewrite <- Hz, integer_zeros in H. lia.
Qed.

(** [parseInt] of a positive number between [10^-6] and [10^21] is its
    integer part: such a number prints without an exponent. *)
Lemma parseInt_decimal (m : Z) (e : nat) (radix : Z) :
  0 < m -> pow10 e <= m * 10 ^ 6 -> m < 10 ^ 21 * pow10 e ->
  radix = 0 \/ radix = 10 ->
  parseInt (VNum (Fin m e)) radix = num_of_Z (m / pow10 e).
Proof.
  intros Hm Hlo Hhi Hr. unfold pow10 in *.
  destruct (string_of_pos_Z_spec m Hm) as (Hv & Hint & Hlow).
  set (all := string_of_pos_Z m) in *.
  set (L := String.length all) in *.
  assert (Hup : m < 10 ^ Z.of_nat L).
  { destruct Hv as [_ Hall].
    destruct (digits_value_shift all Hall 0) as [_ B].
    unfold integer in Hint. rewrite Hint in B. exact (proj2 B). }
  pose proof (drop_end_length is_zero_char all) as Hk.
  pose proof (drop_end_zeros all) as Hz.
  assert (Hk1 : drop_end is_zero_char all <> "")
    by (apply drop_end_nonempty; lia).
  set (digits := drop_end is_zero_char all) in *.
  set (k := String.length digits) in *. fold L in Hk, Hz.
  assert (Hk0 : (1 <= k)%nat)
    by (unfold k; destruct digits; [congruence | simpl; lia]).
  set (n := Z.of_nat L - Z.of_nat e).
  assert (Hn21 : n <= 21).
  { destruct (Z.le_gt_cases n 21) as [|Hgt]; [assumption|].
    assert (10 ^ (21 + Z.of_nat e) <= 10 ^ (Z.of_nat L - 1))
      by (apply Z.pow_le_mono_r; unfold n in Hgt; lia).
    rewrite Z.pow_add_r in H by lia. lia. }
  assert (Hn6 : -6 < n).
  { destruct (Z.lt_ge_cases (-6) n) as [|Hle]; [assumption|].
    assert (10 ^ (Z.of_nat L + 6) <= 10 ^ Z.of_nat e)
      by (apply Z.pow_le_mono_r; unfold n in Hle; lia).
    rewrite Z.pow_add_r in H by lia. lia. }
  assert (Hs : to_string (VNum (Fin m e)) = pos_to_string m e).
  { cbn [to_string num_to_string].
    destruct (Z.eqb_spec m 0); [lia|]. destruct (Z.ltb_spec m 0); [lia|].
    reflexivity. }
  assert (Hprefix : forall j, (1 <= j <= L)%nat -> (L - j)%nat = e ->
            is_value (substring 0 j all) /\
            integer (substring 0 j all) = m / 10 ^ Z.of_nat e).
  { intros j Hj He. destruct (integer_prefix all j Hv Hj) as [V I].
    fold L in I. rewrite He, Hint in I. auto. }
  unfold parseInt. cbv zeta iota. rewrite Hs. unfold pos_to_string.
  fold all. fold digits. fold k. fold L. fold n.
  destruct ((Z.of_nat k <=? n) && (n <=? 21)) eqn:C1.
  - apply andb_true_iff in C1. destruct C1 as [C1 _]. apply Z.leb_le in C1.
    assert (Hstr : digits ++ zeros (Z.to_nat n - k) = substring 0 (Z.to_nat n) all).
    { transitivity (substring 0 (Z.to_nat n) (digits ++ zeros (L - k)));
        [|now rewrite Hz].
      replace (Z.to_nat n) with (String.length digits + (Z.to_nat n - k))%nat
        at 2 by (fold k; lia).
      rewrite substring_app_right, substring_zeros;
        [reflexivity | unfold n; lia]. }
    rewrite Hstr.
    destruct (Hprefix (Z.to_nat n)) as [V I]; [unfold n; lia | unfold n; lia|].
    rewrite read_int_value by assumption. now rewrite I.
  - destruct ((0 <? n) && (n <=? 21)) eqn:C2.
    + apply andb_true_iff in C2. destruct C2 as [C2 _]. apply Z.ltb_lt in C2.
      assert (Hlt : (Z.to_nat n <= k)%nat).
      { apply andb_false_iff in C1. destruct C1 as [C1|C1].
        - apply Z.leb_gt in C1. lia.
        - apply Z.leb_gt in C1. lia. }
      assert (Hstr : substring 0 (Z.to_nat n) digits = substring 0 (Z.to_nat n) all).
      { transitivity (substring 0 (Z.to_nat n) (digits ++ zeros (L - k)));
          [|now rewrite Hz].
        now rewrite substring_app_left. }
      rewrite Hstr.
      destruct (Hprefix (Z.to_nat n)) as [V I]; [unfold n in *; lia | unfold n; lia|].
      change (read_int (substring 0 (Z.to_nat n) all
                        ++ String "." (substring (Z.to_nat n)
                                         (k - Z.to_nat n) digits))
                radix = num_of_Z (m / 10 ^ Z.of_nat e)).
      rewrite read_int_point by assumption. now rewrite I.
    + destruct ((-6 <? n) && (n <=? 0)) eqn:C3.
      * apply andb_true_iff in C3. destruct C3 as [_ C3]. apply Z.leb_le in C3.
        change (read_int ("0" ++ String "." (zeros (Z.to_nat (- n)) ++ digits))
                  radix = num_of_Z (m / 10 ^ Z.of_nat e)).
        rewrite read_int_point; [| split; [discriminate | reflexivity] | assumption].
        rewrite Z.div_small; [reflexivity|]. split; [lia|].
        assert (10 ^ Z.of_nat L <= 10 ^ Z.of_nat e)
          by (apply Z.pow_le_mono_r; unfold n in C3; lia).
        lia.
      * exfalso. apply andb_false_iff in C2. apply andb_false_iff in C3.
        destruct C2 as [C2|C2], C3 as [C3|C3];
          try apply Z.ltb_ge in C2; try apply Z.leb_gt in C2;
          try apply Z.ltb_ge in C3; try apply Z.leb_gt in C3; lia.
Qed.

Example parseInt_decimal_samples :
  map (fun x => parseInt (VNum x) 0)
      [Fin 235 1; Fin 5 1; Fin 1 6; Fin 1 7; Fin 1500 2; Fin 999 3]
  = [Fin 23 0; Fin 0 0; Fin 0 0; Fin 1 0; Fin 15 0; Fin 0 0].
Proof. vm_compute. reflexivity. Qed.

Lemma parseInt_plain (x : num) (radix : Z) :
  plain x -> radix = 0 \/ radix = 10 ->
  parseInt (VNum x) radix = num_of_Z (integer_part x).
Proof.
  destruct x as [| |m e]; cbn [plain integer_part]; try tauto.
  intros [->|(Hm & Hlo & Hhi)] Hr.
  - rewrite Z.div_0_l by (unfold pow10; pose proof (Z.pow_pos_nonneg 10 (Z.of_nat e)); lia).
    destruct Hr as [-> | ->]; reflexivity.
  - now apply parseInt_decimal.
Qed.

(** ** What the operands and [mod] compute *)

(** X9.  On the letter [i] the operand [i] is the integer part of the
    number, for every number that prints without an exponent (zero, or
    from [10^-6] up to [10^21]). *)
Theorem i_is_integer_part (rule : string) (number : num) (pos : nat)
    (v : jsval) (pos' : nat) :
  plain number ->
  i rule number pos = Some (v, pos') -> v <> VNull ->
  v = VNum (num_of_Z (integer_part number)) /\ reads rule pos pos' "i".
Proof.
  intros Hp E N.
  destruct (wraps_inv _ _ _ _ _ _ (i_wraps rule number) E) as (r & Er & ->).
  destruct (is_null r) eqn:Nr; [congruence|]. apply is_null_false in Nr.
  destruct (reads_literal _ _ _ _ _ Er Nr) as (_ & R).
  split; [|exact R]. now rewrite parseInt_plain by (auto; now left).
Qed.

Lemma i_is_integer_part_witness :
  VNum (num_of_Z 23) = VNum (num_of_Z (integer_part (Fin 2375 2))) /\
  reads "i is 23" 0 1 "i".
Proof.
  apply (i_is_integer_part "i is 23" (Fin 2375 2) 0%nat
           (VNum (num_of_Z 23)) 1%nat).
  - right. unfold pow10. change (Z.of_nat 2) with 2. lia.
  - vm_compute. reflexivity.
  - discriminate.
Defined.

Lemma num_rem_integers (a b : Z) :
  num_rem (num_of_Z a) (num_of_Z b)
  = if b =? 0 then NaN else num_of_Z (Z.rem a b).
Proof.
  unfold num_rem, num_of_Z, pow10. destruct (b =? 0); [reflexivity|].
  cbn [Nat.add norm]. simpl Z.of_nat. now rewrite Z.pow_0_r, !Z.mul_1_r.
Qed.

Lemma integer_part_nonneg (x : num) : plain x -> 0 <= integer_part x.
Proof.
  destruct x as [| |m e]; cbn [plain integer_part]; try tauto.
  intros H. apply Z.div_pos; [lia|].
  unfold pow10. apply Z.pow_pos_nonneg; lia.
Qed.



(** *** The fraction operands *)

Lemma norm_below_one (e : nat) :
  forall a, Z.abs a < pow10 e ->
    match norm a e with
    | Fin a' k => Z.abs a' < pow10 k
    | _ => True
    end.
Proof.
  induction e as [|e IH]; intros a Ha; cbn [norm]; [exact Ha|].
  destruct (Z.eqb_spec (a mod 10) 0) as [Hd|Hd]; [|exact Ha].
  apply IH. unfold pow10 in *. rewrite Nat2Z.inj_succ, Z.pow_succ_r in Ha by lia.
  pose proof (Z.div_mod a 10 ltac:(lia)) as Hdm. rewrite Hd in Hdm. lia.
Qed.

(** [number % 1] is below one in absolute value. *)
Lemma fraction_below_one (number : num) :
  match num_rem number one with
  | Fin a k => Z.abs a < pow10 k
  | _ => True
  end.
Proof.
  destruct number as [| |m e]; cbn [num_rem one]; try exact I.
  change (1 =? 0) with false. cbv iota. apply norm_below_one.
  rewrite Nat.add_0_r, Z.mul_1_l.
  assert (0 < pow10 e) by (unfold pow10; apply Z.pow_pos_nonneg; lia).
  pose proof (Z.rem_bound_abs (m * pow10 0) (pow10 e) ltac:(lia)). lia.
Qed.

Lemma plain_fraction_integer_part (number : num) :
  plain (num_rem number one) -> integer_part (num_rem number one) = 0.
Proof.
  pose proof (fraction_below_one number) as B.
  destruct (num_rem number one) as [| |a k]; cbn [plain integer_part];
    try tauto.
  intros H. apply Z.div_small. lia.
Qed.

Lemma append_empty (s : string) : s ++ "" = s.
Proof. induction s as [|c s IH]; simpl; [reflexivity | now rewrite IH]. Qed.

Lemma replace_trailing_zero_cons (c : ascii) (s : string) :
  s <> "" ->
  replace_trailing_zero (String c s) = String c (replace_trailing_zero s).
Proof. destruct s; [congruence | reflexivity]. Qed.

Lemma replace_trailing_zero_app (p s : string) :
  s <> "" -> replace_trailing_zero (p ++ s) = p ++ replace_trailing_zero s.
Proof.
  intros Hs. induction p as [|c p IH]; [reflexivity|].
  cbn [append]. rewrite replace_trailing_zero_cons, IH; [reflexivity|].
  destruct p; [exact Hs | discriminate].
Qed.

(** What [drop_end] kept does not end with a zero character. *)
Lemma replace_trailing_zero_drop_end (s : string) :
  replace_trailing_zero (drop_end is_zero_char s) = drop_end is_zero_char s.
Proof.
  induction s as [|c s IH]; [reflexivity|]. cbn [drop_end].
  destruct (drop_end is_zero_char s) as [|k kept] eqn:E.
  - destruct (is_zero_char c) eqn:Z0; [reflexivity|].
    cbn [replace_trailing_zero]. now rewrite Z0.
  - rewrite replace_trailing_zero_cons by discriminate. now rewrite IH.
Qed.

(** A positive number below one and at least [10^-6] prints as [0.],
    zeros, and its digits without the trailing zeros. *)
Lemma pos_to_string_fraction (m : Z) (e : nat) :
  0 < m -> m < pow10 e -> pow10 e <= m * 10 ^ 6 ->
  exists z,
    pos_to_string m e
    = "0" ++ String "." (zeros z ++ drop_end is_zero_char (string_of_pos_Z m)) /\
    drop_end is_zero_char (string_of_pos_Z m) <> "".
Proof.
  intros Hm Hlt Hlo. unfold pow10 in *.
  destruct (string_of_pos_Z_spec m Hm) as (Hv & Hint & Hlow).
  assert (Hk1 : drop_end is_zero_char (string_of_pos_Z m) <> "")
    by (apply drop_end_nonempty; lia).
  assert (Hup : m < 10 ^ Z.of_nat (String.length (string_of_pos_Z m))).
  { destruct Hv as [_ Hall].
    destruct (digits_value_shift _ Hall 0) as [_ B].
    unfold integer in Hint. rewrite Hint in B. exact (proj2 B). }
  unfold pos_to_string.
  set (all := string_of_pos_Z m) in *.
  set (digits := drop_end is_zero_char all) in *.
  set (n := Z.of_nat (String.length all) - Z.of_nat e).
  assert (Hk0 : (1 <= String.length digits)%nat)
    by (destruct digits; [congruence | simpl; lia]).
  assert (Hn0 : n <= 0).
  { destruct (Z.le_gt_cases n 0) as [|Hgt]; [assumption|].
    assert (10 ^ Z.of_nat e <= 10 ^ (Z.of_nat (String.length all) - 1))
      by (apply Z.pow_le_mono_r; unfold n in Hgt; lia).
    lia. }
  assert (Hn6 : -6 < n).
  { destruct (Z.lt_ge_cases (-6) n) as [|Hle]; [assumption|].
    assert (10 ^ (Z.of_nat (String.length all) + 6) <= 10 ^ Z.of_nat e)
      by (apply Z.pow_le_mono_r; unfold n in Hle; lia).
    rewrite Z.pow_add_r in H by lia. lia. }
  destruct (Z.leb_spec (Z.of_nat (String.length digits)) n); [lia|].
  destruct (Z.ltb_spec 0 n); [lia|].
  destruct (Z.ltb_spec (-6) n); [|lia].
  destruct (Z.leb_spec n 0); [|lia].
  cbn [andb]. exists (Z.to_nat (- n)). split; [reflexivity | exact Hk1].
Qed.

(** X11.  On their letters the operands [t] and [v] are [0] for every
    number whose fraction [number % 1] prints without an exponent (it is
    zero, or at least [10^-6]): [parseInt] reads the [0] before the
    decimal point. *)
Theorem t_and_v_are_zero (rule : string) (number : num) (pos : nat)
    (r : jsval) (pos' : nat) :
  plain (num_rem number one) ->
  t rule number pos = Some (r, pos') \/ v rule number pos = Some (r, pos') ->
  r <> VNull -> r = VNum zero.
Proof.
  intros Hp [E|E] N.
  - destruct (wraps_inv _ _ _ _ _ _ (t_wraps rule number) E) as (k & _ & ->).
    destruct (is_null k); [congruence|]. f_equal.
    unfold t_value, fraction_text.
    pose proof (fraction_below_one number) as B.
    destruct (num_rem number one) as [| |a e]; cbn [plain] in Hp; try tauto.
    destruct Hp as [->|(Ha & Hlo & _)]; [reflexivity|].
    cbn [num_to_string].
    destruct (Z.eqb_spec a 0); [lia|]. destruct (Z.ltb_spec a 0); [lia|].
    destruct (pos_to_string_fraction a e Ha ltac:(lia) Hlo) as (z & -> & Hne).
    rewrite append_empty.
    change ("0" ++ String "." (zeros z ++ drop_end is_zero_char (string_of_pos_Z a)))
      with (("0." ++ zeros z) ++ drop_end is_zero_char (string_of_pos_Z a)).
    rewrite replace_trailing_zero_app by exact Hne.
    rewrite replace_trailing_zero_drop_end.
    change (("0." ++ zeros z) ++ drop_end is_zero_char (string_of_pos_Z a))
      with ("0" ++ String "." (zeros z ++ drop_end is_zero_char (string_of_pos_Z a))).
    rewrite parseInt_point; [reflexivity | split; [discriminate | reflexivity] | now left].
  - destruct (wraps_inv _ _ _ _ _ _ (v_wraps rule number) E) as (k & _ & ->).
    destruct (is_null k); [congruence|]. f_equal.
    unfold v_value. rewrite parseInt_plain by (auto; now left).
    now rewrite plain_fraction_integer_part.
Qed.

Lemma t_and_v_are_zero_witness :
  t "t is 5" (Fin 150 2) 0%nat = Some (VNum (Fin 0 0), 1%nat) /\
  VNum (Fin 0 0) = VNum zero.
Proof.
  assert (E : t "t is 5" (Fin 150 2) 0%nat = Some (VNum (Fin 0 0), 1%nat))
    by (vm_compute; reflexivity).
  split; [exact E|].
  apply (t_and_v_are_zero "t is 5" (Fin 150 2) 0%nat (VNum (Fin 0 0)) 1%nat).
  - change (plain (Fin 5 1)). right. unfold pow10. change (Z.of_nat 1) with 1. lia.
  - left. exact E.
  - discriminate.
Defined.

(** ** The whole evaluator on a rule [n is d] *)

Lemma sequence_loop_of_run (ps : list parser) (pos : nat) (l : list jsval)
    (pos' : nat) :
  seq_run ps pos l pos' ->
  forall orig acc,
    sequence_loop ps orig acc pos = Some (VArr (acc ++ l), pos').
Proof.
  induction 1 as [|p ps pos q pos' r l E N _ IH]; intros orig acc.
  - simpl. now rewrite app_nil_r.
  - simpl. rewrite E. apply is_null_false in N. rewrite N.
    rewrite IH, <- app_assoc. reflexivity.
Qed.

(** A run of the parsers of a [sequence] is what [sequence] returns. *)
Lemma sequence_of_run (ps : list parser) (pos : nat) (l : list jsval)
    (pos' : nat) :
  seq_run ps pos l pos' -> sequence ps pos = Some (VArr l, pos').
Proof. intros H. apply (sequence_loop_of_run _ _ _ _ H pos []). Qed.

Lemma substring_none (s : string) (a : nat) : substring a 0 s = "".
Proof.
  revert a. induction s as [|c s IH]; intros [|a]; try reflexivity.
  simpl. apply IH.
Qed.

Lemma digits_no_at (d : string) :
  all_chars is_digit d = true -> occurs "@" d = false.
Proof.
  induction d as [|c d IH]; [reflexivity|]. cbn [all_chars occurs].
  intros H. apply andb_true_iff in H. destruct H as [Hc Hd].
  rewrite (IH Hd), orb_false_r.
  destruct (Ascii.eqb_spec "@" c) as [<-|]; [|reflexivity].
  vm_compute in Hc. discriminate.
Qed.

Lemma drop_end_digits (d : string) :
  all_chars is_digit d = true -> drop_end is_whitespace d = d.
Proof.
  induction d as [|c d IH]; [reflexivity|]. cbn [all_chars drop_end].
  intros H. apply andb_true_iff in H. destruct H as [Hc Hd].
  rewrite (IH Hd). destruct (is_digit_facts c Hc) as (-> & _).
  destruct d; reflexivity.
Qed.

Lemma drop_end_cons (cls : ascii -> bool) (c : ascii) (s : string) :
  drop_end cls s = s -> s <> "" -> drop_end cls (String c s) = String c s.
Proof. intros E N. cbn [drop_end]. rewrite E. destruct s; [congruence | reflexivity]. Qed.

Section NIsValue.

Variable d : string.
Variable x : num.
Hypothesis d_value : is_value d.

Lemma text_length : String.length (n_is_text d) = (5 + String.length d)%nat.
Proof. reflexivity. Qed.

Lemma text_stripped (samples : string) :
  trim (substr ("n is " ++ d ++ "@" ++ samples) 0
          (indexOf ("n is " ++ d ++ "@" ++ samples) "@")) = (n_is_text d).
Proof.
  destruct d_value as [Hne Hall].
  change ("n is " ++ d ++ "@" ++ samples) with ((n_is_text d) ++ "@" ++ samples).
  rewrite stripped_rule.
  - unfold trim, trim_end. change (trim_start (n_is_text d)) with (n_is_text d). unfold n_is_text.
    assert (D : drop_end is_whitespace d = d) by now apply drop_end_digits.
    cbn [append].
    repeat (apply drop_end_cons; [|discriminate]).
    apply drop_end_cons; assumption.
  - unfold n_is_text. cbn [append occurs]. change (("@" =? "n")%char) with false.
    change (("@" =? " ")%char) with false. change (("@" =? "i")%char) with false.
    change (("@" =? "s")%char) with false. cbn [orb].
    now apply digits_no_at.
Qed.

Lemma text_expression : expression (n_is_text d) x 0%nat = Some (VNum x, 1%nat).
Proof. reflexivity. Qed.

Lemma text_space_1 : whitespace (n_is_text d) 1%nat = Some (VStr " ", 2%nat).
Proof. reflexivity. Qed.

Lemma text_is : _is_ (n_is_text d) 2%nat = Some (VStr "is", 4%nat).
Proof. reflexivity. Qed.

Lemma text_space_4 : whitespace (n_is_text d) 4%nat = Some (VStr " ", 5%nat).
Proof.
  destruct d_value as [Hne Hall]. unfold n_is_text.
  destruct d as [|c d']; [congruence|].
  cbn [all_chars] in Hall. apply andb_true_iff in Hall. destruct Hall as [Hc _].
  destruct (is_digit_facts c Hc) as (Hw & _).
  unfold whitespace, makeRegexParser, re_plus, substr_from.
  cbn [append String.length Nat.sub substring take_while].
  change (is_whitespace " ") with true. cbv iota. rewrite Hw. reflexivity.
Qed.

Lemma text_value :
  value (n_is_text d) 5%nat = Some (VStr d, String.length (n_is_text d)).
Proof.
  destruct d_value as [Hne Hall]. unfold n_is_text.
  unfold value, makeRegexParser, re_plus, substr_from.
  cbn [append String.length Nat.sub substring].
  rewrite Nat.sub_0_r, substring_all, (take_while_all _ _ Hall).
  destruct (String.eqb_spec d "") as [|_]; [congruence|]. reflexivity.
Qed.

Lemma text_end : whitespace (n_is_text d) (String.length (n_is_text d)) = Some (VNull, String.length (n_is_text d)).
Proof.
  unfold whitespace, makeRegexParser, re_plus, substr_from.
  rewrite Nat.sub_diag, substring_none. reflexivity.
Qed.

Lemma text_is_ :
  is_ (n_is_text d) x 0%nat
  = Some (VBool (num_eqb x (binary64 (integer d))), String.length (n_is_text d)).
Proof.
  assert (R : seq_run [expression (n_is_text d) x; whitespace (n_is_text d); _is_ (n_is_text d);
                       whitespace (n_is_text d); value (n_is_text d)] 0%nat
                [VNum x; VStr " "; VStr "is"; VStr " "; VStr d]
                (String.length (n_is_text d))).
  { econstructor; [exact text_expression | discriminate|].
    econstructor; [exact text_space_1 | discriminate|].
    econstructor; [exact text_is | discriminate|].
    econstructor; [exact text_space_4 | discriminate|].
    econstructor; [exact text_value | discriminate|]. constructor. }
  pose proof (is__wraps (n_is_text d) x 0%nat) as W.
  rewrite (sequence_of_run _ _ _ _ R) in W. rewrite W.
  cbn [is_null]. index_simpl.
  rewrite parseInt_digits by (auto; now right). reflexivity.
Qed.

Lemma text_relation :
  relation (n_is_text d) x 0%nat
  = Some (VBool (num_eqb x (binary64 (integer d))), String.length (n_is_text d)).
Proof. unfold relation. cbn [choice]. now rewrite text_is_. Qed.

(** After the relation the (n_is_text d) is at its end: no keyword follows. *)
Lemma text_junction_fails (kw c : parser) :
  sequence (junction (n_is_text d) x kw c) 0%nat = Some (VNull, 0%nat).
Proof.
  unfold junction, sequence. cbn [sequence_loop].
  rewrite text_relation. cbn [is_null]. now rewrite text_end.
Qed.

Lemma text_condition (fuel : nat) :
  condition (n_is_text d) x (S fuel) 0%nat
  = Some (VBool (num_eqb x (binary64 (integer d))), String.length (n_is_text d)).
Proof.
  rewrite condition_S. unfold sequence, alternatives. cbn [sequence_loop choice].
  pose proof (and__wraps (n_is_text d) x (condition (n_is_text d) x fuel) 0%nat) as Wa.
  rewrite text_junction_fails in Wa. rewrite Wa. cbn [is_null].
  pose proof (or__wraps (n_is_text d) x (condition (n_is_text d) x fuel) 0%nat) as Wo.
  rewrite text_junction_fails in Wo. rewrite Wo. cbn [is_null].
  rewrite text_relation. reflexivity.
Qed.

End NIsValue.

(** X12.  For every value [d], every number and whatever the sample
    annotations are, the rule [n is d@...] is parsed to its end and the
    call returns whether the number equals the double nearest to the
    integer of [d] (up to [max_safe_integer] that integer itself),
    without writing a warning. *)
Theorem n_is_value_end_to_end (d samples : string) (x : num) :
  is_value d ->
  pluralRuleParser ("n is " ++ d ++ "@" ++ samples) x
  = Some (mkOutcome (Return (VBool (num_eqb x (binary64 (integer d))))) []).
Proof.
  intros Hd. unfold pluralRuleParser. rewrite (text_stripped d Hd).
  change (String.length (n_is_text d) =? 0)%nat with false. cbv iota.
  unfold start, max_fuel. rewrite (text_condition d x Hd).
  cbn [is_null]. now rewrite Nat.eqb_refl.
Qed.

Lemma n_is_value_end_to_end_witness :
  is_value "12" /\
  pluralRuleParser ("n is " ++ "12" ++ "@" ++ "integer 12") (Fin 120 1)
  = Some (mkOutcome (Return (VBool true)) []).
Proof.
  assert (V : is_value "12") by (split; [discriminate | reflexivity]).
  split; [exact V|].
  apply (n_is_value_end_to_end "12" "integer 12" (Fin 120 1) V).
Defined.

(** ** The two readings of [!=] *)

(** Where a value can be read, [rangeList] does not fail: what it
    returns there is a list. *)
Lemma rangeList_after_value (rule : string) (fuel pos : nat) (v : jsval)
    (q : nat) (r : jsval) (p : nat) :
  value rule pos = Some (v, q) -> v <> VNull ->
  rangeList rule fuel pos = Some (r, p) -> r <> VNull.
Proof.
  intros Ev Nv E. destruct fuel as [|fuel]; [discriminate|].
  destruct (rangeList_inv _ _ _ _ _ E) as (res & Es & ->).
  assert (C : exists r0 p0, choice [range rule; value rule] pos = Some (r0, p0)
                            /\ is_null r0 = false).
  { revert Es. unfold sequence. cbn [sequence_loop choice].
    destruct (range rule pos) as [[rr qq]|] eqn:Er; [|discriminate].
    destruct (is_null rr) eqn:Nr; [|eauto].
    apply is_null_true in Nr. subst rr.
    destruct (good_safe _ _ (range_good rule) _ _ _ Er) as [Hq _].
    rewrite (Hq eq_refl), Ev. apply is_null_false in Nv. rewrite Nv. eauto. }
  destruct C as (r0 & p0 & C & N0).
  unfold sequence in Es. cbn [sequence_loop] in Es. rewrite C, N0 in Es.
  destruct (nOrMore rule 0 _ p0) as [[r1 p1]|] eqn:E1; [|discriminate].
  destruct (nOrMore_0_inv _ _ _ _ _ E1) as (tails & -> & _).
  cbn [is_null] in Es. injection Es as <- <-. cbn [is_null]. discriminate.
Qed.



Example sign_reads_the_list :
  relation "n != 3,5" (Fin 5 0) 0%nat = Some (VBool false, 8%nat) /\
  isnot "n != 3,5" (Fin 5 0) 0%nat = Some (VBool true, 6%nat).
Proof. split; vm_compute; reflexivity. Qed.

(** ** Tokens and the cursor *)

Lemma get_some_length (s : string) (k : nat) (c : ascii) :
  String.get k s = Some c -> (k < String.length s)%nat.
Proof.
  revert k. induction s as [|b s IH]; intros k H; [destruct k; discriminate|].
  destruct k as [|k]; simpl in *; [lia|]. apply IH in H. lia.
Qed.

Lemma take_while_next (cls : ascii -> bool) (s : string) (c : ascii) :
  String.get (String.length (take_while cls s)) s = Some c -> cls c = false.
Proof.
  induction s as [|b s IH]; [discriminate|]. cbn [take_while].
  destruct (cls b) eqn:B.
  - cbn [String.length String.get]. exact IH.
  - cbn [String.length String.get]. now intros [= <-].
Qed.

(** X14.  A token of the form [/^c+/] ([whitespace], [value]) reads the
    longest run of characters of the class at the cursor: the run is not
    empty, it is the text between the old and the new cursor, and the
    character at the new cursor, if any, is not of the class. *)
Theorem makeRegexParser_is_greedy (rule : string) (cls : ascii -> bool)
    (pos : nat) (v : jsval) (pos' : nat) :
  makeRegexParser rule (re_plus cls) pos = Some (v, pos') -> v <> VNull ->
  exists m,
    v = VStr m /\ m <> "" /\ all_chars cls m = true /\
    reads rule pos pos' m /\
    (forall c, String.get pos' rule = Some c -> cls c = false).
Proof.
  intros E N.
  destruct (makeRegexParser_inv _ _ _ _ _ E) as [[-> _]|(m & -> & -> & Em)];
    [congruence|].
  destruct (re_plus_match _ _ _ _ Em) as (Hne & Hm & Hsub & Hle & _).
  exists m. split; [reflexivity|]. split; [exact Hne|].
  split; [rewrite Hm; apply all_chars_take_while|]. split.
  - split; [lia|].
    replace (pos + String.length m - pos)%nat with (String.length m) by lia.
    exact Hsub.
  - intros c Hc. pose proof (get_some_length _ _ _ Hc) as Hlt.
    apply (take_while_next cls (substr_from rule pos)).
    rewrite <- Hm. unfold substr_from.
    rewrite substring_correct1 by lia.
    now rewrite Nat.add_comm.
Qed.

Lemma makeRegexParser_is_greedy_witness :
  exists m,
    VStr "120" = VStr m /\ m <> "" /\ all_chars is_digit m = true /\
    reads "n is 120 or n is 7" 5 8 m /\
    (forall c, String.get 8 "n is 120 or n is 7" = Some c -> is_digit c = false).
Proof.
  apply (makeRegexParser_is_greedy "n is 120 or n is 7" is_digit 5 (VStr "120") 8).
  - vm_compute. reflexivity.
  - discriminate.
Defined.

(** X15.  [condition], started inside the rule text, leaves the cursor
    inside the text and not before its start: the part of the rule that
    the driver reports as parsed is a prefix of the rule. *)
Theorem condition_stays_in_text (rule : string) (number : num)
    (fuel pos : nat) (v : jsval) (pos' : nat) :
  (pos <= String.length rule)%nat ->
  condition rule number fuel pos = Some (v, pos') ->
  (pos <= pos' <= String.length rule)%nat.
Proof.
  intros Hpos E.
  destruct (condition_safe rule number fuel _ _ _ E) as [_ [->|[? ?]]]; lia.
Qed.

Lemma condition_stays_in_text_witness :
  (0 <= 10 <= String.length "n is 1 or so")%nat.
Proof.
  apply (condition_stays_in_text "n is 1 or so" (Fin 1 0) 13 0 (VBool true) 10).
  - simpl. lia.
  - vm_compute. reflexivity.
Defined.

(** ** Reading a text that is known *)

Lemma substring_skip (pre s : string) (k : nat) :
  substring (String.length pre) k (pre ++ s) = substring 0 k s.
Proof. induction pre as [|c pre IH]; [reflexivity | exact IH]. Qed.

Lemma substr_from_app (pre s : string) :
  substr_from (pre ++ s) (String.length pre) = s.
Proof.
  unfold substr_from. rewrite substring_skip, string_length_app.
  replace (String.length pre + String.length s - String.length pre)%nat
    with (String.length s) by lia.
  apply substring_all.
Qed.

Lemma take_while_ends (cls : ascii -> bool) (p rest : string) :
  all_chars cls p = true ->
  match rest with
  | EmptyString => True
  | String c _ => cls c = false
  end ->
  take_while cls (p ++ rest) = p.
Proof.
  intros Hp Hr. destruct rest as [|c rest].
  - rewrite append_empty. now apply take_while_all.
  - now apply take_while_stop.
Qed.

Lemma value_at (rule pre d rest : string) :
  rule = pre ++ d ++ rest -> is_value d -> ends_value rest ->
  value rule (String.length pre)
  = Some (VStr d, (String.length pre + String.length d)%nat).
Proof.
  intros -> [Hne Hall] Hr.
  unfold value, makeRegexParser, re_plus. rewrite substr_from_app.
  rewrite (take_while_ends _ _ _ Hall Hr).
  destruct (String.eqb_spec d "") as [|_]; [congruence | reflexivity].
Qed.

Lemma literal_at (rule pre s rest : string) :
  rule = pre ++ s ++ rest ->
  makeStringParser rule s (String.length pre)
  = Some (VStr s, (String.length pre + String.length s)%nat).
Proof.
  intros ->. unfold makeStringParser, substr.
  rewrite Nat2Z.id, substring_skip, substring_prefix_app, String.eqb_refl.
  reflexivity.
Qed.

Lemma literal_fails (rule pre rest : string) (c : ascii) (s : string) :
  rule = pre ++ rest -> head_is_not c rest ->
  makeStringParser rule (String c s) (String.length pre)
  = Some (VNull, String.length pre).
Proof.
  intros -> Hr. unfold makeStringParser, substr.
  rewrite Nat2Z.id, substring_skip.
  destruct rest as [|b rest]; [reflexivity|].
  cbn [String.length substring String.eqb]. cbn [head_is_not] in Hr.
  destruct (Ascii.eqb_spec b c) as [|_]; [congruence | reflexivity].
Qed.

Lemma whitespace_fails (rule pre rest : string) :
  rule = pre ++ rest ->
  match rest with
  | EmptyString => True
  | String c _ => is_whitespace c = false
  end ->
  whitespace rule (String.length pre) = Some (VNull, String.length pre).
Proof.
  intros -> Hr. unfold whitespace, makeRegexParser, re_plus.
  rewrite substr_from_app.
  destruct rest as [|c rest]; [reflexivity|].
  cbn [take_while]. now rewrite Hr.
Qed.

(** What a production does when its [sequence] ran through, and when it
    failed. *)
Lemma wraps_run (q : parser) (ps : list parser) (g : jsval -> jsval)
    (pos : nat) (l : list jsval) (pos' : nat) :
  wraps q (sequence ps) g -> seq_run ps pos l pos' ->
  q pos = Some (g (VArr l), pos').
Proof.
  intros W R. specialize (W pos).
  now rewrite (sequence_of_run _ _ _ _ R) in W.
Qed.

Lemma wraps_fail (q p : parser) (g : jsval -> jsval) (pos pos' : nat) :
  wraps q p g -> p pos = Some (VNull, pos') -> q pos = Some (VNull, pos').
Proof. intros W E. specialize (W pos). now rewrite E in W. Qed.

Lemma nOrMore_loop_of_run (p : parser) (pos : nat) (l : list jsval)
    (pos' : nat) :
  rep_run p pos l pos' ->
  forall fuel acc, (List.length l < fuel)%nat ->
    nOrMore_loop fuel p acc pos = Some ((acc ++ l)%list, pos').
Proof.
  induction 1 as [pos q E|pos q pos' r l E N _ IH]; intros fuel acc Hf.
  - destruct fuel as [|fuel]; [simpl in Hf; lia|].
    cbn [nOrMore_loop]. rewrite E. cbn [is_null]. now rewrite app_nil_r.
  - destruct fuel as [|fuel]; [simpl in Hf; lia|].
    cbn [nOrMore_loop]. rewrite E. apply is_null_false in N. rewrite N.
    rewrite IH by (simpl in Hf; lia). now rewrite <- app_assoc.
Qed.

(** A run of the loop of [nOrMore(0, p)] is what it returns. *)
Lemma nOrMore_of_run (rule : string) (p : parser) (pos : nat)
    (l : list jsval) (pos' : nat) :
  rep_run p pos l pos' -> (List.length l <= String.length rule)%nat ->
  nOrMore rule 0 p pos = Some (VArr l, pos').
Proof.
  intros R Hl. unfold nOrMore.
  rewrite (nOrMore_loop_of_run _ _ _ _ R) by (unfold max_fuel; lia).
  reflexivity.
Qed.

(** [rangeList] returns the list when it makes an array. *)
Lemma rangeList_run (rule : string) (fuel pos : nat) (l : list jsval)
    (pos' : nat) :
  seq_run [choice [range rule; value rule];
           nOrMore rule 0 (rangeTail rule (rangeList rule fuel))] pos l pos' ->
  fits (list_of (VArr l)) = true ->
  rangeList rule (S fuel) pos = Some (VArr (list_of (VArr l)), pos').
Proof.
  intros R F. rewrite rangeList_S, (sequence_of_run _ _ _ _ R).
  cbn [is_null]. now rewrite F.
Qed.

Section ListText.

Variable rule : string.

Lemma range_at_bare (pre d rest : string) :
  rule = pre ++ d ++ rest -> is_value d ->
  ends_value rest -> head_is_not "." rest ->
  range rule (String.length pre) = Some (VNull, String.length pre).
Proof.
  intros E Hd Hr Hdot. apply range_fail.
  unfold sequence. cbn [sequence_loop].
  rewrite (value_at _ _ _ _ E Hd Hr). cbn [is_null].
  rewrite <- string_length_app.
  unfold _range_. rewrite (literal_fails rule (pre ++ d) rest); auto.
  now rewrite string_app_assoc.
Qed.

(** [range] where a range is written: it runs the loop on the doubles
    nearest to the two values. *)
Lemma range_at_span (pre a b rest : string) :
  rule = pre ++ item_text (Span a b) ++ rest ->
  is_value a -> is_value b -> ends_value rest ->
  range rule (String.length pre)
  = match range_trips (binary64 (integer a)) (binary64 (integer b)) with
    | Some _ =>
        Some (VArr (item_values (Span a b)),
              (String.length pre + String.length (item_text (Span a b)))%nat)
    | None => None
    end.
Proof.
  cbn [item_text]. intros E Ha Hb Hr.
  assert (E1 : rule = pre ++ a ++ (".." ++ b ++ rest))
    by (now rewrite E, !string_app_assoc).
  assert (E2 : rule = (pre ++ a) ++ ".." ++ (b ++ rest))
    by (now rewrite E, !string_app_assoc).
  assert (E3 : rule = ((pre ++ a) ++ "..") ++ b ++ rest)
    by (now rewrite E, !string_app_assoc).
  assert (R : seq_run [value rule; _range_ rule; value rule]
                (String.length pre) [VStr a; VStr ".."; VStr b]
                (String.length pre + String.length (a ++ ".." ++ b))%nat).
  { econstructor; [apply (value_at _ _ _ _ E1 Ha); reflexivity | discriminate|].
    econstructor.
    { rewrite <- string_length_app. apply (literal_at _ _ _ _ E2). }
    { discriminate. }
    econstructor.
    { rewrite <- !string_length_app. apply (value_at _ _ _ _ E3 Hb Hr). }
    { discriminate. }
    rewrite <- !string_length_app, !string_app_assoc. constructor. }
  unfold range. rewrite (sequence_of_run _ _ _ _ R).
  cbn [is_null negb]. cbv zeta. index_simpl.
  rewrite !parseInt_digits by (auto; now right).
  destruct (range_trips _ _) as [trips|] eqn:T; [|reflexivity].
  rewrite (range_trips_values _ _ _ (integer_nonneg a) (integer_nonneg b) T).
  reflexivity.
Qed.

(** The first item of a list text, read by [choice([range, value])]. *)
Lemma first_item_at (pre : string) (it : item) (rest : string) :
  rule = pre ++ item_text it ++ rest -> well_formed it -> halts_on it ->
  ends_value rest -> head_is_not "." rest ->
  exists r,
    choice [range rule; value rule] (String.length pre)
    = Some (r, (String.length pre + String.length (item_text it))%nat) /\
    r <> VNull /\ js_concat [] r = item_values it.
Proof.
  intros E W H Hr Hdot. destruct it as [d|a b]; cbn [well_formed] in W.
  - cbn [item_text] in *. exists (VStr d). cbn [choice].
    rewrite (range_at_bare _ _ _ E W Hr Hdot). cbn [is_null].
    rewrite (value_at _ _ _ _ E W Hr). cbn [is_null].
    split; [reflexivity|]. split; [discriminate | reflexivity].
  - destruct W as [Ha Hb]. exists (VArr (item_values (Span a b))).
    cbn [choice]. rewrite (range_at_span _ _ _ _ E Ha Hb Hr).
    destruct H as [trips ->]. cbn [is_null].
    split; [reflexivity|]. split; [discriminate | reflexivity].
Qed.

Lemma rangeTail_at_end (rl : parser) (pre rest : string) :
  rule = pre ++ rest -> head_is_not "," rest ->
  rangeTail rule rl (String.length pre) = Some (VNull, String.length pre).
Proof.
  intros E Hc. apply (wraps_fail _ _ _ _ _ (rangeTail_wraps rule rl)).
  unfold sequence. cbn [sequence_loop]. unfold _comma_.
  now rewrite (literal_fails _ _ _ _ _ E Hc).
Qed.

Lemma list_text_length (items : list item) :
  Forall well_formed items ->
  (List.length items <= String.length (list_text items))%nat.
Proof.
  induction 1 as [|it items W _ IH]; [simpl; lia|].
  assert (L : (1 <= String.length (item_text it))%nat).
  { destruct it as [d|a b]; cbn [well_formed item_text] in *.
    - destruct W as [Hne _]. destruct d; [congruence | simpl; lia].
    - destruct W as [[Hne _] _]. destruct a; [congruence | simpl; lia]. }
  destruct items as [|it2 items].
  - unfold list_text. cbn [map String.concat List.length]. lia.
  - rewrite list_text_cons by discriminate.
    rewrite !string_length_app. cbn [List.length String.length] in *. lia.
Qed.

(** A written list of items, followed by a text that cannot continue it,
    is read to its end, and the value is what the items contribute. *)
Lemma rangeList_at (items : list item) :
  items <> [] -> Forall well_formed items -> Forall halts_on items ->
  Z.of_nat (List.length (flat_map item_values items)) <= max_array_length ->
  forall fuel pre rest,
    rule = pre ++ list_text items ++ rest -> stops rest ->
    (List.length items <= fuel)%nat ->
    rangeList rule fuel (String.length pre)
    = Some (VArr (flat_map item_values items),
            (String.length pre + String.length (list_text items))%nat).
Proof.
  induction items as [|it items IH]; [congruence|].
  intros _ Wf Hh Hcap fuel pre rest E (Hr & Hdot & Hcomma) Hf.
  destruct fuel as [|fuel]; [simpl in Hf; lia|].
  pose proof (list_text_length _ Wf) as Hn.
  apply Forall_cons_iff in Wf. destruct Wf as [Wit Wfs].
  apply Forall_cons_iff in Hh. destruct Hh as [Hit Hhs].
  assert (Hlen : (String.length (list_text (it :: items))
                  <= String.length rule)%nat).
  { rewrite E, !string_length_app. lia. }
  destruct items as [|it2 items].
  - (* the last item *)
    unfold list_text in *. cbn [map String.concat] in *.
    destruct (first_item_at _ _ _ E Wit Hit Hr Hdot) as (r & Er & Nr & Cr).
    assert (Estop : rule = (pre ++ item_text it) ++ rest)
      by (now rewrite string_app_assoc).
    assert (R : seq_run [choice [range rule; value rule];
                         nOrMore rule 0 (rangeTail rule (rangeList rule fuel))]
                  (String.length pre) [r; VArr []]
                  (String.length pre + String.length (item_text it))%nat).
    { econstructor; [exact Er | exact Nr|].
      econstructor; [|discriminate | constructor].
      apply nOrMore_of_run; [|simpl; lia].
      apply rep_stop. rewrite <- string_length_app.
      now apply (rangeTail_at_end _ _ _ Estop). }
    assert (L : list_of (VArr [r; VArr []]) = flat_map item_values [it]).
    { unfold list_of. index_simpl. cbn [truthy flat_map]. rewrite Cr.
      now rewrite app_nil_r. }
    rewrite (rangeList_run rule fuel _ _ _ R); rewrite L;
      [reflexivity | now apply Z.leb_le].
  - (* an item, a comma and the rest of the list *)
    rewrite list_text_cons in * by discriminate.
    set (more := list_text (it2 :: items)) in *.
    assert (E0 : rule = pre ++ item_text it ++ ("," ++ more ++ rest))
      by (now rewrite E, !string_app_assoc).
    destruct (first_item_at _ _ _ E0 Wit Hit) as (r & Er & Nr & Cr);
      [reflexivity | discriminate|].
    assert (E1 : rule = (pre ++ item_text it) ++ "," ++ (more ++ rest))
      by (now rewrite E, !string_app_assoc).
    assert (E2 : rule = ((pre ++ item_text it) ++ ",") ++ more ++ rest)
      by (now rewrite E, !string_app_assoc).
    assert (E3 : rule = (((pre ++ item_text it) ++ ",") ++ more) ++ rest)
      by (now rewrite E, !string_app_assoc).
    assert (Etail : rangeList rule fuel
                      (String.length ((pre ++ item_text it) ++ ","))
                    = Some (VArr (flat_map item_values (it2 :: items)),
                            String.length (((pre ++ item_text it) ++ ",") ++ more))).
    { rewrite (string_length_app _ more).
      apply (IH ltac:(discriminate) Wfs Hhs) with (rest := rest);
        [|exact E2 | now split | simpl in Hf; simpl; lia].
      change (flat_map item_values (it :: it2 :: items))
        with (item_values it ++ flat_map item_values (it2 :: items))%list
        in Hcap.
      rewrite length_app in Hcap. lia. }
    assert (Rt : seq_run [_comma_ rule; rangeList rule fuel]
                   (String.length (pre ++ item_text it))
                   [VStr ","; VArr (flat_map item_values (it2 :: items))]
                   (String.length (((pre ++ item_text it) ++ ",") ++ more))).
    { econstructor.
      { unfold _comma_. apply (literal_at _ _ _ _ E1). }
      { discriminate. }
      econstructor.
      { rewrite <- string_length_app. exact Etail. }
      { discriminate. }
      constructor. }
    pose proof (wraps_run _ _ _ _ _ _ (rangeTail_wraps rule _) Rt) as Et.
    cbv beta in Et. rewrite get_index_1 in Et.
    assert (R : seq_run [choice [range rule; value rule];
                         nOrMore rule 0 (rangeTail rule (rangeList rule fuel))]
                  (String.length pre)
                  [r; VArr [VArr (flat_map item_values (it2 :: items))]]
                  (String.length (((pre ++ item_text it) ++ ",") ++ more))).
    { econstructor; [exact Er | exact Nr|].
      econstructor; [|discriminate | constructor].
      apply nOrMore_of_run.
      2:{ cbn [List.length]. rewrite E, !string_length_app.
          cbn [String.length]. lia. }
      eapply rep_step.
      - rewrite <- string_length_app. exact Et.
      - discriminate.
      - apply rep_stop. now apply (rangeTail_at_end _ _ _ E3). }
    assert (L : list_of (VArr [r; VArr [VArr (flat_map item_values
                                               (it2 :: items))]])
                = flat_map item_values (it :: it2 :: items)).
    { unfold list_of. index_simpl. cbn [truthy js_concat]. rewrite Cr.
      reflexivity. }
    rewrite (rangeList_run rule fuel _ _ _ R); rewrite L;
      [|now apply Z.leb_le].
    f_equal. f_equal.
    rewrite !string_length_app. cbn [String.length]. lia.
Qed.

End ListText.

(** The loops of a modest list end. *)
Lemma modest_list_halts (items : list item) :
  modest_list items -> Forall halts_on items.
Proof.
  intros [Hm Hn]. induction Hm as [|it items M _ IH]; constructor.
  - cbn [flat_map] in Hn. rewrite length_app in Hn.
    destruct it as [d|a b]; cbn [halts_on]; [exact I|].
    cbn [modest] in M. cbn [item_values] in Hn.
    rewrite length_map, inclusive_length in Hn.
    apply range_trips_modest.
    + apply integer_nonneg.
    + split; [apply integer_nonneg | exact M].
    + unfold array_capacity in Hn. unfold max_array_length. lia.
  - apply IH. cbn [flat_map] in Hn. rewrite length_app in Hn. lia.
Qed.

(** A value that is read exactly is met by no larger one. *)
Lemma meet_safe (a b : string) :
  safe_value b -> integer b < integer a -> meet a b = false.
Proof.
  intros Hs Hab. unfold meet. unfold safe_value, max_safe_integer in Hs.
  assert (P53 : 0 < 2 ^ 53) by (apply Z.pow_pos_nonneg; lia).
  pose proof (integer_nonneg b) as Hb.
  rewrite (binary64_safe (integer b)) by (unfold max_safe_integer; lia).
  destruct (Z.lt_ge_cases (integer a) (2 ^ 53)) as [Sa|La].
  - rewrite binary64_safe by (unfold max_safe_integer; lia).
    rewrite num_leb_integers. lia.
  - destruct (binary64_large _ La) as [->|(m & -> & Hm)]; [reflexivity|].
    fold (num_of_Z m). rewrite num_leb_integers. lia.
Qed.




(** A range from [2^53 + 2] to itself is built: there [i++] gives
    [2^53 + 4]. *)
Example range_of_one_double :
  range "9007199254740994..9007199254740994" 0%nat
  = Some (VArr [VNum (Fin 9007199254740994 0)], 34%nat).
Proof. vm_compute. reflexivity. Qed.

(** Where the values are read exactly ([b] is below [2^53]), the same
    shape of rule is read to its end. *)
Example descending_range_is_empty :
  rangeList "9007199254740993..9007199254740991"
    (max_fuel "9007199254740993..9007199254740991") 0%nat
  = Some (VArr [], 34%nat).
Proof. vm_compute. reflexivity. Qed.

(** ** How conditions are combined *)

Section Junction.

Variable rule : string.
Variable number : num.

Lemma consumed_whitespace_unique (q q1 q1' : nat) :
  consumed_whitespace rule q q1 -> consumed_whitespace rule q q1' -> q1 = q1'.
Proof. intros (w & E & _) (w' & E' & _). congruence. Qed.

(** The keywords [and] and [or] do not start at the same place. *)
Lemma and_or_apart (q q3 q3' : nat) :
  joined rule (_and_ rule) q q3 -> joined rule (_or_ rule) q q3' -> False.
Proof.
  intros (q1 & k & q2 & W1 & Ek & Nk & _) (q1' & k' & q2' & W1' & Ek' & Nk' & _).
  rewrite <- (consumed_whitespace_unique _ _ _ W1 W1') in Ek'.
  destruct (makeStringParser_inv _ _ _ _ _ Ek) as [[-> _]|(_ & _ & Ea)];
    [congruence|].
  destruct (makeStringParser_inv _ _ _ _ _ Ek') as [[-> _]|(_ & _ & Eo)];
    [congruence|].
  pose proof (substring_substring rule q1 (String.length "and") 1 ltac:(simpl; lia))
    as Ha.
  pose proof (substring_substring rule q1 (String.length "or") 1 ltac:(simpl; lia))
    as Ho.
  rewrite Ea in Ha. rewrite Eo in Ho. rewrite <- Ha in Ho. discriminate Ho.
Qed.

(** The sequence of [and] and of [or] runs through when the keyword
    stands between whitespace after the relation. *)
Lemma junction_run (kw c : parser) (pos : nat) (a : bool) (q q3 : nat)
    (b : bool) (p' : nat) :
  relation rule number pos = Some (VBool a, q) ->
  joined rule kw q q3 -> c q3 = Some (VBool b, p') ->
  exists w1 k w2,
    seq_run (junction rule number kw c) pos [VBool a; w1; k; w2; VBool b] p'.
Proof.
  intros Er (q1 & k & q2 & (w1 & E1 & N1) & Ek & Nk & (w2 & E2 & N2)) Ec.
  exists w1, k, w2. unfold junction.
  econstructor; [exact Er | discriminate|].
  econstructor; [exact E1 | exact N1|].
  econstructor; [exact Ek | exact Nk|].
  econstructor; [exact E2 | exact N2|].
  econstructor; [exact Ec | discriminate|]. constructor.
Qed.

(** It fails, and restores the cursor, when the keyword does not. *)
Lemma junction_fails (s : string) (c : parser) (pos : nat) (a : bool)
    (q : nat) :
  relation rule number pos = Some (VBool a, q) ->
  (forall q3, ~ joined rule (makeStringParser rule s) q q3) ->
  sequence (junction rule number (makeStringParser rule s) c) pos
  = Some (VNull, pos).
Proof.
  intros Er Hn. unfold junction, sequence. cbn [sequence_loop].
  rewrite Er. cbn [is_null].
  destruct (makeRegexParser_total rule (re_plus is_whitespace) q)
    as (w1 & q1 & E1); [lia|].
  fold (whitespace rule) in E1. rewrite E1. destruct (is_null w1) eqn:N1; [reflexivity|].
  destruct (makeStringParser rule s q1) as [[k q2]|] eqn:Ek.
  2:{ unfold makeStringParser in Ek.
      destruct (_ =? _)%string; discriminate Ek. }
  destruct (is_null k) eqn:Nk; [reflexivity|].
  destruct (makeRegexParser_total rule (re_plus is_whitespace) q2)
    as (w2 & q3 & E2); [lia|].
  fold (whitespace rule) in E2. rewrite E2. destruct (is_null w2) eqn:N2; [reflexivity|].
  apply is_null_false in N1, Nk, N2.
  destruct (Hn q3). exists q1, k, q2.
  split; [now exists w1|]. split; [exact Ek|]. split; [exact Nk|]. now exists w2.
Qed.

Lemma junction_null (kw c : parser) (pos q : nat) :
  relation rule number pos = Some (VNull, q) ->
  sequence (junction rule number kw c) pos = Some (VNull, pos).
Proof.
  intros Er. unfold junction, sequence. cbn [sequence_loop].
  now rewrite Er.
Qed.

Lemma js_and_bool (a b : bool) : js_and (VBool a) (VBool b) = VBool (a && b).
Proof. now destruct a. Qed.

Lemma js_or_bool (a b : bool) : js_or (VBool a) (VBool b) = VBool (a || b).
Proof. now destruct a. Qed.

End Junction.

(** X7.  [condition] reads one relation of value [a] and then looks for
    the keyword [and], then for [or], between whitespace.  When [and]
    stands there, the whole rest is read as a condition of its own, of
    value [b], and the value is [a && b]; when [or] stands there, it is
    [a || b]; when neither does, the value is [a] and the cursor is left
    after the relation.  So the two keywords have the same precedence
    and group to the right: [a and b or c] is [a and (b or c)].  Without
    a relation at the cursor, [condition] returns [false] and reads
    nothing. *)
Theorem condition_groups_to_the_right (rule : string) (number : num)
    (fuel pos : nat) :
  (forall q,
     relation rule number pos = Some (VNull, q) ->
     condition rule number (S fuel) pos = Some (VBool false, pos)) /\
  (forall a q,
     relation rule number pos = Some (VBool a, q) ->
     (forall q3 b pos',
        joined rule (_and_ rule) q q3 ->
        condition rule number fuel q3 = Some (VBool b, pos') ->
        condition rule number (S fuel) pos = Some (VBool (a && b), pos')) /\
     (forall q3 b pos',
        joined rule (_or_ rule) q q3 ->
        condition rule number fuel q3 = Some (VBool b, pos') ->
        condition rule number (S fuel) pos = Some (VBool (a || b), pos')) /\
     ((forall q3, ~ joined rule (_and_ rule) q q3) ->
      (forall q3, ~ joined rule (_or_ rule) q q3) ->
      condition rule number (S fuel) pos = Some (VBool a, q))).
Proof.
  set (c := condition rule number fuel).
  assert (Hand : forall a q q3 b pos',
            relation rule number pos = Some (VBool a, q) ->
            joined rule (_and_ rule) q q3 -> c q3 = Some (VBool b, pos') ->
            and_ rule number c pos = Some (VBool (a && b), pos')).
  { intros a q q3 b pos' Er J Ec.
    destruct (junction_run rule number _ _ _ _ _ _ _ _ Er J Ec)
      as (w1 & k & w2 & R).
    rewrite (wraps_run _ _ _ _ _ _ (and__wraps rule number c) R).
    index_simpl. now rewrite js_and_bool. }
  assert (Hor : forall a q q3 b pos',
            relation rule number pos = Some (VBool a, q) ->
            joined rule (_or_ rule) q q3 -> c q3 = Some (VBool b, pos') ->
            or_ rule number c pos = Some (VBool (a || b), pos')).
  { intros a q q3 b pos' Er J Ec.
    destruct (junction_run rule number _ _ _ _ _ _ _ _ Er J Ec)
      as (w1 & k & w2 & R).
    rewrite (wraps_run _ _ _ _ _ _ (or__wraps rule number c) R).
    index_simpl. now rewrite js_or_bool. }
  assert (Hno_and : forall a q,
            relation rule number pos = Some (VBool a, q) ->
            (forall q3, ~ joined rule (_and_ rule) q q3) ->
            and_ rule number c pos = Some (VNull, pos)).
  { intros a q Er Hn.
    apply (wraps_fail _ _ _ _ _ (and__wraps rule number c)).
    now apply (junction_fails rule number "and" c pos a q). }
  assert (Hno_or : forall a q,
            relation rule number pos = Some (VBool a, q) ->
            (forall q3, ~ joined rule (_or_ rule) q q3) ->
            or_ rule number c pos = Some (VNull, pos)).
  { intros a q Er Hn.
    apply (wraps_fail _ _ _ _ _ (or__wraps rule number c)).
    now apply (junction_fails rule number "or" c pos a q). }
  split; [|intros a q Er; split; [|split]].
  - intros q Er. rewrite condition_S. fold c.
    unfold sequence, alternatives. cbn [sequence_loop choice].
    rewrite (wraps_fail _ _ _ _ _ (and__wraps rule number c)
               (junction_null rule number _ c pos q Er)).
    cbn [is_null].
    rewrite (wraps_fail _ _ _ _ _ (or__wraps rule number c)
               (junction_null rule number _ c pos q Er)).
    cbn [is_null]. rewrite Er. reflexivity.
  - intros q3 b pos' J Ec. rewrite condition_S. fold c.
    unfold sequence, alternatives. cbn [sequence_loop choice].
    rewrite (Hand _ _ _ _ _ Er J Ec). reflexivity.
  - intros q3 b pos' J Ec. rewrite condition_S. fold c.
    unfold sequence, alternatives. cbn [sequence_loop choice].
    rewrite (Hno_and _ _ Er
               (fun q3' J' => and_or_apart rule q q3' q3 J' J)).
    cbn [is_null]. rewrite (Hor _ _ _ _ _ Er J Ec). reflexivity.
  - intros Na No. rewrite condition_S. fold c.
    unfold sequence, alternatives. cbn [sequence_loop choice].
    rewrite (Hno_and _ _ Er Na). cbn [is_null].
    rewrite (Hno_or _ _ Er No). cbn [is_null]. rewrite Er. reflexivity.
Qed.

Lemma condition_groups_to_the_right_witness :
  condition "n is 2 and n is 3 or n is 1" (Fin 1 0) 28 0%nat
  = Some (VBool (false && true), 27%nat).
Proof.
  assert (R : relation "n is 2 and n is 3 or n is 1" (Fin 1 0) 0%nat
              = Some (VBool false, 6%nat)) by (vm_compute; reflexivity).
  apply (proj1 (proj2 (condition_groups_to_the_right
                         "n is 2 and n is 3 or n is 1" (Fin 1 0) 27 0%nat)
                 false 6%nat R) 11%nat true 27%nat).
  - exists 7%nat, (VStr "and"), 10%nat.
    split; [exists (VStr " "); split; [reflexivity | discriminate]|].
    split; [reflexivity|]. split; [discriminate|].
    exists (VStr " "). split; [reflexivity | discriminate].
  - vm_compute. reflexivity.
Defined.

(** Two rules with the number 1.  Giving [and] the higher precedence
    would make the first one [true]; grouping to the left would make
    the second one [false]. *)
Example junction_grouping :
  map (fun rule => option_map fst (condition rule (Fin 1 0) 28 0%nat))
      ["n is 2 and n is 3 or n is 1"; "n is 1 or n is 3 and n is 2"]
  = [Some (VBool false); Some (VBool true)].
Proof. vm_compute. reflexivity. Qed.
